(** * The resharder of the workflow package

    A shallow embedding of [buildResharder], [validateTargets],
    [readRefStreams], [blsIsReference], [identifyRuleType],
    [createStreams] and [forAll], with the properties the
    specification states about them.

    Conventions of the embedding:
    - a Go pointer that may be nil is an [option];
    - a Go map is a [gmap]; a map that may be nil is an [option] of one;
    - a function returning [(T, error)] returns a [result T]; a runtime
      panic (nil dereference, index out of range) is the third outcome
      [Panic];
    - methods of [*resharder] run in a state monad whose state holds the
      resharder, the world behind the tablet manager client and the log
      of the statements sent through it;
    - the order in which goroutines of [forAll] run and the order of a
      [range] over a map are chosen by the runtime: the embedding takes
      them as arguments ([Scheduler], [MapRange]) and the theorems hold
      for every choice. *)

From stdpp Require Import base strings list gmap.

#[global] Set Warnings "-clear-no-such-hyp".

Open Scope string_scope.
Open Scope list_scope.
Open Scope nat_scope.

(** ** Protobuf messages and topology records *)

(** binlogdatapb.Rule *)
Record Rule := mkRule {
  rule_Match : string;
  rule_Filter : string;
}.

(** binlogdatapb.Filter *)
Record Filter := mkFilter {
  filter_Rules : list Rule;
}.

(** binlogdatapb.BinlogSource. [Filter] is a pointer in the generated
    code, hence the option; [OnDdl] is the enum's number. *)
Record BinlogSource := mkBinlogSource {
  bls_Keyspace : string;
  bls_Shard : string;
  bls_Filter : option Filter;
  bls_StopAfterCopy : bool;
  bls_OnDdl : Z;
}.

(** vschemapb.Table, reduced to the field the resharder reads. *)
Record Table := mkTable {
  table_Type : string;
}.

(** vschemapb.Keyspace *)
Record Keyspace := mkKeyspace {
  Tables : gmap string Table;
}.

(** topodatapb.KeyRange *)
Record KeyRange := mkKeyRange {
  kr_Start : string;
  kr_End : string;
}.

(** topodatapb.TabletAlias *)
Record TabletAlias := mkTabletAlias {
  alias_Cell : string;
  alias_Uid : N;
}.

(** topodatapb.Shard: what the topology stores for a shard. *)
Record Shard := mkShard {
  shard_IsPrimaryServing : bool;
  shard_PrimaryAlias : option TabletAlias;
  shard_KeyRange : option KeyRange;
}.

(** topo.ShardInfo: the shard record with the names it was read under. *)
Record ShardInfo := mkShardInfo {
  si_keyspace : string;
  si_shardName : string;
  si_Shard : Shard;
}.

Definition IsPrimaryServing (si : ShardInfo) : bool :=
  shard_IsPrimaryServing (si_Shard si).
Definition PrimaryAlias (si : ShardInfo) : option TabletAlias :=
  shard_PrimaryAlias (si_Shard si).
Definition ShardKeyRange (si : ShardInfo) : option KeyRange :=
  shard_KeyRange (si_Shard si).

(** topodatapb.Tablet and topo.TabletInfo *)
Record Tablet := mkTablet {
  tablet_Alias : option TabletAlias;
  tablet_Keyspace : string;
  tablet_Shard : string;
  tablet_DbNameOverride : string;
}.

Record TabletInfo := mkTabletInfo {
  ti_Tablet : Tablet;
}.

(** sqltypes.Result, reduced to its rows; a column value is its bytes. *)
Record QueryResult := mkQueryResult {
  Rows : list (list string);
}.

#[global] Instance Rule_eq_dec : EqDecision Rule.
Proof. solve_decision. Defined.
#[global] Instance Filter_eq_dec : EqDecision Filter.
Proof. solve_decision. Defined.
#[global] Instance BinlogSource_eq_dec : EqDecision BinlogSource.
Proof. solve_decision. Defined.
#[global] Instance KeyRange_eq_dec : EqDecision KeyRange.
Proof. solve_decision. Defined.
#[global] Instance TabletAlias_eq_dec : EqDecision TabletAlias.
Proof. solve_decision. Defined.
#[global] Instance Shard_eq_dec : EqDecision Shard.
Proof. solve_decision. Defined.
#[global] Instance ShardInfo_eq_dec : EqDecision ShardInfo.
Proof. solve_decision. Defined.
#[global] Instance Tablet_eq_dec : EqDecision Tablet.
Proof. solve_decision. Defined.
#[global] Instance TabletInfo_eq_dec : EqDecision TabletInfo.
Proof. solve_decision. Defined.

(** ** Errors and results *)

(** An operand of a format verb. *)
Inductive arg : Type :=
| AStr (s : string)
| ABls (bls : BinlogSource)
| ATablet (t : Tablet)
| AAlias (a : option TabletAlias)
| ARow (row : list string)
| ARef (ref : gset string).

(** Go errors, kept unrendered: the format string of the source and its
    operands. [errors.New msg] is [Errorf msg []] and
    [vterrors.Wrap err msg] is [Wrapf err msg []]. *)
#[warnings="-register-all"]
Inductive error : Type :=
| Errorf (format : string) (args : list arg)
| Wrapf (err : error) (format : string) (args : list arg)
| Aggregate (errs : list error).

Inductive result (A : Type) : Type :=
| Ok (a : A)
| Err (e : error)
| Panic.
Arguments Ok {A} a.
Arguments Err {A} e.
Arguments Panic {A}.

(** The outcome of a Go function whose only result is an [error]. *)
Definition is_nil {A} (r : result A) : bool :=
  match r with Ok _ => true | _ => false end.

(** ** State monad of the resharder's methods *)

Definition M (S A : Type) : Type := S → result A * S.

Definition ret {S A} (a : A) : M S A := λ st, (Ok a, st).

Definition bind {S A B} (c : M S A) (k : A → M S B) : M S B :=
  λ st, match c st with
        | (Ok a, st') => k a st'
        | (Err e, st') => (Err e, st')
        | (Panic, st') => (Panic, st')
        end.

Definition fail {S A} (e : error) : M S A := λ st, (Err e, st).
Definition panic {S A} : M S A := λ st, (Panic, st).
Definition get {S} : M S S := λ st, (Ok st, st).
Definition modify {S} (f : S → S) : M S unit := λ st, (Ok tt, f st).
Definition lift {S A} (r : result A) : M S A := λ st, (r, st).

Notation "'let*' x ':=' c 'in' k" := (bind c (λ x, k))
  (at level 10, x name, c at level 200, k at level 200, only parsing).

(** ** The insert generator

    Modelled from the spec: [vreplication.InsertGenerator] is not among
    the sources. It is seeded with a state and a database name and
    accumulates one row per [AddRow]; its [String] renders the insert
    statement over the columns (workflow, source, pos, cell,
    tablet_types, workflow_type, workflow_sub_type, defer_secondary_keys,
    state, db_name). The enum constants are kept by name. *)
Definition VReplicationWorkflowState_Stopped : string := "Stopped".
Definition VReplicationWorkflowType_Reshard : string := "Reshard".
Definition VReplicationWorkflowSubType_None : string := "None".

Record InsertRow := mkInsertRow {
  row_workflow : string;
  row_bls : BinlogSource;
  row_pos : string;
  row_cell : string;
  row_tabletTypes : string;
  row_workflowType : string;
  row_workflowSubType : string;
  row_deferSecondaryKeys : bool;
}.

Record InsertGenerator := mkInsertGenerator {
  ig_state : string;
  ig_dbname : string;
  ig_rows : list InsertRow;
}.

Definition NewInsertGenerator (state dbname : string) : InsertGenerator :=
  mkInsertGenerator state dbname [].

Definition AddRow (ig : InsertGenerator) (workflow : string) (bls : BinlogSource)
    (pos cell tabletTypes workflowType workflowSubType : string)
    (deferSecondaryKeys : bool) : InsertGenerator :=
  mkInsertGenerator (ig_state ig) (ig_dbname ig)
    (ig_rows ig ++ [mkInsertRow workflow bls pos cell tabletTypes
                      workflowType workflowSubType deferSecondaryKeys]).

(** ** Collaborators

    The topology server [s.ts], the tablet manager client [s.tmc] and the
    package-level helpers the resharder calls. None of them is part of
    the resharder: they are the interface it is verified against. *)
Class Collaborators := {
  (** the state behind the tablet manager client: the tablets' catalogs *)
  World : Type;
  (** [ts.GetShard], up to the wrapping into a [ShardInfo] *)
  ts_GetShard : string → string → error + Shard;
  (** [ts.GetTablet] *)
  ts_GetTablet : option TabletAlias → error + TabletInfo;
  (** [ts.GetVSchema] *)
  ts_GetVSchema : string → error + Keyspace;
  (** [tmc.VReplicationExec] *)
  tmc_VReplicationExec : Tablet → string → World → (error + QueryResult) * World;
  (** [topotools.ValidateForReshard]; [None] is the nil error *)
  ValidateForReshard : list ShardInfo → list ShardInfo → option error;
  (** [schema.IsInternalOperationTableName] *)
  IsInternalOperationTableName : string → bool;
  (** [key.KeyRangeIntersect] and [key.KeyRangeString] *)
  KeyRangeIntersect : option KeyRange → option KeyRange → bool;
  KeyRangeString : option KeyRange → string;
  (** [encodeString], the SQL string quoter *)
  encodeString : string → string;
  (** the method [DbName] of [topo.TabletInfo] *)
  DbName : TabletInfo → string;
  (** [prototext.Unmarshal] into a fresh [BinlogSource] *)
  prototext_Unmarshal : string → error + BinlogSource;
  (** the table [binlogdatapb.OnDDLAction_value]; 0 for a missing name *)
  OnDDLAction_value : string → Z;
  (** the method [String] of the insert generator *)
  InsertGenerator_String : InsertGenerator → string;
}.

(** Modelled from the spec: [vindexes.TypeReference] is not among the
    sources; the spec names the table type [reference]. *)
Definition TypeReference : string := "reference".

(** Modelled from the spec: [topo.Server.GetShard] is not among the
    sources. A shard is identified by [(keyspace, shardName)]: the
    [ShardInfo] answers [Keyspace()] and [ShardName()] with the names it
    was looked up under. *)
Definition GetShard `{Collaborators} (keyspace shard : string) : error + ShardInfo :=
  match ts_GetShard keyspace shard with
  | inl err => inl err
  | inr sh => inr (mkShardInfo keyspace shard sh)
  end.

(** ** The resharder *)

Record refStream := mkRefStream {
  ref_workflow : string;
  ref_bls : BinlogSource;
  ref_cell : string;
  ref_tabletTypes : string;
}.

Record resharder := mkResharder {
  keyspace : string;
  workflow : string;
  sourceShards : list ShardInfo;
  sourcePrimaries : gmap string TabletInfo;
  targetShards : list ShardInfo;
  targetPrimaries : gmap string TabletInfo;
  vschema : option Keyspace;
  refStreams : option (gmap string refStream);
  cell : string;
  tabletTypes : string;
  stopAfterCopy : bool;
  onDDL : string;
  deferSecondaryKeys : bool;
}.

Definition set_sourceShards (v : list ShardInfo) (rs : resharder) : resharder :=
  mkResharder (keyspace rs) (workflow rs) v (sourcePrimaries rs)
    (targetShards rs) (targetPrimaries rs) (vschema rs) (refStreams rs)
    (cell rs) (tabletTypes rs) (stopAfterCopy rs) (onDDL rs) (deferSecondaryKeys rs).
Definition set_sourcePrimaries (v : gmap string TabletInfo) (rs : resharder) : resharder :=
  mkResharder (keyspace rs) (workflow rs) (sourceShards rs) v
    (targetShards rs) (targetPrimaries rs) (vschema rs) (refStreams rs)
    (cell rs) (tabletTypes rs) (stopAfterCopy rs) (onDDL rs) (deferSecondaryKeys rs).
Definition set_targetShards (v : list ShardInfo) (rs : resharder) : resharder :=
  mkResharder (keyspace rs) (workflow rs) (sourceShards rs) (sourcePrimaries rs)
    v (targetPrimaries rs) (vschema rs) (refStreams rs)
    (cell rs) (tabletTypes rs) (stopAfterCopy rs) (onDDL rs) (deferSecondaryKeys rs).
Definition set_targetPrimaries (v : gmap string TabletInfo) (rs : resharder) : resharder :=
  mkResharder (keyspace rs) (workflow rs) (sourceShards rs) (sourcePrimaries rs)
    (targetShards rs) v (vschema rs) (refStreams rs)
    (cell rs) (tabletTypes rs) (stopAfterCopy rs) (onDDL rs) (deferSecondaryKeys rs).
Definition set_vschema (v : option Keyspace) (rs : resharder) : resharder :=
  mkResharder (keyspace rs) (workflow rs) (sourceShards rs) (sourcePrimaries rs)
    (targetShards rs) (targetPrimaries rs) v (refStreams rs)
    (cell rs) (tabletTypes rs) (stopAfterCopy rs) (onDDL rs) (deferSecondaryKeys rs).
Definition set_refStreams (v : option (gmap string refStream)) (rs : resharder) : resharder :=
  mkResharder (keyspace rs) (workflow rs) (sourceShards rs) (sourcePrimaries rs)
    (targetShards rs) (targetPrimaries rs) (vschema rs) v
    (cell rs) (tabletTypes rs) (stopAfterCopy rs) (onDDL rs) (deferSecondaryKeys rs).

(** ** The stream classifier *)

Inductive StreamType : Type :=
| StreamTypeUnknown
| StreamTypeSharded
| StreamTypeReference.

#[global] Instance StreamType_eq_dec : EqDecision StreamType.
Proof. solve_decision. Defined.

Section Classifier.
Context `{Collaborators}.

Definition identifyRuleType (rs : resharder) (rule : Rule) : result StreamType :=
  match vschema rs with
  | None => Panic
  | Some vs =>
      let vtable := Tables vs !! rule_Match rule in
      if negb (bool_decide (is_Some vtable))
         && negb (IsInternalOperationTableName (rule_Match rule))
      then Err (Errorf "table %v not found in vschema" [AStr (rule_Match rule)])
      else
        match vtable with
        | Some t =>
            if bool_decide (table_Type t = TypeReference)
            then Ok StreamTypeReference
            else Ok StreamTypeSharded
        | None => Ok StreamTypeSharded
        end
  end.

(** The loop of [blsIsReference] over [bls.Filter.Rules], with the
    local [streamType]. *)
Fixpoint blsIsReference_rules (rs : resharder) (bls : BinlogSource)
    (rules : list Rule) (streamType : StreamType) : result bool :=
  match rules with
  | [] => Ok (bool_decide (streamType = StreamTypeReference))
  | rule :: rest =>
      match identifyRuleType rs rule with
      | Panic => Panic
      | Err err => Err err
      | Ok StreamTypeSharded =>
          if bool_decide (streamType = StreamTypeReference)
          then Err (Errorf "cannot reshard streams with a mix of reference and sharded tables: %v" [ABls bls])
          else blsIsReference_rules rs bls rest StreamTypeSharded
      | Ok StreamTypeReference =>
          if bool_decide (streamType = StreamTypeSharded)
          then Err (Errorf "cannot reshard streams with a mix of reference and sharded tables: %v" [ABls bls])
          else blsIsReference_rules rs bls rest StreamTypeReference
      | Ok StreamTypeUnknown => blsIsReference_rules rs bls rest streamType
      end
  end.

(** [bls.Filter.Rules] dereferences [bls.Filter]. *)
Definition blsIsReference (rs : resharder) (bls : BinlogSource) : result bool :=
  match bls_Filter bls with
  | None => Panic
  | Some filter => blsIsReference_rules rs bls (filter_Rules filter) StreamTypeUnknown
  end.

End Classifier.

(** ** Runtime choices *)

(** The order in which the goroutines started by [forAll] run their
    bodies: some permutation of the shards. *)
Record Scheduler := mkScheduler {
  sched_order :> list ShardInfo → list ShardInfo;
  sched_perm : ∀ shards, sched_order shards ≡ₚ shards;
}.

(** The order in which a [range] over a map visits its entries: some
    permutation of them. *)
Record MapRange (V : Type) := mkMapRange {
  range_order :> gmap string V → list (string * V);
  range_perm : ∀ m, range_order m ≡ₚ map_to_list m;
}.
Arguments range_order {V} _ _.
Arguments range_perm {V} _ _.

(** ** The fan-out executor *)

(** Modelled from the spec: [concurrency.AllErrorRecorder] and
    [vterrors.Aggregate] are not among the sources. The recorder keeps
    every recorded error; [AggrError] is nil when nothing was recorded
    and otherwise the aggregate of the recorded errors. *)
Definition RecordError (allErrors : list error) (err : error) : list error :=
  allErrors ++ [err].

Definition AggrError (allErrors : list error) : result unit :=
  match allErrors with
  | [] => Ok tt
  | _ => Err (Aggregate allErrors)
  end.

Section FanOut.
Context {S : Type}.

(** The goroutines of [forAll], in the order they run. Every body runs;
    an error is recorded and the next body still runs. A panic of a
    goroutine ends the process. *)
Fixpoint forAll_run (f : ShardInfo → M S unit) (shards : list ShardInfo)
    (allErrors : list error) : M S (list error) :=
  match shards with
  | [] => ret allErrors
  | shard :: rest =>
      λ st, match f shard st with
            | (Ok _, st') => forAll_run f rest allErrors st'
            | (Err err, st') => forAll_run f rest (RecordError allErrors err) st'
            | (Panic, st') => (Panic, st')
            end
  end.

Definition forAll (sched : Scheduler) (shards : list ShardInfo)
    (f : ShardInfo → M S unit) : M S unit :=
  let* allErrors := forAll_run f (sched shards) [] in
  lift (AggrError allErrors).

End FanOut.

(** ** Methods of the resharder *)

Section Resharder.
Context `{Collaborators}.

Record state := mkState {
  st_rs : resharder;
  st_world : World;
  st_log : list (Tablet * string);
}.

Definition set_rs (f : resharder → resharder) (st : state) : state :=
  mkState (f (st_rs st)) (st_world st) (st_log st).

(** [rs.s.tmc.VReplicationExec(ctx, tablet, query)]: the statement is
    logged and handed to the client. *)
Definition VReplicationExec (tablet : Tablet) (query : string)
    : M state (error + QueryResult) :=
  λ st, let '(r, w) := tmc_VReplicationExec tablet query (st_world st) in
        (Ok r, mkState (st_rs st) w (st_log st ++ [(tablet, query)])).

(** *** validateTargets *)

Definition validateTargets_query (targetPrimary : TabletInfo) : string :=
  "select 1 from _vt.vreplication where db_name=" +:+ encodeString (DbName targetPrimary).

Definition validateTargets_task (target : ShardInfo) : M state unit :=
  let* st := get in
  match targetPrimaries (st_rs st) !! si_shardName target with
  | None => panic
  | Some targetPrimary =>
      let query := validateTargets_query targetPrimary in
      let* r := VReplicationExec (ti_Tablet targetPrimary) query in
      match r with
      | inl err =>
          fail (Wrapf err "VReplicationExec(%v, %s)"
                  [ATablet (ti_Tablet targetPrimary); AStr query])
      | inr p3qr =>
          if bool_decide (length (Rows p3qr) ≠ 0)
          then fail (Errorf "some streams already exist in the target shards, please clean them up and retry the command" [])
          else ret tt
      end
  end.

Definition validateTargets (sched : Scheduler) : M state unit :=
  let* st := get in
  forAll sched (targetShards (st_rs st)) validateTargets_task.

(** *** readRefStreams *)

Definition readRefStreams_query (sourcePrimary : TabletInfo) : string :=
  "select workflow, source, cell, tablet_types from _vt.vreplication where db_name="
    +:+ encodeString (DbName sourcePrimary) +:+ " and message != 'FROZEN'".

(** [fmt.Sprintf("%s:%s:%s", workflow, bls.Keyspace, bls.Shard)] *)
Definition refKey (workflow : string) (bls : BinlogSource) : string :=
  workflow +:+ ":" +:+ bls_Keyspace bls +:+ ":" +:+ bls_Shard bls.

(** The loop over [qr.Rows]. [streams] is [rs.refStreams], written when
    [mustCreate]; [ref] is the comparison copy, consumed otherwise. The
    loop returns the final [ref]; what it wrote to [rs.refStreams]
    stays written when it returns early. A column value is its bytes,
    so [ToString] and [ToBytes] are the identity. *)
Fixpoint readRefStreams_rows (rs : resharder) (source : ShardInfo)
    (mustCreate : bool) (rows : list (list string))
    (streams : gmap string refStream) (ref : gset string)
    : result (gset string) * gmap string refStream :=
  match rows with
  | [] => (Ok ref, streams)
  | row :: rest =>
      match row !! 0%nat with
      | None => (Panic, streams)
      | Some workflow =>
          if bool_decide (workflow = "")
          then (Err (Errorf "VReplication streams must have named workflows for migration: shard: %s:%s"
                       [AStr (si_keyspace source); AStr (si_shardName source)]), streams)
          else
            match row !! 1%nat with
            | None => (Panic, streams)
            | Some rowBytes =>
                match prototext_Unmarshal rowBytes with
                | inl err => (Err (Wrapf err "prototext.Unmarshal: %v" [ARow row]), streams)
                | inr bls =>
                    match blsIsReference rs bls with
                    | Panic => (Panic, streams)
                    | Err err => (Err (Wrapf err "blsIsReference" []), streams)
                    | Ok false => readRefStreams_rows rs source mustCreate rest streams ref
                    | Ok true =>
                        let refKey := refKey workflow bls in
                        if mustCreate then
                          match row !! 2%nat with
                          | None => (Panic, streams)
                          | Some cell =>
                              match row !! 3%nat with
                              | None => (Panic, streams)
                              | Some tabletTypes =>
                                  readRefStreams_rows rs source mustCreate rest
                                    (<[refKey := mkRefStream workflow bls cell tabletTypes]> streams)
                                    ref
                              end
                          end
                        else if negb (bool_decide (refKey ∈ ref))
                        then (Err (Errorf "streams are mismatched across source shards for workflow: %s"
                                     [AStr workflow]), streams)
                        else readRefStreams_rows rs source mustCreate rest streams (ref ∖ {[refKey]})
                    end
                end
            end
      end
  end.

(** The part of the closure that runs under [mu]: it reads and writes
    the resharder only. *)
Definition readRefStreams_merge (rs : resharder) (source : ShardInfo)
    (qr : QueryResult) : result unit * resharder :=
  let '(mustCreate, streams, ref) :=
    match refStreams rs with
    | None => (true, ∅, ∅)
    | Some streams => (false, streams, dom streams)
    end in
  let '(r, streams') :=
    readRefStreams_rows rs source mustCreate (Rows qr) streams ref in
  let rs' := set_refStreams (Some streams') rs in
  match r with
  | Panic => (Panic, rs')
  | Err err => (Err err, rs')
  | Ok ref' =>
      if bool_decide (ref' ≠ ∅)
      then (Err (Errorf "streams are mismatched across source shards: %v" [ARef ref']), rs')
      else (Ok tt, rs')
  end.

Definition readRefStreams_locked (source : ShardInfo) (qr : QueryResult) : M state unit :=
  λ st, let '(r, rs') := readRefStreams_merge (st_rs st) source qr in
        (r, set_rs (λ _, rs') st).

(** The closure of [readRefStreams]. Its query runs before [mu] is
    taken; the query touches the world only and the locked part the
    resharder only, so an interleaving of the goroutines acts on the
    resharder as their locked parts do in the order [mu] was taken,
    which is the order of the scheduler. *)
Definition readRefStreams_task (source : ShardInfo) : M state unit :=
  let* st := get in
  match sourcePrimaries (st_rs st) !! si_shardName source with
  | None => panic
  | Some sourcePrimary =>
      let query := readRefStreams_query sourcePrimary in
      let* r := VReplicationExec (ti_Tablet sourcePrimary) query in
      match r with
      | inl err =>
          fail (Wrapf err "VReplicationExec(%v, %s)"
                  [ATablet (ti_Tablet sourcePrimary); AStr query])
      | inr qr => readRefStreams_locked source qr
      end
  end.

Definition readRefStreams (sched : Scheduler) : M state unit :=
  let* st := get in
  forAll sched (sourceShards (st_rs st)) readRefStreams_task.

(** *** buildResharder *)

(** The loop over [sources]. *)
Fixpoint buildResharder_sources (keyspace : string) (sources : list string)
    (rs : resharder) : result resharder :=
  match sources with
  | [] => Ok rs
  | shard :: rest =>
      match GetShard keyspace shard with
      | inl err => Err (Wrapf err "GetShard(%s) failed" [AStr shard])
      | inr si =>
          if negb (IsPrimaryServing si)
          then Err (Errorf "source shard %v is not in serving state" [AStr shard])
          else
            let rs := set_sourceShards (sourceShards rs ++ [si]) rs in
            match ts_GetTablet (PrimaryAlias si) with
            | inl err => Err (Wrapf err "GetTablet(%s) failed" [AAlias (PrimaryAlias si)])
            | inr primary =>
                buildResharder_sources keyspace rest
                  (set_sourcePrimaries (<[si_shardName si := primary]> (sourcePrimaries rs)) rs)
            end
      end
  end.

(** The loop over [targets]. *)
Fixpoint buildResharder_targets (keyspace : string) (targets : list string)
    (rs : resharder) : result resharder :=
  match targets with
  | [] => Ok rs
  | shard :: rest =>
      match GetShard keyspace shard with
      | inl err => Err (Wrapf err "GetShard(%s) failed" [AStr shard])
      | inr si =>
          if IsPrimaryServing si
          then Err (Errorf "target shard %v is in serving state" [AStr shard])
          else
            let rs := set_targetShards (targetShards rs ++ [si]) rs in
            match ts_GetTablet (PrimaryAlias si) with
            | inl err => Err (Wrapf err "GetTablet(%s) failed" [AAlias (PrimaryAlias si)])
            | inr primary =>
                buildResharder_targets keyspace rest
                  (set_targetPrimaries (<[si_shardName si := primary]> (targetPrimaries rs)) rs)
            end
      end
  end.

(** [vterrors.Wrap(err, message)] around a call that returns an error. *)
Definition wrap {A} (c : M state A) (message : string) : M state A :=
  λ st, match c st with
        | (Err err, st') => (Err (Wrapf err message []), st')
        | other => other
        end.

(** The resharder as the composite literal of [buildResharder] leaves
    it. *)
Definition newResharder (keyspace workflow cell tabletTypes : string) : resharder :=
  mkResharder keyspace workflow [] ∅ [] ∅ None None cell tabletTypes false "" false.

(** What follows the two loops. *)
Definition buildResharder_validate (schedTargets schedSources : Scheduler)
    (keyspace : string) : M state resharder :=
  let* st := get in
  match ValidateForReshard (sourceShards (st_rs st)) (targetShards (st_rs st)) with
  | Some err => fail (Wrapf err "ValidateForReshard" [])
  | None =>
      let* _ := wrap (validateTargets schedTargets) "validateTargets" in
      match ts_GetVSchema keyspace with
      | inl err => fail (Wrapf err "GetVSchema" [])
      | inr vschema =>
          let* _ := modify (set_rs (set_vschema (Some vschema))) in
          let* _ := wrap (readRefStreams schedSources) "readRefStreams" in
          let* st := get in
          ret (st_rs st)
      end
  end.

Definition buildResharder (schedTargets schedSources : Scheduler)
    (keyspace workflow : string) (sources targets : list string)
    (cell tabletTypes : string) : M state resharder :=
  let* _ := modify (set_rs (λ _, newResharder keyspace workflow cell tabletTypes)) in
  let* st := get in
  let* rs := lift (buildResharder_sources keyspace sources (st_rs st)) in
  let* rs := lift (buildResharder_targets keyspace targets rs) in
  let* _ := modify (set_rs (λ _, rs)) in
  buildResharder_validate schedTargets schedSources keyspace.

(** *** createStreams *)

(** The loop over [rs.vschema.Tables] that collects [excludeRules]. *)
Fixpoint createStreams_excludeRules (tables : list (string * Table))
    (excludeRules : list Rule) : list Rule :=
  match tables with
  | [] => excludeRules
  | (tableName, table) :: rest =>
      if bool_decide (table_Type table = TypeReference)
      then createStreams_excludeRules rest (excludeRules ++ [mkRule tableName "exclude"])
      else createStreams_excludeRules rest excludeRules
  end.

(** The loop over [rs.sourceShards] in the closure. *)
Fixpoint createStreams_sources (rs : resharder) (target : ShardInfo)
    (copyExcludeRules : list Rule) (sources : list ShardInfo)
    (ig : InsertGenerator) : InsertGenerator :=
  match sources with
  | [] => ig
  | source :: rest =>
      if negb (KeyRangeIntersect (ShardKeyRange target) (ShardKeyRange source))
      then createStreams_sources rs target copyExcludeRules rest ig
      else
        let filter :=
          mkFilter (copyExcludeRules
                      ++ [mkRule "/.*" (KeyRangeString (ShardKeyRange target))]) in
        let bls :=
          mkBinlogSource (keyspace rs) (si_shardName source) (Some filter)
            (stopAfterCopy rs) (OnDDLAction_value (onDDL rs)) in
        createStreams_sources rs target copyExcludeRules rest
          (AddRow ig (workflow rs) bls "" (cell rs) (tabletTypes rs)
             VReplicationWorkflowType_Reshard VReplicationWorkflowSubType_None
             (deferSecondaryKeys rs))
  end.

(** The loop over [rs.refStreams] in the closure. *)
Fixpoint createStreams_refStreams (rs : resharder)
    (streams : list (string * refStream)) (ig : InsertGenerator) : InsertGenerator :=
  match streams with
  | [] => ig
  | (_, rstream) :: rest =>
      createStreams_refStreams rs rest
        (AddRow ig (ref_workflow rstream) (ref_bls rstream) ""
           (ref_cell rstream) (ref_tabletTypes rstream)
           VReplicationWorkflowType_Reshard VReplicationWorkflowSubType_None
           (deferSecondaryKeys rs))
  end.

(** A [range] over [rs.refStreams]; a nil map has no entries. *)
Definition range_refStreams (range : MapRange refStream) (rs : resharder)
    : list (string * refStream) :=
  match refStreams rs with
  | None => []
  | Some streams => range streams
  end.

(** The insert generator a target's closure has filled when it renders
    the statement. [copyExcludeRules] is a copy of the shared
    [excludeRules]: the same rules. *)
Definition createStreams_generator (range : MapRange refStream) (rs : resharder)
    (excludeRules : list Rule) (target : ShardInfo) (targetPrimary : TabletInfo)
    : InsertGenerator :=
  let ig := NewInsertGenerator VReplicationWorkflowState_Stopped (DbName targetPrimary) in
  let copyExcludeRules := [] ++ excludeRules in
  let ig := createStreams_sources rs target copyExcludeRules (sourceShards rs) ig in
  createStreams_refStreams rs (range_refStreams range rs) ig.

Definition createStreams_task (rangeRefs : ShardInfo → MapRange refStream)
    (excludeRules : list Rule) (target : ShardInfo) : M state unit :=
  let* st := get in
  match targetPrimaries (st_rs st) !! si_shardName target with
  | None => panic
  | Some targetPrimary =>
      let ig := createStreams_generator (rangeRefs target) (st_rs st)
                  excludeRules target targetPrimary in
      let query := InsertGenerator_String ig in
      let* r := VReplicationExec (ti_Tablet targetPrimary) query in
      match r with
      | inl err =>
          fail (Wrapf err "VReplicationExec(%v, %s)"
                  [ATablet (ti_Tablet targetPrimary); AStr query])
      | inr _ => ret tt
      end
  end.

Definition createStreams (sched : Scheduler) (rangeTables : MapRange Table)
    (rangeRefs : ShardInfo → MapRange refStream) : M state unit :=
  let* st := get in
  match vschema (st_rs st) with
  | None => panic
  | Some vs =>
      let excludeRules := createStreams_excludeRules (rangeTables (Tables vs)) [] in
      forAll sched (targetShards (st_rs st)) (createStreams_task rangeRefs excludeRules)
  end.

End Resharder.


(** ** createStreams, with the memory behind its slices

    [excludeRules] is a slice that all goroutines of [createStreams]
    share; each goroutine copies it and appends to the copy, once per
    intersecting source, before [AddRow] renders the rules. This second
    embedding keeps the backing arrays in a memory, lets the runtime
    choose the spare capacity of every allocation, and runs the
    goroutines one atomic step at a time in any order. *)

(** A slice header: the backing array, the length and the capacity. *)
Record slice := mkSlice {
  s_array : nat;
  s_len : nat;
  s_cap : nat;
}.

(** The backing arrays by address, and the next free address. *)
Record memory := mkMemory {
  arrays : gmap nat (list Rule);
  next : nat;
}.

Definition nil_slice : slice := mkSlice 0 0 0.

(** The zero value in the unused part of a backing array. *)
Definition no_rule : Rule := mkRule "" "".

Section Slices.
(** The spare capacity the runtime gives to the array it allocates at
    an address for a number of elements. *)
Variable spare : nat → nat → nat.

(** [s[0:len(s)]] *)
Definition elements_of (s : slice) (mem : memory) : list Rule :=
  take (s_len s) (default [] (arrays mem !! s_array s)).

Definition allocate (contents : list Rule) (mem : memory) : slice * memory :=
  let extra := spare (next mem) (length contents) in
  (mkSlice (next mem) (length contents) (length contents + extra),
   mkMemory (<[next mem := contents ++ replicate extra no_rule]> (arrays mem))
     (S (next mem))).

(** [append(s, x)]: in place when the capacity allows, else into a new
    array. *)
Definition slice_append (s : slice) (x : Rule) (mem : memory) : slice * memory :=
  if decide (s_len s < s_cap s)
  then (mkSlice (s_array s) (S (s_len s)) (s_cap s),
        mkMemory (alter (λ array, <[s_len s := x]> array) (s_array s) (arrays mem))
          (next mem))
  else allocate (elements_of s mem ++ [x]) mem.

(** [append([]*binlogdatapb.Rule(nil), s...)]: nil when [s] is empty,
    else a new array with the elements of [s]. *)
Definition slice_copy (s : slice) (mem : memory) : slice * memory :=
  if decide (s_len s = 0) then (nil_slice, mem)
  else allocate (elements_of s mem) mem.

(** The loop over [rs.vschema.Tables] that builds [excludeRules],
    starting from the nil slice. *)
Fixpoint excludeRules_slice (tables : list (string * Table))
    (excludeRules : slice) (mem : memory) : slice * memory :=
  match tables with
  | [] => (excludeRules, mem)
  | (tableName, table) :: rest =>
      if bool_decide (table_Type table = TypeReference)
      then
        let '(excludeRules, mem) :=
          slice_append excludeRules (mkRule tableName "exclude") mem in
        excludeRules_slice rest excludeRules mem
      else excludeRules_slice rest excludeRules mem
  end.

Context `{Collaborators}.

(** Where a goroutine of [createStreams] stands: before the copy, at
    the head of the loop over the sources, between the [append] and the
    [AddRow] of one source, or at the call that sends the statement. *)
Inductive goroutine : Type :=
| AtCopy
| AtLoop (copyExcludeRules : slice) (sources : list ShardInfo) (ig : InsertGenerator)
| AtAddRow (copyExcludeRules rules : slice) (source : ShardInfo)
    (sources : list ShardInfo) (ig : InsertGenerator)
| AtExec (ig : InsertGenerator).

(** One atomic step of the goroutine of [target]. *)
Definition goroutine_step (range : MapRange refStream) (rs : resharder)
    (excludeRules : slice) (target : ShardInfo) (targetPrimary : TabletInfo)
    (g : goroutine) (mem : memory) : goroutine * memory :=
  match g with
  | AtCopy =>
      let ig := NewInsertGenerator VReplicationWorkflowState_Stopped
                  (DbName targetPrimary) in
      let '(copyExcludeRules, mem) := slice_copy excludeRules mem in
      (AtLoop copyExcludeRules (sourceShards rs) ig, mem)
  | AtLoop copyExcludeRules [] ig =>
      (AtExec (createStreams_refStreams rs (range_refStreams range rs) ig), mem)
  | AtLoop copyExcludeRules (source :: sources) ig =>
      if negb (KeyRangeIntersect (ShardKeyRange target) (ShardKeyRange source))
      then (AtLoop copyExcludeRules sources ig, mem)
      else
        let '(rules, mem) :=
          slice_append copyExcludeRules
            (mkRule "/.*" (KeyRangeString (ShardKeyRange target))) mem in
        (AtAddRow copyExcludeRules rules source sources ig, mem)
  | AtAddRow copyExcludeRules rules source sources ig =>
      let filter := mkFilter (elements_of rules mem) in
      let bls :=
        mkBinlogSource (keyspace rs) (si_shardName source) (Some filter)
          (stopAfterCopy rs) (OnDDLAction_value (onDDL rs)) in
      (AtLoop copyExcludeRules sources
         (AddRow ig (workflow rs) bls "" (cell rs) (tabletTypes rs)
            VReplicationWorkflowType_Reshard VReplicationWorkflowSubType_None
            (deferSecondaryKeys rs)),
       mem)
  | AtExec ig => (AtExec ig, mem)
  end.

(** The step of the goroutine of each target. *)
Definition createStreams_step (ranges : ShardInfo → MapRange refStream)
    (rs : resharder) (excludeRules : slice)
    : ShardInfo → TabletInfo → goroutine → memory → goroutine * memory :=
  λ target targetPrimary,
    goroutine_step (ranges target) rs excludeRules target targetPrimary.

(** The goroutines of the targets and the memory they share; the
    goroutine at an index takes a step. *)
Definition step_at
    (step : ShardInfo → TabletInfo → goroutine → memory → goroutine * memory)
    (targets : list (ShardInfo * TabletInfo)) (i : nat)
    (cfg : memory * list goroutine) : memory * list goroutine :=
  match targets !! i, cfg.2 !! i with
  | Some (target, targetPrimary), Some g =>
      let '(g', mem') := step target targetPrimary g cfg.1 in
      (mem', <[i := g']> cfg.2)
  | _, _ => cfg
  end.

(** A schedule names, step by step, the goroutine that runs. *)
Definition interleave
    (step : ShardInfo → TabletInfo → goroutine → memory → goroutine * memory)
    (targets : list (ShardInfo * TabletInfo))
    (schedule : list nat) (cfg : memory * list goroutine) : memory * list goroutine :=
  foldl (λ cfg i, step_at step targets i cfg) cfg schedule.

(** [createStreams] up to the statements: [excludeRules] is built in
    an empty memory, then the goroutines of the targets run as the
    schedule says. *)
Definition createStreams_interleaved (rangeTables : MapRange Table)
    (ranges : ShardInfo → MapRange refStream) (rs : resharder) (vs : Keyspace)
    (targets : list (ShardInfo * TabletInfo)) (schedule : list nat)
    : memory * list goroutine :=
  let '(excludeRules, mem) :=
    excludeRules_slice (rangeTables (Tables vs)) nil_slice (mkMemory ∅ 0) in
  interleave (createStreams_step ranges rs excludeRules) targets schedule
    (mem, replicate (length targets) AtCopy).

End Slices.
(** * Auxiliary definitions for the statements *)

(** ** Outcomes of a fan-out *)

(** The errors among a list of outcomes, in order. *)
Definition errors_of (outcomes : list (result unit)) : list error :=
  omap (λ r, match r with Err e => Some e | _ => None end) outcomes.

(** The body [f], instrumented: every invocation is appended, with the
    shard it ran for and its outcome, to a list of calls kept next to
    the state. *)
Definition traced {S : Type} (f : ShardInfo → M S unit)
    : ShardInfo → M (S * list (ShardInfo * result unit)) unit :=
  λ shard '(st, calls),
    let '(r, st') := f shard st in (r, (st', calls ++ [(shard, r)])).

Definition failed (call : ShardInfo * result unit) : Prop := is_nil call.2 = false.

(** ** The classifier as the specification words it *)

Inductive classification : Type :=
| sharded
| reference
| InvalidMix
| UnknownTable (name : string).

Section SpecClassifier.
Context `{Collaborators}.

(** Per rule: look the [match] string up in the vschema's tables. If
    present and of type reference the rule is reference, otherwise
    sharded. If absent and not an internal-operation table name, fail
    with UnknownTable; internal-operation tables are sharded. *)
Definition classify_rule (V : Keyspace) (name : string) : classification :=
  match Tables V !! name with
  | Some table =>
      if bool_decide (table_Type table = TypeReference) then reference else sharded
  | None =>
      if IsInternalOperationTableName name then sharded else UnknownTable name
  end.

(** Aggregate: scan the rules in order; adopt the first classification;
    a later rule that contradicts it fails with InvalidMix. A stream
    with no rules classifies as sharded. *)
Fixpoint classify_scan (V : Keyspace) (adopted : option classification)
    (rules : list Rule) : classification :=
  match rules with
  | [] => default sharded adopted
  | rule :: rest =>
      match classify_rule V (rule_Match rule), adopted with
      | UnknownTable name, _ => UnknownTable name
      | InvalidMix, _ => InvalidMix
      | sharded, Some reference => InvalidMix
      | reference, Some sharded => InvalidMix
      | c, _ => classify_scan V (Some c) rest
      end
  end.

Definition classify (V : Keyspace) (rules : list Rule) : classification :=
  classify_scan V None rules.

(** The local [streamType] of [blsIsReference] as the classification
    adopted so far. *)
Definition adopted_of (streamType : StreamType) : option classification :=
  match streamType with
  | StreamTypeUnknown => None
  | StreamTypeSharded => Some sharded
  | StreamTypeReference => Some reference
  end.

(** What [blsIsReference] returns for a classification. *)
Definition classified (bls : BinlogSource) (c : classification) : result bool :=
  match c with
  | sharded => Ok false
  | reference => Ok true
  | InvalidMix =>
      Err (Errorf "cannot reshard streams with a mix of reference and sharded tables: %v" [ABls bls])
  | UnknownTable name =>
      Err (Errorf "table %v not found in vschema" [AStr name])
  end.

End SpecClassifier.

(** ** Answers of the tablets *)

Section Answers.
Context `{Collaborators}.

Definition streams_exist : error :=
  Errorf "some streams already exist in the target shards, please clean them up and retry the command" [].



(** A statement that only reads. *)
Definition is_select (query : string) : bool := String.prefix "select " query.

(** From [st] to [st'] statements were issued, all of them reads, and
    what [catalog] observes of the world did not change. *)
Definition reads_only {C : Type} (catalog : World → C) (st st' : state) : Prop :=
  ∃ issued,
    st_log st' = st_log st ++ issued
    ∧ Forall (λ call : Tablet * string, is_select call.2 = true) issued
    ∧ catalog (st_world st') = catalog (st_world st).

End Answers.

(** ** What a built resharder records *)

Section Recorded.
Context `{Collaborators}.

(** Every entry of a map of primaries is the primary tablet of the
    shard it is filed under. *)
Definition primaries_of (keyspace : string) (primaries : gmap string TabletInfo) : Prop :=
  ∀ name primary, primaries !! name = Some primary →
    ∃ shard, ts_GetShard keyspace name = inr shard
             ∧ ts_GetTablet (shard_PrimaryAlias shard) = inr primary.

(** [shards] are the shards named [names], in order, each with its
    primary tablet filed under its name. *)
Definition shards_recorded (keyspace : string) (names : list string)
    (shards : list ShardInfo) (primaries : gmap string TabletInfo) : Prop :=
  Forall2 (λ name si, GetShard keyspace name = inr si) names shards
  ∧ ∀ si, si ∈ shards →
      ∃ primary, ts_GetTablet (PrimaryAlias si) = inr primary
                 ∧ primaries !! si_shardName si = Some primary.

Definition recorded (keyspace : string) (sources targets : list string)
    (rs : resharder) : Prop :=
  shards_recorded keyspace sources (sourceShards rs) (sourcePrimaries rs)
  ∧ shards_recorded keyspace targets (targetShards rs) (targetPrimaries rs)
  ∧ Forall (λ si, IsPrimaryServing si = true) (sourceShards rs)
  ∧ Forall (λ si, IsPrimaryServing si = false) (targetShards rs).


(** The shards and primaries a resharder holds. *)
Definition shards_of (rs : resharder)
    : list ShardInfo * gmap string TabletInfo * list ShardInfo * gmap string TabletInfo :=
  (sourceShards rs, sourcePrimaries rs, targetShards rs, targetPrimaries rs).

(** Two resharders that differ at most in [refStreams]. *)
Definition agree (rs rs' : resharder) : Prop :=
  set_refStreams None rs = set_refStreams None rs'.

End Recorded.

(** ** The rows of a target's insert *)

Section Rows.
Context `{Collaborators}.

(** The target's key range intersects the source's. *)
Definition intersects (target source : ShardInfo) : Prop :=
  KeyRangeIntersect (ShardKeyRange target) (ShardKeyRange source) = true.

(** The last rule of a sharded stream into [target]. *)
Definition key_range_rule (target : ShardInfo) : Rule :=
  mkRule "/.*" (KeyRangeString (ShardKeyRange target)).

(** The row of the sharded stream from [source] into [target]. *)
Definition sharded_row (rs : resharder) (target : ShardInfo)
    (excludeRules : list Rule) (source : ShardInfo) : InsertRow :=
  mkInsertRow (workflow rs)
    (mkBinlogSource (keyspace rs) (si_shardName source)
       (Some (mkFilter (excludeRules ++ [key_range_rule target])))
       (stopAfterCopy rs) (OnDDLAction_value (onDDL rs)))
    "" (cell rs) (tabletTypes rs)
    VReplicationWorkflowType_Reshard VReplicationWorkflowSubType_None
    (deferSecondaryKeys rs).

(** The row that carries a reference stream over. *)
Definition ref_row (rs : resharder) (rstream : refStream) : InsertRow :=
  mkInsertRow (ref_workflow rstream) (ref_bls rstream) ""
    (ref_cell rstream) (ref_tabletTypes rstream)
    VReplicationWorkflowType_Reshard VReplicationWorkflowSubType_None
    (deferSecondaryKeys rs).


Definition exclude_rule (tableName : string) : Rule := mkRule tableName "exclude".

Definition is_reference_table (entry : string * Table) : Prop :=
  table_Type entry.2 = TypeReference.

#[global] Instance intersects_dec target source : Decision (intersects target source).
Proof. unfold intersects. apply _. Defined.

#[global] Instance is_reference_table_dec entry : Decision (is_reference_table entry).
Proof. unfold is_reference_table. apply _. Defined.

End Rows.

(** ** The reference streams a source reports *)

Section Reported.
Context `{Collaborators}.

(** The workflow and [refKey] of a row that [readRefStreams] takes for
    a reference stream: it has a named workflow, its source parses and
    classifies as reference. *)
Definition ref_key (rs : resharder) (row : list string) : option (string * string) :=
  match row !! 0%nat, row !! 1%nat with
  | Some workflow, Some rowBytes =>
      if bool_decide (workflow = "") then None
      else
        match prototext_Unmarshal rowBytes with
        | inr bls =>
            match blsIsReference rs bls with
            | Ok true => Some (workflow, refKey workflow bls)
            | _ => None
            end
        | inl _ => None
        end
  | _, _ => None
  end.

(** The entry of [rs.refStreams] such a row stands for. *)
Definition ref_entry (rs : resharder) (row : list string) : option (string * refStream) :=
  match row !! 0%nat, row !! 1%nat, row !! 2%nat, row !! 3%nat with
  | Some workflow, Some rowBytes, Some cell, Some tabletTypes =>
      if bool_decide (workflow = "") then None
      else
        match prototext_Unmarshal rowBytes with
        | inr bls =>
            match blsIsReference rs bls with
            | Ok true => Some (refKey workflow bls, mkRefStream workflow bls cell tabletTypes)
            | _ => None
            end
        | inl _ => None
        end
  | _, _, _, _ => None
  end.

(** The [refKey]s a result set reports, row by row, and as a set. *)
Definition ref_keys (rs : resharder) (rows : list (list string)) : list string :=
  (omap (ref_key rs) rows).*2.

Definition reported (rs : resharder) (rows : list (list string)) : gset string :=
  list_to_set (ref_keys rs rows).

(** A row the loop gets through: the four selected columns, a named
    workflow, a source that parses and that the classifier accepts. *)
Definition row_ok (rs : resharder) (row : list string) : Prop :=
  ∃ workflow rowBytes cell tabletTypes bls isReference,
    row = workflow :: rowBytes :: cell :: tabletTypes :: drop 4 row
    ∧ workflow ≠ ""
    ∧ prototext_Unmarshal rowBytes = inr bls
    ∧ blsIsReference rs bls = Ok isReference.

(** Writing entries into [rs.refStreams] in order: a later entry
    overwrites an earlier one with the same key. *)
Definition write_all (streams : gmap string refStream)
    (entries : list (string * refStream)) : gmap string refStream :=
  foldl (λ m entry, <[entry.1 := entry.2]> m) streams entries.

(** Comparing reported keys with [ref], in order: a key must be in
    [ref] and is taken out of it. *)
Fixpoint consume (keys : list (string * string)) (ref : gset string)
    : result (gset string) :=
  match keys with
  | [] => Ok ref
  | (workflow, key) :: rest =>
      if bool_decide (key ∈ ref) then consume rest (ref ∖ {[key]})
      else Err (Errorf "streams are mismatched across source shards for workflow: %s"
                  [AStr workflow])
  end.

(** The error of a reported key that [ref] does not hold. *)
Definition mismatch_for (workflow : string) : error :=
  Errorf "streams are mismatched across source shards for workflow: %s" [AStr workflow].

(** The two errors that start "streams are mismatched across source
    shards". *)
Definition is_mismatch (err : error) : bool :=
  match err with
  | Errorf format _ => String.prefix "streams are mismatched across source shards" format
  | _ => false
  end.

(** [answer] is what the enumerating query returns for each source of
    the resharder: every source has its primary recorded, and in the
    world [w] the primary answers the query with the rows
    [answer source] and, the query being a read, leaves the world as it
    is. *)
Definition enumerated (rs : resharder) (w : World)
    (answer : ShardInfo → QueryResult) : Prop :=
  ∀ source, source ∈ sourceShards rs →
    ∃ sourcePrimary,
      sourcePrimaries rs !! si_shardName source = Some sourcePrimary
      ∧ tmc_VReplicationExec (ti_Tablet sourcePrimary)
          (readRefStreams_query sourcePrimary) w = (inr (answer source), w).

End Reported.

(** ** Slices in memory *)

(** A slice whose backing array, if it has any capacity, is allocated
    and as long as the capacity. *)
Definition slice_wf (s : slice) (mem : memory) : Prop :=
  s_len s ≤ s_cap s
  ∧ (s_cap s ≠ 0 →
       s_array s < next mem
       ∧ ∃ array, arrays mem !! s_array s = Some array ∧ length array = s_cap s).

(** The backing array a slice occupies, if it has any capacity. *)
Definition array_of (s : slice) : list nat :=
  if decide (s_cap s = 0) then [] else [s_array s].

(** The backing arrays a goroutine appends to or reads from. *)
Definition owned (g : goroutine) : list nat :=
  match g with
  | AtLoop copyExcludeRules _ _ => array_of copyExcludeRules
  | AtAddRow copyExcludeRules rules _ _ _ => array_of copyExcludeRules ++ array_of rules
  | _ => []
  end.

(** The steps a goroutine has left, at most. *)
Definition steps_left `{Collaborators} (rs : resharder) (g : goroutine) : nat :=
  match g with
  | AtCopy => 2 * length (sourceShards rs) + 2
  | AtLoop _ sources _ => 2 * length sources + 1
  | AtAddRow _ _ _ sources _ => 2 * length sources + 2
  | AtExec _ => 0
  end.

(** How often a goroutine is scheduled. *)
Definition scheduled (i : nat) (schedule : list nat) : nat :=
  length (filter (λ j, j = i) schedule).

Section GoroutineInvariant.
Context `{Collaborators}.

(** The closure without its copy: it appends to the shared
    [excludeRules] itself. Not what the code does; what its comment
    says the copy is there to prevent. *)
Definition sharing_step (spare : nat → nat → nat)
    (ranges : ShardInfo → MapRange refStream) (rs : resharder) (excludeRules : slice)
    : ShardInfo → TabletInfo → goroutine → memory → goroutine * memory :=
  λ target targetPrimary g mem,
    match g with
    | AtCopy =>
        (AtLoop excludeRules (sourceShards rs)
           (NewInsertGenerator VReplicationWorkflowState_Stopped (DbName targetPrimary)),
         mem)
    | _ => createStreams_step spare ranges rs excludeRules target targetPrimary g mem
    end.

(** What holds of a goroutine of [createStreams] wherever it stands:
    its copy of the exclude rules reads [excludeRules]; between
    [append] and [AddRow] the appended slice reads [excludeRules]
    followed by the target's key-range rule; its generator holds the
    rows of the sources it is through with. *)
Definition goroutine_inv (range : MapRange refStream) (rs : resharder)
    (excludeRules : list Rule) (target : ShardInfo) (targetPrimary : TabletInfo)
    (g : goroutine) (mem : memory) : Prop :=
  let ig0 := NewInsertGenerator VReplicationWorkflowState_Stopped (DbName targetPrimary) in
  match g with
  | AtCopy => True
  | AtLoop copyExcludeRules sources ig =>
      slice_wf copyExcludeRules mem
      ∧ elements_of copyExcludeRules mem = excludeRules
      ∧ ∃ processed,
          sourceShards rs = processed ++ sources
          ∧ ig = createStreams_sources rs target excludeRules processed ig0
  | AtAddRow copyExcludeRules rules source sources ig =>
      slice_wf copyExcludeRules mem
      ∧ elements_of copyExcludeRules mem = excludeRules
      ∧ slice_wf rules mem
      ∧ s_cap rules ≠ 0
      ∧ elements_of rules mem = excludeRules ++ [key_range_rule target]
      ∧ intersects target source
      ∧ ∃ processed,
          sourceShards rs = processed ++ source :: sources
          ∧ ig = createStreams_sources rs target excludeRules processed ig0
  | AtExec ig =>
      ig = createStreams_generator range rs excludeRules target targetPrimary
  end.

(** What holds of the goroutines together: each satisfies its
    invariant; the arrays they own were allocated after
    [excludeRules] was built and no two goroutines own the same one;
    the arrays allocated before are as they were. *)
Definition config_inv (ranges : ShardInfo → MapRange refStream) (rs : resharder)
    (excludeRules : list Rule) (mem0 : memory)
    (targets : list (ShardInfo * TabletInfo))
    (cfg : memory * list goroutine) : Prop :=
  length cfg.2 = length targets
  ∧ next mem0 ≤ next cfg.1
  ∧ (∀ a, a < next mem0 → arrays cfg.1 !! a = arrays mem0 !! a)
  ∧ (∀ i g target targetPrimary,
       cfg.2 !! i = Some g → targets !! i = Some (target, targetPrimary) →
       goroutine_inv (ranges target) rs excludeRules target targetPrimary g cfg.1
       ∧ Forall (λ a, next mem0 ≤ a < next cfg.1) (owned g))
  ∧ (∀ i j g g' a, i ≠ j → cfg.2 !! i = Some g → cfg.2 !! j = Some g' →
       a ∈ owned g → a ∉ owned g').

End GoroutineInvariant.

(** ** A concrete cluster

    One instance of the collaborators, used to run the embedding on
    concrete inputs: a keyspace [ks] with the serving shards [-80] and
    [80-], the non-serving shards [-40], [40-80], [80-c0] and [c0-], a
    reference table [country] and a sharded table [user]. The world maps
    a shard name to the rows of its primary's catalog. *)
Module Fixture.

Definition country_bls : BinlogSource :=
  mkBinlogSource "ks" "-" (Some (mkFilter [mkRule "country" ""])) false 0.
Definition user_bls : BinlogSource :=
  mkBinlogSource "ks" "-80" (Some (mkFilter [mkRule "user" "-80"])) false 0.
Definition mixed_bls : BinlogSource :=
  mkBinlogSource "ks" "-"
    (Some (mkFilter [mkRule "country" ""; mkRule "user" ""])) false 0.
Definition bare_bls : BinlogSource :=
  mkBinlogSource "ks" "0" None false 0.

Definition unmarshal (text : string) : error + BinlogSource :=
  if String.eqb text "country" then inr country_bls
  else if String.eqb text "user" then inr user_bls
  else if String.eqb text "mixed" then inr mixed_bls
  else if String.eqb text "bare" then inr bare_bls
  else inl (Errorf "proto: syntax error" []).

Definition key_range (name : string) : option KeyRange :=
  if String.eqb name "-80" then Some (mkKeyRange "" "80")
  else if String.eqb name "80-" then Some (mkKeyRange "80" "")
  else if String.eqb name "-40" then Some (mkKeyRange "" "40")
  else if String.eqb name "40-80" then Some (mkKeyRange "40" "80")
  else if String.eqb name "80-c0" then Some (mkKeyRange "80" "c0")
  else if String.eqb name "c0-" then Some (mkKeyRange "c0" "")
  else None.

Definition uid_of (name : string) : N :=
  if String.eqb name "-80" then 100
  else if String.eqb name "80-" then 101
  else if String.eqb name "-40" then 200
  else if String.eqb name "40-80" then 201
  else if String.eqb name "80-c0" then 202
  else if String.eqb name "c0-" then 203
  else if String.eqb name "down" then 299
  else 0.

Definition name_of (uid : N) : string :=
  if (uid =? 100)%N then "-80"
  else if (uid =? 101)%N then "80-"
  else if (uid =? 200)%N then "-40"
  else if (uid =? 201)%N then "40-80"
  else if (uid =? 202)%N then "80-c0"
  else if (uid =? 203)%N then "c0-"
  else if (uid =? 299)%N then "down"
  else "".

Definition get_shard (keyspace shard : string) : error + Shard :=
  if negb (String.eqb keyspace "ks") then inl (Errorf "node doesn't exist" [])
  else if (uid_of shard =? 0)%N then inl (Errorf "node doesn't exist" [])
  else inr (mkShard (String.eqb shard "-80" || String.eqb shard "80-")
              (Some (mkTabletAlias "zone1" (uid_of shard))) (key_range shard)).

Definition get_tablet (alias : option TabletAlias) : error + TabletInfo :=
  match alias with
  | None => inl (Errorf "no primary" [])
  | Some a =>
      if String.eqb (name_of (alias_Uid a)) "" then inl (Errorf "node doesn't exist" [])
      else inr (mkTabletInfo (mkTablet alias "ks" (name_of (alias_Uid a)) ""))
  end.

Definition the_vschema : Keyspace :=
  mkKeyspace (<["country" := mkTable "reference"]> (<["user" := mkTable ""]> ∅)).

Definition get_vschema (keyspace : string) : error + Keyspace :=
  if String.eqb keyspace "ks" then inr the_vschema
  else inl (Errorf "node doesn't exist" []).

(** The tablet of shard [down] is unreachable. A select reads the
    catalog, an insert appends the statement to it as one row. *)
Definition exec (tablet : Tablet) (query : string) (w : gmap string (list (list string)))
    : (error + QueryResult) * gmap string (list (list string)) :=
  if String.eqb (tablet_Shard tablet) "down" then (inl (Errorf "rpc: unavailable" []), w)
  else
    let catalog := default [] (w !! tablet_Shard tablet) in
    if String.prefix "select 1 " query
    then (inr (mkQueryResult ((λ _, ["1"]) <$> catalog)), w)
    else if String.prefix "select " query
    then (inr (mkQueryResult catalog), w)
    else if String.prefix "insert " query
    then (inr (mkQueryResult []),
          <[tablet_Shard tablet := catalog ++ [ [query; ""; ""; ""] ]]> w)
    else (inr (mkQueryResult []), w).

Definition intersect (a b : option KeyRange) : bool :=
  match a, b with
  | Some a, Some b =>
      (String.eqb (kr_End a) "" || String.ltb (kr_Start b) (kr_End a))
      && (String.eqb (kr_End b) "" || String.ltb (kr_Start a) (kr_End b))
  | _, _ => true
  end.

Definition key_range_string (kr : option KeyRange) : string :=
  match kr with
  | None => "-"
  | Some kr => kr_Start kr +:+ "-" +:+ kr_End kr
  end.

Definition render (ig : InsertGenerator) : string :=
  "insert into _vt.vreplication(workflow, source, pos, cell, tablet_types, workflow_type, workflow_sub_type, defer_secondary_keys, state, db_name) values "
    +:+ String.concat ", " (row_workflow <$> ig_rows ig).

#[export] Instance cluster : Collaborators := {|
  World := gmap string (list (list string));
  ts_GetShard := get_shard;
  ts_GetTablet := get_tablet;
  ts_GetVSchema := get_vschema;
  tmc_VReplicationExec := exec;
  ValidateForReshard := λ _ _, None;
  IsInternalOperationTableName := λ name, String.prefix "_vt_" name;
  KeyRangeIntersect := intersect;
  KeyRangeString := key_range_string;
  encodeString := λ s, "'" +:+ s +:+ "'";
  DbName := λ ti, "vt_" +:+ tablet_Keyspace (ti_Tablet ti);
  prototext_Unmarshal := unmarshal;
  OnDDLAction_value := λ _, 0%Z;
  InsertGenerator_String := render;
|}.

(** Goroutines in the order they were started, and in the opposite
    order. *)
Definition fifo : Scheduler := mkScheduler (λ shards, shards) (λ shards, reflexivity shards).
Definition lifo : Scheduler := mkScheduler reverse reverse_Permutation.

(** A [range] that visits the entries in the order of [map_to_list]. *)
Definition in_order {V} : MapRange V :=
  mkMapRange V map_to_list (λ m, reflexivity (map_to_list m)).

Definition the_shard (name : string) : ShardInfo :=
  mkShardInfo "ks" name
    (mkShard (String.eqb name "-80" || String.eqb name "80-")
       (Some (mkTabletAlias "zone1" (uid_of name))) (key_range name)).

Definition the_primary (name : string) : TabletInfo :=
  mkTabletInfo (mkTablet (Some (mkTabletAlias "zone1" (uid_of name))) "ks" name "").

Definition primaries (names : list string) : gmap string TabletInfo :=
  list_to_map ((λ name, (name, the_primary name)) <$> names).

(** A resharder from [sources] to [targets], as the build leaves it
    before the reference streams are read. *)
Definition a_resharder (sources targets : list string) : resharder :=
  mkResharder "ks" "reshard1" (the_shard <$> sources) (primaries sources)
    (the_shard <$> targets) (primaries targets) (Some the_vschema) None
    "zone1" "primary" false "" false.

Definition a_state (rs : resharder) (w : gmap string (list (list string))) : state :=
  mkState rs w [].

(** Every source holds the reference stream [country_ref] and a
    sharded stream. *)
Definition catalogs : gmap string (list (list string)) :=
  <["-80" := [ ["country_ref"; "country"; "zone1"; "replica"];
              ["resh0"; "user"; "zone1"; "replica"] ] ]>
  (<["80-" := [ ["resh0"; "user"; "zone1"; "replica"];
               ["country_ref"; "country"; "zone2"; "rdonly"] ] ]> ∅).



(** Two targets with empty catalogs, one of them unreachable. *)
Definition unreachable_target : state :=
  a_state (a_resharder ["-80"; "80-"] ["-40"; "down"]) catalogs.

(** Source [80-] lacks the reference stream. *)
Definition catalogs_missing : gmap string (list (list string)) :=
  <["-80" := [ ["country_ref"; "country"; "zone1"; "replica"] ] ]>
  (<["80-" := [ ["resh0"; "user"; "zone1"; "replica"] ] ]> ∅).

(** Source [80-] holds the reference stream twice. *)
Definition catalogs_duplicate : gmap string (list (list string)) :=
  <["-80" := [ ["country_ref"; "country"; "zone1"; "replica"] ] ]>
  (<["80-" := [ ["country_ref"; "country"; "zone1"; "replica"];
               ["country_ref"; "country"; "zone2"; "rdonly"] ] ]> ∅).

(** What the primary of [source] answers to the enumerating query in
    the world [w]. *)
Definition answer_of (w : gmap string (list (list string))) (source : ShardInfo)
    : QueryResult :=
  mkQueryResult (default [] (w !! si_shardName source)).

(** A resharder from [-80] and [80-] to [-40] and [40-80], before the
    reference streams are read, in the world [w]. *)
Definition before_reading (w : gmap string (list (list string))) : state :=
  a_state (a_resharder ["-80"; "80-"] ["-40"; "40-80"]) w.

(** A body for the fan-out: it counts its calls in the state and fails
    for the shards that are not serving. *)
Definition check_serving (shard : ShardInfo) : M nat unit :=
  λ calls,
    (if IsPrimaryServing shard then Ok tt
     else Err (Errorf "shard %v is not in serving state" [AStr (si_shardName shard)]),
     S calls).

(** The targets [-40] and [40-80] with their primaries; a runtime that
    gives every array two spare elements. *)
Definition two_targets : list (ShardInfo * TabletInfo) :=
  [(the_shard "-40", the_primary "-40"); (the_shard "40-80", the_primary "40-80")].

Definition two_spare : nat → nat → nat := λ _ _, 2.

End Fixture.

(** * The phases that follow the build

    [copySchema] and [startStreams], the two methods of the resharder
    that run between and after the phases above. *)

(** [time.Second], in nanoseconds as [time.Duration] counts. *)
Definition Second : Z := 1000000000.

(** What the two methods call beyond the collaborators above: the
    comment directive that authorises an update of every row of the
    catalog, and the schema copy of the server,
    [CopySchemaShard(ctx, sourceTabletAlias, tables, excludeTables,
    includeViews, destKeyspace, destShard, waitReplicasTimeout,
    skipVerify)], which acts on the tablets and returns an error or
    nil. *)
Class Primitives `{Collaborators} := {
  (** [vreplication.AllowUnsafeWriteCommentDirective] *)
  AllowUnsafeWriteCommentDirective : string;
  (** [rs.s.CopySchemaShard]; [None] is the nil error *)
  CopySchemaShard : option TabletAlias → list string → list string → bool →
                    string → string → Z → bool → World → option error * World;
}.

Section Phases.
Context `{Primitives}.

(** *** copySchema *)

(** The closure of [copySchema]. A nil slice of excluded tables is the
    empty list. *)
Definition copySchema_task (oneSource : option TabletAlias) (target : ShardInfo)
    : M state unit :=
  λ st,
    let '(r, w) :=
      CopySchemaShard oneSource ["/.*"] [] false (keyspace (st_rs st))
        (si_shardName target) (1 * Second)%Z false (st_world st) in
    (match r with Some err => Err err | None => Ok tt end,
     mkState (st_rs st) w (st_log st)).

(** [rs.sourceShards[0]] is evaluated before the fan-out starts: without
    a source shard the index is out of range. *)
Definition copySchema (sched : Scheduler) : M state unit :=
  let* st := get in
  match sourceShards (st_rs st) !! 0%nat with
  | None => panic
  | Some first =>
      let oneSource := PrimaryAlias first in
      forAll sched (targetShards (st_rs st)) (copySchema_task oneSource)
  end.

(** *** startStreams *)

Definition startStreams_query (targetPrimary : TabletInfo) : string :=
  "update /*vt+ " +:+ AllowUnsafeWriteCommentDirective
    +:+ " */ _vt.vreplication set state='Running' where db_name="
    +:+ encodeString (DbName targetPrimary).

Definition startStreams_task (target : ShardInfo) : M state unit :=
  let* st := get in
  match targetPrimaries (st_rs st) !! si_shardName target with
  | None => panic
  | Some targetPrimary =>
      let query := startStreams_query targetPrimary in
      let* r := VReplicationExec (ti_Tablet targetPrimary) query in
      match r with
      | inl err =>
          fail (Wrapf err "VReplicationExec(%v, %s)"
                  [ATablet (ti_Tablet targetPrimary); AStr query])
      | inr _ => ret tt
      end
  end.

Definition startStreams (sched : Scheduler) : M state unit :=
  let* st := get in
  forAll sched (targetShards (st_rs st)) startStreams_task.

End Phases.

(** * Auxiliary definitions for the statements about the phases *)

Section RpcFanOut.
Context `{Collaborators}.

(** The statements [calls], handed to the tablet manager client one
    after the other: the answers, and the world they leave. *)
Fixpoint exec_all (calls : list (Tablet * string)) (w : World)
    : list (error + QueryResult) * World :=
  match calls with
  | [] => ([], w)
  | call :: rest =>
      let '(answer, w1) := tmc_VReplicationExec call.1 call.2 w in
      let '(answers, w2) := exec_all rest w1 in
      (answer :: answers, w2)
  end.

(** The error a closure returns for a call the client failed. *)
Definition rpc_error (call : Tablet * string) (answer : error + QueryResult)
    : option error :=
  match answer with
  | inl err => Some (Wrapf err "VReplicationExec(%v, %s)" [ATablet call.1; AStr call.2])
  | inr _ => None
  end.

Definition rpc_errors (calls : list (Tablet * string))
    (answers : list (error + QueryResult)) : list error :=
  omap (λ sent : (Tablet * string) * (error + QueryResult), rpc_error sent.1 sent.2)
    (zip calls answers).

Definition succeeded (answer : error + QueryResult) : Prop :=
  match answer with inl _ => False | inr _ => True end.

(** A closure that sends the primary of its target one statement and
    returns the client's error, wrapped: the shape the closures of
    [createStreams] and [startStreams] share. *)
Definition rpc_task (query : resharder → ShardInfo → TabletInfo → string)
    (target : ShardInfo) : M state unit :=
  let* st := get in
  match targetPrimaries (st_rs st) !! si_shardName target with
  | None => panic
  | Some targetPrimary =>
      let query := query (st_rs st) target targetPrimary in
      let* r := VReplicationExec (ti_Tablet targetPrimary) query in
      match r with
      | inl err =>
          fail (Wrapf err "VReplicationExec(%v, %s)"
                  [ATablet (ti_Tablet targetPrimary); AStr query])
      | inr _ => ret tt
      end
  end.

(** The statement for each of [targets], addressed to the tablet of the
    primary recorded for it. *)
Definition statements (query : resharder → ShardInfo → TabletInfo → string)
    (rs : resharder) (targets : list ShardInfo) : list (Tablet * string) :=
  omap (λ target,
          (λ targetPrimary, (ti_Tablet targetPrimary, query rs target targetPrimary))
            <$> targetPrimaries rs !! si_shardName target)
       targets.

(** Every target shard of the resharder has a primary recorded under
    its name. *)
Definition primaries_recorded (rs : resharder) : Prop :=
  ∀ target, target ∈ targetShards rs →
    is_Some (targetPrimaries rs !! si_shardName target).

(** The statement [createStreams] sends the primary of [target]. *)
Definition createStreams_query (rangeRefs : ShardInfo → MapRange refStream)
    (excludeRules : list Rule) (rs : resharder) (target : ShardInfo)
    (targetPrimary : TabletInfo) : string :=
  InsertGenerator_String
    (createStreams_generator (rangeRefs target) rs excludeRules target targetPrimary).

End RpcFanOut.

Section CopyAll.
Context `{Primitives}.

(** The schema copies into [targets], one after the other, all from the
    tablet [oneSource]: the errors returned, and the world they
    leave. *)
Fixpoint copy_all (oneSource : option TabletAlias) (keyspace : string)
    (targets : list ShardInfo) (w : World) : list error * World :=
  match targets with
  | [] => ([], w)
  | target :: rest =>
      let '(r, w1) :=
        CopySchemaShard oneSource ["/.*"] [] false keyspace
          (si_shardName target) Second false w in
      let '(errs, w2) := copy_all oneSource keyspace rest w1 in
      (match r with Some err => err :: errs | None => errs end, w2)
  end.

End CopyAll.

(** ** Streams and rows *)

Section Streams.
Context `{Collaborators}.

(** The rule names a reference table of the vschema. *)
Definition names_reference (vs : Keyspace) (rule : Rule) : Prop :=
  ∃ table, Tables vs !! rule_Match rule = Some table ∧ table_Type table = TypeReference.

(** The rule names a table of the vschema that is not a reference
    table, or, outside the vschema, a table of an internal operation. *)
Definition names_sharded (vs : Keyspace) (rule : Rule) : Prop :=
  match Tables vs !! rule_Match rule with
  | Some table => table_Type table ≠ TypeReference
  | None => IsInternalOperationTableName (rule_Match rule) = true
  end.

(** The stream with another list of rules in its filter. *)
Definition with_rules (bls : BinlogSource) (rules : list Rule) : BinlogSource :=
  mkBinlogSource (bls_Keyspace bls) (bls_Shard bls) (Some (mkFilter rules))
    (bls_StopAfterCopy bls) (bls_OnDdl bls).

(** A row the loop of [readRefStreams] does not stop at: it names its
    workflow, its source column parses, and the classifier returns a
    verdict for the stream. *)
Definition row_accepted (rs : resharder) (row : list string) : Prop :=
  ∃ workflow rowBytes bls isReference,
    row !! 0%nat = Some workflow
    ∧ workflow ≠ ""
    ∧ row !! 1%nat = Some rowBytes
    ∧ prototext_Unmarshal rowBytes = inr bls
    ∧ blsIsReference rs bls = Ok isReference.

(** A row of a sharded stream: accepted, and not a reference stream. *)
Definition sharded_stream_row (rs : resharder) (row : list string) : bool :=
  match row !! 0%nat, row !! 1%nat with
  | Some workflow, Some rowBytes =>
      negb (bool_decide (workflow = ""))
      && match prototext_Unmarshal rowBytes with
         | inr bls => match blsIsReference rs bls with Ok false => true | _ => false end
         | inl _ => false
         end
  | _, _ => false
  end.

(** Every stream the resharder holds is filed under its own [refKey],
    names its workflow, and is a reference stream for the vschema of
    the resharder. *)
Definition reference_streams_only (rs : resharder) : Prop :=
  ∀ streams key rstream,
    refStreams rs = Some streams → streams !! key = Some rstream →
    key = refKey (ref_workflow rstream) (ref_bls rstream)
    ∧ ref_workflow rstream ≠ ""
    ∧ blsIsReference rs (ref_bls rstream) = Ok true.

(** What the loops of [buildResharder] do not write. *)
Definition options_of (rs : resharder)
    : string * string * option Keyspace * option (gmap string refStream)
      * string * string * bool * string * bool :=
  (keyspace rs, workflow rs, vschema rs, refStreams rs, cell rs, tabletTypes rs,
   stopAfterCopy rs, onDDL rs, deferSecondaryKeys rs).

End Streams.

(** The string holds no colon. *)
Fixpoint colon_free (s : string) : bool :=
  match s with
  | EmptyString => true
  | String c rest => negb (String.eqb (String c "") ":") && colon_free rest
  end.

(** * The action repository of vtctld

    [ActionRepository] and the [ActionResult] it hands back, with the
    constructor of the wrangler every action is run with. *)

(** What the repository is handed or calls and does not define: the
    handles it stores, the context and the request it is called with,
    the cluster the actions act on, and the functions of other
    packages. *)
Class Platform := {
  (** [context.Context] *)
  Ctx : Type;
  (** [*http.Request] *)
  Request : Type;
  (** [*topo.Server], [*collations.Environment], [*sqlparser.Parser] *)
  TopoServer : Type;
  CollationEnv : Type;
  Parser : Type;
  (** [logutil.Logger], [tmclient.TabletManagerClient],
      [vtctlservicepb.VtctldServer] *)
  Logger : Type;
  TabletManagerClient : Type;
  VtctldServer : Type;
  (** what an action reads and writes *)
  Cluster : Type;
  (** the context [context.WithTimeout(ctx, d)] returns *)
  context_WithTimeout : Ctx → Z → Ctx;
  (** [logutil.NewConsoleLogger()], [tmclient.NewTabletManagerClient()] *)
  NewConsoleLogger : Logger;
  NewTabletManagerClient : TabletManagerClient;
  (** [grpcvtctldserver.NewVtctldServer] *)
  NewVtctldServer : TopoServer → CollationEnv → Parser → VtctldServer;
  (** [acl.CheckAccessHTTP]; [None] is the nil error *)
  CheckAccessHTTP : Request → string → option error;
  (** the method [Error] of an error *)
  error_Error : error → string;
  (** [strings.ToLower] *)
  ToLower : string → string;
  (** [topoproto.TabletAliasString] *)
  TabletAliasString : option TabletAlias → string;
}.

Module wrangler.
Section Wrangler.
Context `{Platform}.

(** [Wrangler], without the fields [New] leaves at their zero values
    ([VExecFunc], [sem], [WorkflowParams]). *)
Record Wrangler := mkWrangler {
  logger : Logger;
  ts : TopoServer;
  tmc : TabletManagerClient;
  vtctld : VtctldServer;
  sourceTs : TopoServer;
  collationEnv : CollationEnv;
  parser : Parser;
}.

Definition New (logger : Logger) (ts : TopoServer) (tmc : TabletManagerClient)
    (collationEnv : CollationEnv) (parser : Parser) : Wrangler :=
  mkWrangler logger ts tmc (NewVtctldServer ts collationEnv parser) ts
    collationEnv parser.

End Wrangler.
End wrangler.

Module vtctld.
Section ActionRepository.
Context `{Platform}.

Record ActionResult := mkActionResult {
  Name : string;
  Parameters : string;
  Output : string;
  Error : bool;
}.

(** The method [error] of [*ActionResult]. *)
Definition ActionResult_error (ar : ActionResult) (text : string) : ActionResult :=
  mkActionResult (Name ar) (Parameters ar) text true.

Definition set_Output (output : string) (ar : ActionResult) : ActionResult :=
  mkActionResult (Name ar) (Parameters ar) output (Error ar).

(** An action returns a message and an error; it acts on the cluster
    and may panic. A registered method is a function: the nil func
    value, whose call panics, is left out. When the error is not nil
    the message is not read. *)
Definition actionKeyspaceMethod : Type :=
  Ctx → wrangler.Wrangler → string → M Cluster string.
Definition actionShardMethod : Type :=
  Ctx → wrangler.Wrangler → string → string → M Cluster string.
Definition actionTabletMethod : Type :=
  Ctx → wrangler.Wrangler → option TabletAlias → M Cluster string.

Record actionTabletRecord := mkActionTabletRecord {
  role : string;
  method : actionTabletMethod;
}.

Record ActionRepository := mkActionRepository {
  keyspaceActions : gmap string actionKeyspaceMethod;
  shardActions : gmap string actionShardMethod;
  tabletActions : gmap string actionTabletRecord;
  ts : TopoServer;
  collationEnv : CollationEnv;
  parser : Parser;
}.

Definition NewActionRepository (ts : TopoServer) (collationEnv : CollationEnv)
    (parser : Parser) : ActionRepository :=
  mkActionRepository ∅ ∅ ∅ ts collationEnv parser.

Definition RegisterKeyspaceAction (ar : ActionRepository) (name : string)
    (method : actionKeyspaceMethod) : ActionRepository :=
  mkActionRepository (<[name := method]> (keyspaceActions ar)) (shardActions ar)
    (tabletActions ar) (ts ar) (collationEnv ar) (parser ar).

Definition RegisterShardAction (ar : ActionRepository) (name : string)
    (method : actionShardMethod) : ActionRepository :=
  mkActionRepository (keyspaceActions ar) (<[name := method]> (shardActions ar))
    (tabletActions ar) (ts ar) (collationEnv ar) (parser ar).

Definition RegisterTabletAction (ar : ActionRepository) (name role : string)
    (method : actionTabletMethod) : ActionRepository :=
  mkActionRepository (keyspaceActions ar) (shardActions ar)
    (<[name := mkActionTabletRecord role method]> (tabletActions ar))
    (ts ar) (collationEnv ar) (parser ar).

(** What follows the lookup in each of the three [Apply] methods: the
    action runs with a context that times out and a new wrangler; its
    error, if any, becomes the output. The [cancel] of the context has
    no effect on the result. [actionTimeout] is the package variable,
    read at the call. *)
Definition run_action (ar : ActionRepository) (actionTimeout : Z) (ctx : Ctx)
    (result : ActionResult) (action : Ctx → wrangler.Wrangler → M Cluster string)
    : M Cluster ActionResult :=
  let ctx := context_WithTimeout ctx actionTimeout in
  let wr := wrangler.New NewConsoleLogger (ts ar) NewTabletManagerClient
              (collationEnv ar) (parser ar) in
  λ w, match action ctx wr w with
       | (Ok output, w') => (Ok (set_Output output result), w')
       | (Err err, w') => (Ok (ActionResult_error result (error_Error err)), w')
       | (Panic, w') => (Panic, w')
       end.

Definition ApplyKeyspaceAction (ar : ActionRepository) (actionTimeout : Z) (ctx : Ctx)
    (actionName keyspace : string) : M Cluster ActionResult :=
  let result := mkActionResult actionName keyspace "" false in
  match keyspaceActions ar !! actionName with
  | None => ret (ActionResult_error result "Unknown keyspace action")
  | Some action =>
      run_action ar actionTimeout ctx result (λ ctx wr, action ctx wr keyspace)
  end.

(** [strings.Contains(shard, "-")] *)
Definition contains_dash (shard : string) : bool :=
  bool_decide (is_Some (String.index 0 "-" shard)).

Definition ApplyShardAction (ar : ActionRepository) (actionTimeout : Z) (ctx : Ctx)
    (actionName keyspace shard : string) : M Cluster ActionResult :=
  let shard := if contains_dash shard then ToLower shard else shard in
  let result := mkActionResult actionName (keyspace +:+ "/" +:+ shard) "" false in
  match shardActions ar !! actionName with
  | None => ret (ActionResult_error result "Unknown shard action")
  | Some action =>
      run_action ar actionTimeout ctx result (λ ctx wr, action ctx wr keyspace shard)
  end.

Definition ApplyTabletAction (ar : ActionRepository) (actionTimeout : Z) (ctx : Ctx)
    (actionName : string) (tabletAlias : option TabletAlias) (r : Request)
    : M Cluster ActionResult :=
  let result := mkActionResult actionName (TabletAliasString tabletAlias) "" false in
  match tabletActions ar !! actionName with
  | None => ret (ActionResult_error result "Unknown tablet action")
  | Some action =>
      let run :=
        run_action ar actionTimeout ctx result
          (λ ctx wr, method action ctx wr tabletAlias) in
      if bool_decide (role action ≠ "") then
        match CheckAccessHTTP r (role action) with
        | Some _ => ret (ActionResult_error result "Access denied")
        | None => run
        end
      else run
  end.

(** ** For the statements *)

(** The repository after the keyspace actions [registrations] have been
    registered, in order. *)
Definition with_keyspace_actions (ar : ActionRepository)
    (registrations : list (string * actionKeyspaceMethod)) : ActionRepository :=
  foldl (λ ar registration, RegisterKeyspaceAction ar registration.1 registration.2)
    ar registrations.

(** The method registered last under [name], if any. *)
Definition last_registered {A : Type} (name : string)
    (registrations : list (string * A)) : option A :=
  snd <$> last (filter (λ registration, registration.1 = name) registrations).

(** The result an [Apply] method makes of what the action returned. *)
Definition result_of (name parameters : string) (outcome : result string)
    : result ActionResult :=
  match outcome with
  | Ok output => Ok (mkActionResult name parameters output false)
  | Err err => Ok (mkActionResult name parameters (error_Error err) true)
  | Panic => Panic
  end.

(** The wrangler an action of the repository is run with. *)
Definition wrangler_of (ar : ActionRepository) : wrangler.Wrangler :=
  wrangler.New NewConsoleLogger (ts ar) NewTabletManagerClient
    (collationEnv ar) (parser ar).

End ActionRepository.
End vtctld.

(** * The query statistics page of vtgate

    The row [queryzHandler] builds for a plan, with the colour it gives
    it. *)

Module queryz.

(** [uint64(x)] and [time.Duration(x)] (an [int64]) of an integer
    value: the value modulo 2^64, read unsigned and signed. *)
Definition uint64 (x : Z) : Z := (x mod 2 ^ 64)%Z.
Definition int64 (x : Z) : Z := ((x + 2 ^ 63) mod 2 ^ 64 - 2 ^ 63)%Z.

(** [time.Millisecond], in nanoseconds as [time.Duration] counts. *)
Definition Millisecond : Z := 1000000.

(** [queryzRow]: the counters are [uint64], [tm] is a
    [time.Duration]. *)
Record queryzRow := mkQueryzRow {
  Query : string;
  Table : string;
  Count : Z;
  tm : Z;
  ShardQueries : Z;
  RowsAffected : Z;
  RowsReturned : Z;
  Errors : Z;
  Color : string;
}.

(** What [plan.Stats()] returns. *)
Record Stats := mkStats {
  stats_Count : Z;
  stats_tm : Z;
  stats_ShardQueries : Z;
  stats_RowsAffected : Z;
  stats_RowsReturned : Z;
  stats_Errors : Z;
}.

(** The body of the closure [queryzHandler] passes to [ForEachPlan], up
    to the [append]: [query] is the truncated, wrappable text of the
    plan and [stats] its statistics. *)
Definition row_of_plan (query : string) (stats : Stats) : queryzRow :=
  let timepq :=
    if bool_decide (stats_Count stats ≠ 0%Z)
    then int64 (uint64 (stats_tm stats) / stats_Count stats)
    else 0%Z in
  let color :=
    if bool_decide (timepq < 10 * Millisecond)%Z then "low"
    else if bool_decide (timepq < 100 * Millisecond)%Z then "medium"
    else "high" in
  mkQueryzRow query "" (stats_Count stats) (stats_tm stats) (stats_ShardQueries stats)
    (stats_RowsAffected stats) (stats_RowsReturned stats) (stats_Errors stats) color.

End queryz.

(** ** The concrete cluster, continued

    The primitives of the later phases on the cluster above: a schema
    copy that fails into the unreachable shard [down] and changes no
    catalog. And a small desk for the action repository: a request is
    the name of its user, who holds the role of that name; the cluster
    is a journal of what the actions did. *)
Module Fixture2.
Import Fixture.

Definition copy_schema (oneSource : option TabletAlias) (tables excludeTables : list string)
    (includeViews : bool) (keyspace shard : string) (waitReplicasTimeout : Z)
    (skipVerify : bool) (w : gmap string (list (list string)))
    : option error * gmap string (list (list string)) :=
  if String.eqb shard "down" then (Some (Errorf "rpc: unavailable" []), w)
  else (None, w).

#[export] Instance primitives : Primitives := {|
  AllowUnsafeWriteCommentDirective := "ALLOW_UNSAFE_VREPLICATION_WRITE";
  CopySchemaShard := copy_schema;
|}.

#[export] Instance desk : Platform := {|
  Ctx := Z;
  Request := string;
  TopoServer := unit;
  CollationEnv := unit;
  Parser := unit;
  Logger := unit;
  TabletManagerClient := unit;
  VtctldServer := unit;
  Cluster := list string;
  context_WithTimeout := λ deadline d, (deadline + d)%Z;
  NewConsoleLogger := tt;
  NewTabletManagerClient := tt;
  NewVtctldServer := λ _ _ _, tt;
  CheckAccessHTTP := λ user role,
    if String.eqb user role then None else Some (Errorf "access denied" []);
  error_Error := λ err, match err with Errorf format _ => format | _ => "error" end;
  ToLower := λ s, s;
  TabletAliasString := λ alias,
    match alias with Some a => alias_Cell a | None => "" end;
|}.

(** A tablet action that notes its call in the journal. *)
Definition refresh : vtctld.actionTabletMethod :=
  λ _ _ alias journal, (Ok "refreshed", journal ++ [TabletAliasString alias]).

(** A repository with that action, for administrators. *)
Definition a_repository : vtctld.ActionRepository :=
  vtctld.RegisterTabletAction (vtctld.NewActionRepository tt tt tt)
    "RefreshState" "admin" refresh.

End Fixture2.

(** * Properties *)

(** ** The state monad *)

Lemma bind_invariant {S A B : Type} (P : S → Prop) (c : M S A) (k : A → M S B) (st : S) :
  P (c st).2 →
  (∀ a st', P st' → P (k a st').2) →
  P (bind c k st).2.
Proof.
  intros Hc Hk. unfold bind.
  destruct (c st) as [[a | err |] st']; cbn in *; auto.
Qed.

(** ** The fan-out executor *)

Section FanOutFacts.
Context {S : Type}.
Implicit Types (f : ShardInfo → M S unit) (shards : list ShardInfo).

Lemma errors_of_app o1 o2 : errors_of (o1 ++ o2) = errors_of o1 ++ errors_of o2.
Proof. apply omap_app. Qed.

Lemma elem_of_errors_of e outcomes : e ∈ errors_of outcomes ↔ Err e ∈ outcomes.
Proof.
  unfold errors_of. rewrite list_elem_of_omap. split.
  - intros ([| e' |] & Hin & Heq); simplify_eq. done.
  - intros Hin. exists (Err e). done.
Qed.

Lemma errors_of_nil_iff outcomes :
  Forall (λ r, r ≠ Panic) outcomes →
  errors_of outcomes = [] ↔ Forall (λ r, r = Ok tt) outcomes.
Proof.
  induction 1 as [| r rs Hr _ IH]; [done |].
  destruct r as [[] | e |]; cbn; [| | done].
  - rewrite IH. split; [by constructor | by inversion 1].
  - split; [done | by inversion 1].
Qed.

Lemma AggrError_Ok allErrors : AggrError allErrors = Ok tt ↔ allErrors = [].
Proof. by destruct allErrors. Qed.

Lemma AggrError_not_Panic allErrors : AggrError allErrors ≠ Panic.
Proof. by destruct allErrors. Qed.

Lemma AggrError_Err allErrors err :
  AggrError allErrors = Err err ↔ allErrors ≠ [] ∧ err = Aggregate allErrors.
Proof.
  destruct allErrors as [| e l]; cbn.
  - split; [done | by intros [? _]].
  - split; [by intros [= <-] | by intros [_ ->]].
Qed.

(** A property of the state that every body keeps is kept by the
    fan-out. *)
Lemma forAll_run_invariant (P : S → Prop) f shards allErrors st :
  (∀ shard st, P st → P (f shard st).2) →
  P st → P (forAll_run f shards allErrors st).2.
Proof.
  intros Hf. revert allErrors st.
  induction shards as [| shard rest IH]; intros allErrors st HP; [done |].
  cbn. specialize (Hf shard st HP).
  destruct (f shard st) as [[[] | err |] st']; cbn in *; auto.
Qed.

Lemma forAll_invariant (P : S → Prop) (sched : Scheduler) f shards st :
  (∀ shard st, P st → P (f shard st).2) →
  P st → P (forAll sched shards f st).2.
Proof.
  intros Hf HP. unfold forAll, bind, lift.
  pose proof (forAll_run_invariant P f (sched shards) [] st Hf HP) as Hrun.
  by destruct (forAll_run f (sched shards) [] st) as [[errs | err |] st'].
Qed.

(** Bodies whose outcome, on the states that satisfy an invariant they
    keep, depends on the shard only. *)
Lemma forAll_run_outcomes (I : S → Prop) (g : ShardInfo → result unit)
    f shards allErrors st :
  (∀ shard st, shard ∈ shards → I st → (f shard st).1 = g shard ∧ I (f shard st).2) →
  I st →
  I (forAll_run f shards allErrors st).2
  ∧ (Forall (λ shard, g shard ≠ Panic) shards →
     (forAll_run f shards allErrors st).1 = Ok (allErrors ++ errors_of (g <$> shards)))
  ∧ (Exists (λ shard, g shard = Panic) shards →
     (forAll_run f shards allErrors st).1 = Panic).
Proof.
  revert allErrors st.
  induction shards as [| shard rest IH]; intros allErrors st Hf HI.
  - cbn. rewrite app_nil_r. split_and!; [done | done | by inversion 1].
  - cbn [forAll_run].
    destruct (Hf shard st ltac:(left) HI) as [Hout HI'].
    assert (∀ shard st, shard ∈ rest → I st →
            (f shard st).1 = g shard ∧ I (f shard st).2) as Hf'
      by (intros; apply Hf; [by right | done]).
    destruct (f shard st) as [r st']; cbn in Hout, HI'; subst r.
    destruct (g shard) as [[] | err |] eqn:Hgs.
    + destruct (IH allErrors st' Hf' HI') as (HI2 & Hok & Hpanic).
      split_and!; [done | |].
      * intros Hall. inversion_clear Hall. cbn. rewrite Hgs. by apply Hok.
      * intros [Hh | Ht]%Exists_cons; [congruence | by apply Hpanic].
    + destruct (IH (RecordError allErrors err) st' Hf' HI') as (HI2 & Hok & Hpanic).
      split_and!; [done | |].
      * intros Hall. inversion_clear Hall. cbn. rewrite Hgs. cbn.
        rewrite Hok by done. unfold RecordError. by rewrite <- app_assoc.
      * intros [Hh | Ht]%Exists_cons; [congruence | by apply Hpanic].
    + cbn. split_and!; [done | | done].
      intros Hall. by inversion_clear Hall.
Qed.


Lemma forAll_run_traced f shards allErrors st calls0 :
  (∀ shard st, (f shard st).1 ≠ Panic) →
  ∃ calls st',
    forAll_run (traced f) shards allErrors (st, calls0)
      = (Ok (allErrors ++ errors_of calls.*2), (st', calls0 ++ calls))
    ∧ forAll_run f shards allErrors st = (Ok (allErrors ++ errors_of calls.*2), st')
    ∧ calls.*1 = shards
    ∧ Forall (λ c, c.2 ≠ Panic) calls.
Proof.
  intros Hf. revert allErrors st calls0.
  induction shards as [| shard rest IH]; intros allErrors st calls0.
  - exists [], st. cbn. by rewrite !app_nil_r.
  - cbn. pose proof (Hf shard st) as Hnp.
    destruct (f shard st) as [r st1] eqn:Hfs. cbn in Hnp.
    destruct r as [[] | err |]; [| | done].
    + destruct (IH allErrors st1 (calls0 ++ [(shard, Ok tt)]))
        as (calls & st' & Ht & Hu & Hshards & Hnopanic).
      exists ((shard, Ok tt) :: calls), st'. rewrite Ht, Hu. cbn.
      rewrite <- app_assoc. repeat split; [by f_equal | by constructor].
    + destruct (IH (RecordError allErrors err) st1 (calls0 ++ [(shard, Err err)]))
        as (calls & st' & Ht & Hu & Hshards & Hnopanic).
      exists ((shard, Err err) :: calls), st'. rewrite Ht, Hu. cbn.
      unfold RecordError. rewrite <- !app_assoc. cbn.
      repeat split; [by f_equal | by constructor].
Qed.

Lemma errors_of_failed (calls : list (ShardInfo * result unit)) :
  Forall (λ c, c.2 ≠ Panic) calls →
  Err <$> errors_of calls.*2 = (filter failed calls).*2.
Proof.
  induction 1 as [| [shard r] calls Hr _ IH]; [done |].
  cbn in Hr. destruct r as [[] | err |]; [| | done].
  - rewrite filter_cons_False by (unfold failed; cbn; done). done.
  - rewrite filter_cons_True by done. cbn. by f_equal.
Qed.

End FanOutFacts.

(** C8. [forAll] invokes [f] once for every shard of its input and lets
    every invocation finish, whatever the others return: the calls made,
    in the order the scheduler ran them, are a permutation of the input.
    The result is nil exactly when every call returned nil; otherwise it
    is the aggregate of the errors the failing calls returned, one per
    failing call. The instrumentation changes neither the result nor the
    state. *)
Theorem forAll_aggregates_every_error {S : Type} (sched : Scheduler)
    (shards : list ShardInfo) (f : ShardInfo → M S unit) (st : S) :
  (∀ shard st, (f shard st).1 ≠ Panic) →
  ∃ calls st',
    forAll sched shards (traced f) (st, []) = (AggrError (errors_of calls.*2), (st', calls))
    ∧ forAll sched shards f st = (AggrError (errors_of calls.*2), st')
    ∧ calls.*1 ≡ₚ shards
    ∧ (AggrError (errors_of calls.*2) = Ok tt ↔ Forall (λ c, c.2 = Ok tt) calls)
    ∧ (∀ err, AggrError (errors_of calls.*2) = Err err →
         ∃ errs, err = Aggregate errs ∧ Err <$> errs = (filter failed calls).*2).
Proof.
  intros Hf.
  destruct (forAll_run_traced f (sched shards) [] st [] Hf)
    as (calls & st' & Ht & Hu & Hshards & Hnopanic).
  exists calls, st'. unfold forAll, bind, lift. rewrite Ht, Hu. cbn.
  repeat split.
  - rewrite Hshards. apply sched_perm.
  - rewrite AggrError_Ok, errors_of_nil_iff by (by rewrite Forall_fmap).
    by rewrite Forall_fmap.
  - rewrite AggrError_Ok, errors_of_nil_iff by (by rewrite Forall_fmap).
    by rewrite Forall_fmap.
  - intros err [_ ->]%AggrError_Err. eexists. split; [done |].
    by apply errors_of_failed.
Qed.

(** ** The stream classifier *)

Section ClassifierFacts.
Context `{Collaborators}.
Implicit Types (rs : resharder) (V : Keyspace) (bls : BinlogSource).

Lemma identifyRuleType_classify rs V rule :
  vschema rs = Some V →
  identifyRuleType rs rule =
    match classify_rule V (rule_Match rule) with
    | sharded => Ok StreamTypeSharded
    | reference => Ok StreamTypeReference
    | InvalidMix => Panic
    | UnknownTable name => Err (Errorf "table %v not found in vschema" [AStr name])
    end.
Proof.
  intros HV. unfold identifyRuleType, classify_rule. rewrite HV. cbn.
  destruct (Tables V !! rule_Match rule) as [table |] eqn:Hlook; cbn.
  - by case_bool_decide.
  - by destruct (IsInternalOperationTableName (rule_Match rule)).
Qed.

Lemma classify_rule_not_mix V name : classify_rule V name ≠ InvalidMix.
Proof.
  unfold classify_rule.
  destruct (Tables V !! name); [by case_bool_decide |].
  by destruct (IsInternalOperationTableName name).
Qed.

Lemma blsIsReference_rules_classify rs V bls rules streamType :
  vschema rs = Some V →
  blsIsReference_rules rs bls rules streamType
    = classified bls (classify_scan V (adopted_of streamType) rules).
Proof.
  intros HV. revert streamType.
  induction rules as [| rule rest IH]; intros streamType.
  - by destruct streamType.
  - cbn [blsIsReference_rules classify_scan].
    rewrite (identifyRuleType_classify rs V rule HV).
    pose proof (classify_rule_not_mix V (rule_Match rule)) as Hmix.
    destruct (classify_rule V (rule_Match rule)); [| | done | done].
    + destruct streamType; cbn; try apply (IH StreamTypeSharded); done.
    + destruct streamType; cbn; try apply (IH StreamTypeReference); done.
Qed.

(** On a stream that carries a filter, [blsIsReference] is the
    classifier of the specification. *)
Lemma blsIsReference_classify rs V bls filter :
  vschema rs = Some V →
  bls_Filter bls = Some filter →
  blsIsReference rs bls = classified bls (classify V (filter_Rules filter)).
Proof.
  intros HV Hfilter. unfold blsIsReference, classify. rewrite Hfilter.
  apply (blsIsReference_rules_classify rs V bls _ StreamTypeUnknown HV).
Qed.

End ClassifierFacts.

(** C3, at a stream without a filter. The generated [BinlogSource] holds
    its filter behind a pointer, and [blsIsReference] reads
    [bls.Filter.Rules] without testing it: for a stream whose filter is
    nil, such as [keyspace:"ks" shard:"0"], which has no rules, the call
    does not return [sharded] but panics, whatever the vschema. The
    stream reaches the call from a catalog: when the first row of a
    source names a workflow and its source column parses to such a
    stream, the goroutine of [readRefStreams] panics under the mutex. *)
Theorem blsIsReference_without_filter_panics `{Collaborators}
    (rs : resharder) (bls : BinlogSource) :
  bls_Filter bls = None →
  blsIsReference rs bls = Panic
  ∧ ∀ source workflow rowBytes columns rows,
      workflow ≠ "" →
      prototext_Unmarshal rowBytes = inr bls →
      (readRefStreams_merge rs source
         (mkQueryResult ((workflow :: rowBytes :: columns) :: rows))).1 = Panic.
Proof.
  intros Hnil.
  assert (blsIsReference rs bls = Panic) as Hpanic.
  { unfold blsIsReference. by rewrite Hnil. }
  split; [done |].
  intros source workflow rowBytes columns rows Hname Hparse.
  unfold readRefStreams_merge.
  destruct (refStreams rs) as [streams |]; cbn;
    by rewrite bool_decide_eq_false_2, Hparse, Hpanic.
Qed.

(** ** validateTargets *)

Section ValidateTargetsFacts.
Context `{Collaborators}.





End ValidateTargetsFacts.




(** ** The statements issued while a resharder is built *)

Section ReadOnlyFacts.
Context `{Collaborators} {C : Type} (catalog : World → C).
Hypothesis select_reads : ∀ tablet query w,
  is_select query = true →
  catalog (tmc_VReplicationExec tablet query w).2 = catalog w.
Variable st0 : state.

Lemma reads_only_refl : reads_only catalog st0 st0.
Proof. exists []. by rewrite app_nil_r. Qed.

Lemma reads_only_set_rs f st :
  reads_only catalog st0 st → reads_only catalog st0 (set_rs f st).
Proof. done. Qed.

Lemma VReplicationExec_reads tablet query st :
  is_select query = true →
  reads_only catalog st0 st →
  reads_only catalog st0 (VReplicationExec tablet query st).2.
Proof.
  intros Hselect (issued & Hlog & Hissued & Hcatalog).
  unfold VReplicationExec.
  pose proof (select_reads tablet query (st_world st) Hselect) as Hread.
  destruct (tmc_VReplicationExec tablet query (st_world st)) as [r w]. cbn in *.
  exists (issued ++ [(tablet, query)]). split_and!.
  - by rewrite Hlog, app_assoc.
  - apply Forall_app. split; [done |]. by constructor.
  - cbn. by rewrite Hread.
Qed.

Lemma validateTargets_task_reads target st :
  reads_only catalog st0 st →
  reads_only catalog st0 (validateTargets_task target st).2.
Proof.
  intros Hst. unfold validateTargets_task, bind, get.
  destruct (targetPrimaries (st_rs st) !! si_shardName target) as [targetPrimary |];
    [| done].
  pose proof (VReplicationExec_reads (ti_Tablet targetPrimary)
                (validateTargets_query targetPrimary) st eq_refl Hst) as Hexec.
  destruct (VReplicationExec _ _ st) as [[[err | qr] | err |] st']; cbn in *; try done.
  by case_bool_decide.
Qed.

Lemma readRefStreams_locked_reads source qr st :
  reads_only catalog st0 st →
  reads_only catalog st0 (readRefStreams_locked source qr st).2.
Proof.
  intros Hst. unfold readRefStreams_locked.
  destruct (readRefStreams_merge (st_rs st) source qr) as [r rs'].
  by apply reads_only_set_rs.
Qed.

Lemma readRefStreams_task_reads source st :
  reads_only catalog st0 st →
  reads_only catalog st0 (readRefStreams_task source st).2.
Proof.
  intros Hst. unfold readRefStreams_task, bind, get.
  destruct (sourcePrimaries (st_rs st) !! si_shardName source) as [sourcePrimary |];
    [| done].
  pose proof (VReplicationExec_reads (ti_Tablet sourcePrimary)
                (readRefStreams_query sourcePrimary) st eq_refl Hst) as Hexec.
  destruct (VReplicationExec _ _ st) as [[[err | qr] | err |] st']; cbn in *; try done.
  by apply readRefStreams_locked_reads.
Qed.

Lemma validateTargets_reads sched st :
  reads_only catalog st0 st →
  reads_only catalog st0 (validateTargets sched st).2.
Proof.
  intros Hst. unfold validateTargets, bind, get.
  apply (forAll_invariant (reads_only catalog st0)); [| done].
  intros target st1. apply validateTargets_task_reads.
Qed.

Lemma readRefStreams_reads sched st :
  reads_only catalog st0 st →
  reads_only catalog st0 (readRefStreams sched st).2.
Proof.
  intros Hst. unfold readRefStreams, bind, get.
  apply (forAll_invariant (reads_only catalog st0)); [| done].
  intros source st1. apply readRefStreams_task_reads.
Qed.

Lemma wrap_state {A} (c : M state A) message st : (wrap c message st).2 = (c st).2.
Proof. unfold wrap. by destruct (c st) as [[a | err |] st']. Qed.

Lemma buildResharder_validate_reads schedTargets schedSources keyspace st :
  reads_only catalog st0 st →
  reads_only catalog st0
    (buildResharder_validate schedTargets schedSources keyspace st).2.
Proof.
  intros Hst. unfold buildResharder_validate, bind, get.
  destruct (ValidateForReshard _ _) as [err |]; [done |].
  pose proof (validateTargets_reads schedTargets st Hst) as Hvalidate.
  rewrite <- (wrap_state (validateTargets schedTargets) "validateTargets") in Hvalidate.
  destruct (wrap (validateTargets schedTargets) "validateTargets" st)
    as [[[] | err |] st1]; cbn in *; [| done | done].
  destruct (ts_GetVSchema keyspace) as [err | vs]; [done |]. cbn.
  pose proof (readRefStreams_reads schedSources
                (set_rs (set_vschema (Some vs)) st1)
                (reads_only_set_rs _ _ Hvalidate)) as Hread.
  rewrite <- (wrap_state (readRefStreams schedSources) "readRefStreams") in Hread.
  by destruct (wrap (readRefStreams schedSources) "readRefStreams" _)
    as [[[] | err |] st2].
Qed.

Lemma buildResharder_reads schedTargets schedSources keyspace workflow
    sources targets cell tabletTypes :
  reads_only catalog st0
    (buildResharder schedTargets schedSources keyspace workflow
       sources targets cell tabletTypes st0).2.
Proof.
  unfold buildResharder.
  apply bind_invariant; [apply reads_only_set_rs, reads_only_refl |].
  intros _ st1 Hst1. apply bind_invariant; [done |].
  intros st1' st2 Hst2. apply bind_invariant.
  { unfold lift. by destruct (buildResharder_sources _ _ _). }
  intros rs1 st3 Hst3. apply bind_invariant.
  { unfold lift. by destruct (buildResharder_targets _ _ _). }
  intros rs2 st4 Hst4. apply bind_invariant.
  { by apply reads_only_set_rs. }
  intros _ st5 Hst5. by apply buildResharder_validate_reads.
Qed.

End ReadOnlyFacts.

(** C9. Whatever [buildResharder] returns (a resharder, an error from
    the shard and tablet lookups, from ValidateForReshard, from
    validateTargets, from GetVSchema or from readRefStreams, or a panic),
    every statement it sent through [VReplicationExec] is a select; so,
    for a tablet manager whose selects leave the catalogs as they are,
    the catalogs are what they were before the call. *)
Theorem buildResharder_writes_nothing `{Collaborators} {C : Type} (catalog : World → C)
    (schedTargets schedSources : Scheduler) (keyspace workflow : string)
    (sources targets : list string) (cell tabletTypes : string) (st : state) :
  (∀ tablet query w,
     is_select query = true →
     catalog (tmc_VReplicationExec tablet query w).2 = catalog w) →
  ∃ issued,
    st_log (buildResharder schedTargets schedSources keyspace workflow
              sources targets cell tabletTypes st).2 = st_log st ++ issued
    ∧ Forall (λ call : Tablet * string, is_select call.2 = true) issued
    ∧ catalog (st_world (buildResharder schedTargets schedSources keyspace workflow
                           sources targets cell tabletTypes st).2)
      = catalog (st_world st).
Proof.
  intros select_reads.
  apply (buildResharder_reads catalog select_reads st).
Qed.

(** ** buildResharder *)

Section BuildFacts.
Context `{Collaborators}.
Implicit Types (rs : resharder).

Lemma GetShard_inr keyspace name si :
  GetShard keyspace name = inr si ↔
  ∃ shard, ts_GetShard keyspace name = inr shard ∧ si = mkShardInfo keyspace name shard.
Proof.
  unfold GetShard. destruct (ts_GetShard keyspace name) as [err | shard].
  - split; [done | by intros (? & ? & ?)].
  - split; [intros [= <-]; eauto | by intros (? & [= <-] & ->)].
Qed.

Lemma primaries_of_insert keyspace primaries name shard primary :
  primaries_of keyspace primaries →
  ts_GetShard keyspace name = inr shard →
  ts_GetTablet (shard_PrimaryAlias shard) = inr primary →
  primaries_of keyspace (<[name := primary]> primaries).
Proof.
  intros Hall Hshard Htablet name' primary'.
  rewrite lookup_insert. case_decide as Hname.
  - intros [= <-]. subst name'. eauto.
  - apply Hall.
Qed.

(** The loop over the sources: what it records when it succeeds. *)
Lemma buildResharder_sources_Ok keyspace sources rs rs' :
  buildResharder_sources keyspace sources rs = Ok rs' →
  primaries_of keyspace (sourcePrimaries rs) →
  ∃ infos,
    sourceShards rs' = sourceShards rs ++ infos
    ∧ Forall2 (λ name si, GetShard keyspace name = inr si) sources infos
    ∧ Forall (λ si, IsPrimaryServing si = true) infos
    ∧ primaries_of keyspace (sourcePrimaries rs')
    ∧ (∀ name, is_Some (sourcePrimaries rs !! name) ∨ name ∈ sources →
         is_Some (sourcePrimaries rs' !! name))
    ∧ targetShards rs' = targetShards rs
    ∧ targetPrimaries rs' = targetPrimaries rs.
Proof.
  revert rs. induction sources as [| shard rest IH]; intros rs Hrun Hprim.
  - injection Hrun as <-. exists []. rewrite app_nil_r.
    split_and!; try done. intros name [? | Hin]; [done | by inversion Hin].
  - cbn in Hrun.
    destruct (GetShard keyspace shard) as [err | si] eqn:Hget; [done |].
    destruct (IsPrimaryServing si) eqn:Hserving; [| done]. cbn in Hrun.
    destruct (ts_GetTablet (PrimaryAlias si)) as [err | primary] eqn:Htablet; [done |].
    apply GetShard_inr in Hget as Hts. destruct Hts as (sh & Hsh & ->).
    apply IH in Hrun as (infos & Hshards & Hinfos & Hserv & Hprim' & Hdom & Ht1 & Ht2).
    + exists (mkShardInfo keyspace shard sh :: infos). cbn in *.
      split_and!; try done.
      * by rewrite Hshards, <- app_assoc.
      * by constructor.
      * by constructor.
      * intros name [Hsome | Hin]; apply Hdom.
        -- left. rewrite lookup_insert. case_decide; [done | done].
        -- apply elem_of_cons in Hin as [-> | Hin]; [left | by right].
           by rewrite lookup_insert_eq.
    + cbn. by eapply primaries_of_insert.
Qed.

Lemma buildResharder_targets_Ok keyspace targets rs rs' :
  buildResharder_targets keyspace targets rs = Ok rs' →
  primaries_of keyspace (targetPrimaries rs) →
  ∃ infos,
    targetShards rs' = targetShards rs ++ infos
    ∧ Forall2 (λ name si, GetShard keyspace name = inr si) targets infos
    ∧ Forall (λ si, IsPrimaryServing si = false) infos
    ∧ primaries_of keyspace (targetPrimaries rs')
    ∧ (∀ name, is_Some (targetPrimaries rs !! name) ∨ name ∈ targets →
         is_Some (targetPrimaries rs' !! name))
    ∧ sourceShards rs' = sourceShards rs
    ∧ sourcePrimaries rs' = sourcePrimaries rs.
Proof.
  revert rs. induction targets as [| shard rest IH]; intros rs Hrun Hprim.
  - injection Hrun as <-. exists []. rewrite app_nil_r.
    split_and!; try done. intros name [? | Hin]; [done | by inversion Hin].
  - cbn in Hrun.
    destruct (GetShard keyspace shard) as [err | si] eqn:Hget; [done |].
    destruct (IsPrimaryServing si) eqn:Hserving; [done |]. cbn in Hrun.
    destruct (ts_GetTablet (PrimaryAlias si)) as [err | primary] eqn:Htablet; [done |].
    apply GetShard_inr in Hget as Hts. destruct Hts as (sh & Hsh & ->).
    apply IH in Hrun as (infos & Hshards & Hinfos & Hserv & Hprim' & Hdom & Ht1 & Ht2).
    + exists (mkShardInfo keyspace shard sh :: infos). cbn in *.
      split_and!; try done.
      * by rewrite Hshards, <- app_assoc.
      * by constructor.
      * by constructor.
      * intros name [Hsome | Hin]; apply Hdom.
        -- left. rewrite lookup_insert. case_decide; [done | done].
        -- apply elem_of_cons in Hin as [-> | Hin]; [left | by right].
           by rewrite lookup_insert_eq.
    + cbn. by eapply primaries_of_insert.
Qed.




Lemma buildResharder_targets_no_panic keyspace targets rs :
  buildResharder_targets keyspace targets rs ≠ Panic.
Proof.
  revert rs. induction targets as [| name rest IH]; intros rs; [done |].
  cbn. destruct (GetShard keyspace name) as [err | si]; [done |].
  destruct (IsPrimaryServing si); cbn; [done |].
  destruct (ts_GetTablet (PrimaryAlias si)); [done | apply IH].
Qed.



Lemma shards_recorded_intro keyspace names shards primaries :
  Forall2 (λ name si, GetShard keyspace name = inr si) names shards →
  primaries_of keyspace primaries →
  (∀ name, name ∈ names → is_Some (primaries !! name)) →
  shards_recorded keyspace names shards primaries.
Proof.
  intros Hshards Hprim Hdom. split; [done |].
  intros si Hsi.
  apply list_elem_of_lookup in Hsi as [i Hi].
  destruct (Forall2_lookup_r _ _ _ _ _ Hshards Hi) as (name & Hname & Hget).
  apply GetShard_inr in Hget as (shard & Hshard & ->).
  destruct (Hdom name) as [primary Hprimary].
  { by eapply list_elem_of_lookup_2. }
  destruct (Hprim name primary Hprimary) as (shard' & Hshard' & Htablet).
  exists primary. unfold PrimaryAlias. cbn. split; [congruence | done].
Qed.

(** The two loops, run on the fresh resharder. *)
Lemma buildResharder_loops_recorded keyspace workflow sources targets cell tabletTypes rs1 rs2 :
  buildResharder_sources keyspace sources
    (newResharder keyspace workflow cell tabletTypes) = Ok rs1 →
  buildResharder_targets keyspace targets rs1 = Ok rs2 →
  recorded keyspace sources targets rs2.
Proof.
  intros Hsources Htargets.
  apply buildResharder_sources_Ok in Hsources
    as (srcs & Hs1 & Hs2 & Hs3 & Hs4 & Hs5 & Hs6 & Hs7); [| by intros ? ? ?].
  apply buildResharder_targets_Ok in Htargets
    as (tgts & Ht1 & Ht2 & Ht3 & Ht4 & Ht5 & Ht6 & Ht7).
  2: { rewrite Hs7. by intros ? ? ?. }
  cbn in Hs1. rewrite Hs6 in Ht1. cbn in Ht1.
  unfold recorded. rewrite Ht6, Ht7, Hs1, Ht1.
  split_and!; try done.
  - apply shards_recorded_intro; auto.
  - apply shards_recorded_intro; auto.
Qed.

Lemma agree_refl rs : agree rs rs.
Proof. done. Qed.

Lemma agree_trans rs1 rs2 rs3 : agree rs1 rs2 → agree rs2 rs3 → agree rs1 rs3.
Proof. unfold agree. congruence. Qed.

Lemma agree_set_refStreams rs streams : agree rs (set_refStreams streams rs).
Proof. done. Qed.

Lemma agree_shards_of rs rs' : agree rs rs' → shards_of rs = shards_of rs'.
Proof. unfold agree, set_refStreams, shards_of. intros [=]. congruence. Qed.

Lemma agree_vschema rs rs' : agree rs rs' → vschema rs = vschema rs'.
Proof. unfold agree, set_refStreams. by intros [=]. Qed.

Lemma validateTargets_task_rs target st :
  st_rs (validateTargets_task target st).2 = st_rs st.
Proof.
  unfold validateTargets_task, bind, get, VReplicationExec.
  destruct (targetPrimaries (st_rs st) !! si_shardName target) as [targetPrimary |];
    [| done].
  destruct (tmc_VReplicationExec _ _ _) as [[err | qr] w]; cbn; [done |].
  by case_bool_decide.
Qed.

Lemma validateTargets_rs sched st : st_rs (validateTargets sched st).2 = st_rs st.
Proof.
  unfold validateTargets, bind, get.
  apply (forAll_invariant (λ st', st_rs st' = st_rs st)); [| done].
  intros target st1 <-. apply validateTargets_task_rs.
Qed.

Lemma readRefStreams_merge_agree rs source qr :
  agree rs (readRefStreams_merge rs source qr).2.
Proof.
  unfold readRefStreams_merge.
  destruct (refStreams rs) as [streams |];
    destruct (readRefStreams_rows _ _ _ _ _ _) as [[ref | err |] streams'];
    try case_bool_decide; apply agree_set_refStreams.
Qed.

Lemma readRefStreams_locked_agree source qr st :
  agree (st_rs st) (st_rs (readRefStreams_locked source qr st).2).
Proof.
  unfold readRefStreams_locked.
  pose proof (readRefStreams_merge_agree (st_rs st) source qr) as Hagree.
  by destruct (readRefStreams_merge (st_rs st) source qr) as [r rs'].
Qed.

Lemma readRefStreams_task_agree source st :
  agree (st_rs st) (st_rs (readRefStreams_task source st).2).
Proof.
  unfold readRefStreams_task, bind, get, VReplicationExec.
  destruct (sourcePrimaries (st_rs st) !! si_shardName source) as [sourcePrimary |];
    [| done].
  destruct (tmc_VReplicationExec _ _ _) as [[err | qr] w]; cbn; [done |].
  apply (readRefStreams_locked_agree source qr (mkState _ _ _)).
Qed.

Lemma readRefStreams_agree sched st :
  agree (st_rs st) (st_rs (readRefStreams sched st).2).
Proof.
  unfold readRefStreams, bind, get.
  apply (forAll_invariant (λ st', agree (st_rs st) (st_rs st'))); [| done].
  intros source st1 Hst1. eapply agree_trans; [done |].
  apply readRefStreams_task_agree.
Qed.

Lemma wrap_Ok {A} (c : M state A) message st a st' :
  wrap c message st = (Ok a, st') ↔ c st = (Ok a, st').
Proof. unfold wrap. destruct (c st) as [[a' | err |] st1]; naive_solver. Qed.

(** What follows the loops returns the resharder it worked on, with
    the shards and primaries it was given. *)
Lemma buildResharder_validate_Ok schedTargets schedSources keyspace st rs st' :
  buildResharder_validate schedTargets schedSources keyspace st = (Ok rs, st') →
  rs = st_rs st' ∧ shards_of rs = shards_of (st_rs st).
Proof.
  unfold buildResharder_validate, bind, get, modify, ret, fail.
  destruct (ValidateForReshard _ _) as [err |]; [done |].
  destruct (wrap (validateTargets schedTargets) "validateTargets" st)
    as [[[] | err |] st1] eqn:Hvalidate; [| done | done].
  apply wrap_Ok in Hvalidate.
  destruct (ts_GetVSchema keyspace) as [err | vs]; [done |].
  destruct (wrap (readRefStreams schedSources) "readRefStreams" _)
    as [[[] | err |] st2] eqn:Hread; [| done | done].
  apply wrap_Ok in Hread. intros [= <- <-]. split; [done |].
  pose proof (validateTargets_rs schedTargets st) as Hrs1.
  pose proof (readRefStreams_agree schedSources (set_rs (set_vschema (Some vs)) st1))
    as Hrs2.
  rewrite Hvalidate in Hrs1. rewrite Hread in Hrs2. cbn in Hrs1, Hrs2.
  apply agree_shards_of in Hrs2. rewrite <- Hrs2, <- Hrs1. done.
Qed.

End BuildFacts.


(** ** createStreams *)

Section CreateFacts.
Context `{Collaborators}.
Implicit Types (rs : resharder) (ig : InsertGenerator).

Lemma createStreams_excludeRules_spec tables excludeRules :
  createStreams_excludeRules tables excludeRules
    = excludeRules ++ (exclude_rule ∘ fst <$> filter is_reference_table tables).
Proof.
  revert excludeRules.
  induction tables as [| [tableName table] rest IH]; intros excludeRules.
  - cbn. by rewrite app_nil_r.
  - cbn [createStreams_excludeRules]. case_bool_decide as Htype.
    + rewrite IH, filter_cons_True by done. cbn. by rewrite <- app_assoc.
    + rewrite IH, filter_cons_False by done. done.
Qed.

Lemma createStreams_sources_rows rs target copyExcludeRules sources ig :
  ig_rows (createStreams_sources rs target copyExcludeRules sources ig)
    = ig_rows ig
      ++ (sharded_row rs target copyExcludeRules <$> filter (intersects target) sources).
Proof.
  revert ig. induction sources as [| source rest IH]; intros ig.
  - cbn. by rewrite app_nil_r.
  - cbn [createStreams_sources].
    destruct (decide (intersects target source)) as [Hi | Hi].
    + rewrite filter_cons_True by done. unfold intersects in Hi. rewrite Hi.
      cbn [negb]. rewrite IH. cbn. by rewrite <- app_assoc.
    + rewrite filter_cons_False by done. unfold intersects in Hi.
      apply not_true_is_false in Hi. rewrite Hi. cbn [negb]. apply IH.
Qed.

Lemma createStreams_sources_app rs target copyExcludeRules sources1 sources2 ig :
  createStreams_sources rs target copyExcludeRules (sources1 ++ sources2) ig
    = createStreams_sources rs target copyExcludeRules sources2
        (createStreams_sources rs target copyExcludeRules sources1 ig).
Proof.
  revert ig. induction sources1 as [| source rest IH]; intros ig; [done |].
  cbn. by destruct (KeyRangeIntersect _ _); cbn; rewrite IH.
Qed.

Lemma createStreams_refStreams_rows rs streams ig :
  ig_rows (createStreams_refStreams rs streams ig)
    = ig_rows ig ++ (ref_row rs <$> streams.*2).
Proof.
  revert ig. induction streams as [| [key rstream] rest IH]; intros ig.
  - cbn. by rewrite app_nil_r.
  - cbn [createStreams_refStreams]. rewrite IH. cbn. by rewrite <- app_assoc.
Qed.

Lemma createStreams_generator_rows range rs excludeRules target targetPrimary :
  ig_rows (createStreams_generator range rs excludeRules target targetPrimary)
    = (sharded_row rs target excludeRules <$> filter (intersects target) (sourceShards rs))
      ++ (ref_row rs <$> (range_refStreams range rs).*2).
Proof.
  unfold createStreams_generator.
  by rewrite createStreams_refStreams_rows, createStreams_sources_rows.
Qed.


End CreateFacts.


(** ** The slices of createStreams *)

Section SliceFacts.
Variable spare : nat → nat → nat.
Implicit Types (s : slice) (mem : memory).

Lemma elements_of_frame s mem mem' :
  (s_len s ≠ 0 → arrays mem' !! s_array s = arrays mem !! s_array s) →
  elements_of s mem' = elements_of s mem.
Proof.
  intros Hsame. unfold elements_of.
  destruct (decide (s_len s = 0)) as [-> | Hlen]; [done |]. by rewrite Hsame.
Qed.

Lemma slice_wf_frame s mem mem' :
  slice_wf s mem →
  (s_cap s ≠ 0 → arrays mem' !! s_array s = arrays mem !! s_array s) →
  next mem ≤ next mem' →
  slice_wf s mem'.
Proof.
  intros [Hlen Hcap] Hsame Hnext. split; [done |].
  intros Hne. destruct (Hcap Hne) as (Hbound & array & Harray & Hlength).
  split; [lia |]. exists array. by rewrite Hsame.
Qed.

Lemma slice_wf_nil mem : slice_wf nil_slice mem.
Proof. split; [done | by intros []]. Qed.

Lemma allocate_spec contents mem s mem' :
  allocate spare contents mem = (s, mem') →
  s_array s = next mem
  ∧ s_len s = length contents
  ∧ next mem' = S (next mem)
  ∧ elements_of s mem' = contents
  ∧ slice_wf s mem'
  ∧ (∀ a, a ≠ next mem → arrays mem' !! a = arrays mem !! a).
Proof.
  unfold allocate. intros [= <- <-]. cbn. split_and!; try done.
  - unfold elements_of. cbn. rewrite lookup_insert_eq. cbn.
    by rewrite take_app_length.
  - split; cbn; [lia |]. intros _. split; [lia |].
    eexists. rewrite lookup_insert_eq. split; [done |].
    by rewrite length_app, length_replicate.
  - intros a Ha. by rewrite lookup_insert_ne.
Qed.

(** [append] adds the element; the slice appended to reads as before;
    only the array of the result changed. *)
Lemma slice_append_spec s x mem s' mem' :
  slice_wf s mem →
  slice_append spare s x mem = (s', mem') →
  elements_of s' mem' = elements_of s mem ++ [x]
  ∧ slice_wf s' mem'
  ∧ s_cap s' ≠ 0
  ∧ elements_of s mem' = elements_of s mem
  ∧ slice_wf s mem'
  ∧ next mem ≤ next mem'
  ∧ (s_array s' = s_array s ∧ s_cap s ≠ 0 ∧ next mem' = next mem
     ∨ s_array s' = next mem ∧ next mem' = S (next mem))
  ∧ (∀ a, a ≠ s_array s' → arrays mem' !! a = arrays mem !! a).
Proof.
  intros [Hlen Hcap] Happend. unfold slice_append in Happend.
  case_decide as Hroom.
  - injection Happend as <- <-. cbn.
    destruct Hcap as (Hbound & array & Harray & Hlength); [lia |].
    assert (elements_of s (mkMemory (alter (λ array, <[s_len s := x]> array)
                                       (s_array s) (arrays mem)) (next mem))
            = elements_of s mem) as Hsame.
    { unfold elements_of. cbn. rewrite lookup_alter_eq, Harray. cbn.
      by rewrite take_insert_ge by lia. }
    split_and!.
    + unfold elements_of in *. cbn in *. rewrite lookup_alter_eq, Harray in *. cbn.
      rewrite (take_S_r _ _ x); [by rewrite take_insert_ge by lia |].
      apply list_lookup_insert_eq. lia.
    + split; cbn; [lia |]. intros _. split; [done |].
      eexists. rewrite lookup_alter_eq, Harray. cbn. split; [done |].
      by rewrite length_insert.
    + lia.
    + done.
    + split; [done |]. intros _. split; [done |].
      eexists. cbn. rewrite lookup_alter_eq, Harray. cbn. split; [done |].
      by rewrite length_insert.
    + done.
    + left. split_and!; [done | lia | done].
    + intros a Ha. by rewrite lookup_alter_ne.
  - apply allocate_spec in Happend as (Harr & Hl & Hnext & Helems & Hwf & Hframe).
    assert (s_cap s ≠ 0 → arrays mem' !! s_array s = arrays mem !! s_array s) as Hsame.
    { intros Hne. apply Hframe. destruct (Hcap Hne) as [? _]. lia. }
    split_and!.
    + done.
    + done.
    + destruct Hwf as [Hle _]. rewrite Hl, length_app in Hle. cbn in Hle. lia.
    + apply elements_of_frame. intros Hne. apply Hsame. lia.
    + apply (slice_wf_frame s mem); [done | done | lia].
    + lia.
    + by right.
    + intros a Ha. apply Hframe. congruence.
Qed.

Lemma slice_copy_spec s mem c mem' :
  slice_copy spare s mem = (c, mem') →
  elements_of c mem' = elements_of s mem
  ∧ slice_wf c mem'
  ∧ next mem ≤ next mem'
  ∧ (s_cap c ≠ 0 → s_array c = next mem ∧ next mem' = S (next mem))
  ∧ (∀ a, a ≠ next mem → arrays mem' !! a = arrays mem !! a).
Proof.
  unfold slice_copy. case_decide as Hempty.
  - intros [= <- <-]. split_and!.
    + unfold elements_of. by rewrite Hempty.
    + apply slice_wf_nil.
    + done.
    + done.
    + done.
  - intros (Harr & Hl & Hnext & Helems & Hwf & Hframe)%allocate_spec.
    split_and!; [done | done | lia | done | done].
Qed.

(** The slice [excludeRules] holds the rules of the loop over the
    tables. *)
Lemma excludeRules_slice_spec tables s mem s' mem' :
  slice_wf s mem →
  excludeRules_slice spare tables s mem = (s', mem') →
  elements_of s' mem' = createStreams_excludeRules tables (elements_of s mem)
  ∧ slice_wf s' mem'.
Proof.
  revert s mem. induction tables as [| [tableName table] rest IH]; intros s mem Hwf.
  - by intros [= <- <-].
  - cbn. case_bool_decide; [| by apply IH].
    destruct (slice_append spare s (mkRule tableName "exclude") mem) as [s1 mem1] eqn:Happend.
    apply slice_append_spec in Happend as (Helems & Hwf1 & _); [| done].
    intros Hrest. apply IH in Hrest as [Hrest Hwf']; [| done].
    by rewrite Hrest, Helems.
Qed.

End SliceFacts.

Section GoroutineFacts.
Context `{Collaborators}.
Variable spare : nat → nat → nat.
Variables (rs : resharder) (shared : slice) (excludeRules : list Rule) (mem0 : memory).
Hypothesis shared_wf : slice_wf shared mem0.
Hypothesis shared_elements : elements_of shared mem0 = excludeRules.

Lemma array_of_bound s mem a :
  slice_wf s mem → a ∈ array_of s → a = s_array s ∧ s_cap s ≠ 0 ∧ a < next mem.
Proof.
  intros [_ Hcap]. unfold array_of. case_decide as Hzero; [by intros ?%elem_of_nil |].
  intros ->%list_elem_of_singleton. by destruct (Hcap Hzero) as [? _].
Qed.

Lemma shared_frame mem :
  (∀ a, a < next mem0 → arrays mem !! a = arrays mem0 !! a) →
  elements_of shared mem = excludeRules.
Proof.
  intros Hsame. rewrite <- shared_elements. apply elements_of_frame.
  intros Hlen. apply Hsame. destruct shared_wf as [Hle Hcap].
  destruct Hcap as [? _]; lia.
Qed.

Lemma slice_frame_owned s mem mem' :
  slice_wf s mem →
  (∀ a, a ∈ array_of s → arrays mem' !! a = arrays mem !! a) →
  next mem ≤ next mem' →
  slice_wf s mem' ∧ elements_of s mem' = elements_of s mem.
Proof.
  intros Hwf Hsame Hnext.
  assert (s_cap s ≠ 0 → arrays mem' !! s_array s = arrays mem !! s_array s) as Harr.
  { intros Hcap. apply Hsame. unfold array_of. rewrite decide_False by done. by left. }
  split.
  - by apply (slice_wf_frame s mem).
  - apply elements_of_frame. intros Hlen. apply Harr. destruct Hwf as [? _]. lia.
Qed.

(** A goroutine keeps its invariant when other arrays change. *)
Lemma goroutine_inv_frame range target targetPrimary g mem mem' :
  goroutine_inv range rs excludeRules target targetPrimary g mem →
  (∀ a, a ∈ owned g → arrays mem' !! a = arrays mem !! a) →
  next mem ≤ next mem' →
  goroutine_inv range rs excludeRules target targetPrimary g mem'.
Proof.
  intros Hinv Hsame Hnext. destruct g as [| copy sources ig | copy rules source sources ig | ig];
    cbn in *; [done | | | done].
  - destruct Hinv as (Hwf & Helems & Hig).
    destruct (slice_frame_owned copy mem mem' Hwf Hsame Hnext) as [Hwf' Helems'].
    split_and!; [done | congruence | done].
  - destruct Hinv as (Hwf & Helems & Hwf_r & Hcap & Helems_r & Hi & Hig).
    destruct (slice_frame_owned copy mem mem' Hwf) as [Hwf' Helems'];
      [intros a Ha; apply Hsame, elem_of_app; by left | done |].
    destruct (slice_frame_owned rules mem mem' Hwf_r) as [Hwf_r' Helems_r'];
      [intros a Ha; apply Hsame, elem_of_app; by right | done |].
    split_and!; [done | congruence | done | done | congruence | done | done].
Qed.

(** A step of a goroutine keeps its invariant; what it owns afterwards
    it owned before or has just allocated; it changes no array but its
    own and the one it allocates. *)
Lemma goroutine_step_inv range target targetPrimary g mem g' mem' :
  next mem0 ≤ next mem →
  (∀ a, a < next mem0 → arrays mem !! a = arrays mem0 !! a) →
  goroutine_inv range rs excludeRules target targetPrimary g mem →
  goroutine_step spare range rs shared target targetPrimary g mem = (g', mem') →
  goroutine_inv range rs excludeRules target targetPrimary g' mem'
  ∧ next mem ≤ next mem'
  ∧ Forall (λ a, a ∈ owned g ∨ a = next mem ∧ next mem < next mem') (owned g')
  ∧ (∀ a, a ∉ owned g → a ≠ next mem → arrays mem' !! a = arrays mem !! a).
Proof.
  intros Hnext0 Hold Hinv Hstep.
  destruct g as [| copy [| source sources] ig | copy rules source sources ig | ig];
    cbn in Hstep, Hinv.
  - (* the copy *)
    destruct (slice_copy spare shared mem) as [copy mem1] eqn:Hcopy.
    injection Hstep as <- <-.
    apply slice_copy_spec in Hcopy as (Helems & Hwf & Hnext & Hfresh & Hframe).
    rewrite (shared_frame mem Hold) in Helems.
    split_and!; [| done | |].
    + cbn. split_and!; [done | done |]. by exists [].
    + cbn. unfold array_of. case_decide as Hcap; [done |].
      destruct (Hfresh Hcap) as [-> ->]. constructor; [right; split; [done | lia] | done].
    + intros a _ Ha. by apply Hframe.
  - (* the end of the loop *)
    injection Hstep as <- <-. destruct Hinv as (Hwf & Helems & processed & Hsources & ->).
    rewrite app_nil_r in Hsources. subst processed.
    split_and!; [done | done | done | done].
  - (* a source *)
    destruct Hinv as (Hwf & Helems & processed & Hsources & ->).
    destruct (KeyRangeIntersect (ShardKeyRange target) (ShardKeyRange source)) eqn:Hi;
      cbn [negb] in Hstep.
    + destruct (slice_append spare copy _ mem) as [rules mem1] eqn:Happend.
      injection Hstep as <- <-.
      apply slice_append_spec in Happend
        as (Helems_r & Hwf_r & Hcap_r & Helems' & Hwf' & Hnext & Hwhere & Hframe);
        [| done].
      split_and!; [| done | |].
      * cbn. split_and!.
        -- done.
        -- congruence.
        -- done.
        -- done.
        -- by rewrite Helems_r, Helems.
        -- done.
        -- by exists processed.
      * cbn. apply Forall_app. split.
        -- apply Forall_forall. intros a Ha. left. exact Ha.
        -- assert (array_of rules = [s_array rules]) as ->
             by (unfold array_of; by rewrite decide_False).
           constructor; [| done].
           destruct Hwhere as [(Harr & Hcap & _) | [Harr Hfresh]].
           ++ left. rewrite Harr. cbn. unfold array_of.
              rewrite decide_False by done. by left.
           ++ right. split; [done | lia].
      * intros a Hnot Ha. apply Hframe.
        destruct Hwhere as [(Harr & Hcap & _) | [Harr Hfresh]]; [| congruence].
        intros ->. apply Hnot. rewrite Harr. cbn. unfold array_of.
        rewrite decide_False by done. by left.
    + injection Hstep as <- <-.
      split_and!; [| done | by apply Forall_forall; left | done].
      cbn. split_and!; [done | done |].
      exists (processed ++ [source]). split; [by rewrite <- app_assoc |].
      rewrite createStreams_sources_app. cbn. by rewrite Hi.
  - (* the row *)
    injection Hstep as <- <-.
    destruct Hinv as (Hwf & Helems & Hwf_r & Hcap & Helems_r & Hi & processed & Hsources & ->).
    split_and!; [| done | | done].
    + cbn. split_and!; [done | done |].
      exists (processed ++ [source]). split; [by rewrite <- app_assoc |].
      rewrite createStreams_sources_app. cbn. unfold intersects in Hi.
      by rewrite Hi, Helems_r.
    + cbn. apply Forall_forall. intros a Ha. left. apply elem_of_app. by left.
  - injection Hstep as <- <-. split_and!; [done | done | done | done].
Qed.

Lemma goroutine_step_steps_left range target targetPrimary g mem :
  steps_left rs (goroutine_step spare range rs shared target targetPrimary g mem).1
    ≤ steps_left rs g - 1.
Proof.
  destruct g as [| copy [| source sources] ig | copy rules source sources ig | ig]; cbn.
  - destruct (slice_copy spare shared mem). cbn. lia.
  - lia.
  - destruct (negb _); [cbn; lia |]. destruct (slice_append _ _ _ _). cbn. lia.
  - lia.
  - lia.
Qed.

End GoroutineFacts.

Section InterleavingFacts.
Context `{Collaborators}.
Variable spare : nat → nat → nat.
Variables (ranges : ShardInfo → MapRange refStream) (rs : resharder).
Variables (shared : slice) (excludeRules : list Rule) (mem0 : memory).
Variable targets : list (ShardInfo * TabletInfo).
Hypothesis shared_wf : slice_wf shared mem0.
Hypothesis shared_elements : elements_of shared mem0 = excludeRules.

Lemma config_inv_initial :
  config_inv ranges rs excludeRules mem0 targets
    (mem0, replicate (length targets) AtCopy).
Proof.
  unfold config_inv. cbn. split_and!.
  - apply length_replicate.
  - done.
  - done.
  - intros i g target targetPrimary [-> _]%lookup_replicate _. done.
  - intros i j g g' a _ [-> _]%lookup_replicate _ Ha. by apply elem_of_nil in Ha.
Qed.

Lemma step_at_inv i cfg :
  config_inv ranges rs excludeRules mem0 targets cfg →
  config_inv ranges rs excludeRules mem0 targets
    (step_at (createStreams_step spare ranges rs shared) targets i cfg).
Proof.
  intros Hinv. unfold step_at, createStreams_step.
  destruct (targets !! i) as [[target targetPrimary] |] eqn:Htarget; [| done].
  destruct cfg as [mem gs]. cbn [fst snd] in *.
  destruct (gs !! i) as [g |] eqn:Hg; [| done].
  destruct (goroutine_step spare (ranges target) rs shared target targetPrimary g mem)
    as [g' mem'] eqn:Hstep.
  destruct Hinv as (Hlength & Hnext0 & Hold & Hall & Hdisjoint). cbn [fst snd] in *.
  destruct (Hall i g target targetPrimary Hg Htarget) as [Hg_inv Hg_owned].
  destruct (goroutine_step_inv spare rs shared excludeRules mem0 shared_wf shared_elements
              (ranges target) target targetPrimary g mem g' mem'
              Hnext0 Hold Hg_inv Hstep) as (Hg'_inv & Hnext & Hg'_owned & Hframe).
  rewrite Forall_forall in Hg_owned, Hg'_owned.
  assert (∀ j gj a, j ≠ i → gs !! j = Some gj → a ∈ owned gj →
            a < next mem ∧ next mem0 ≤ a ∧ arrays mem' !! a = arrays mem !! a) as Hother.
  { intros j gj a Hji Hgj Ha.
    pose proof (lookup_lt_Some _ _ _ Hgj) as Hlt. rewrite Hlength in Hlt.
    destruct (lookup_lt_is_Some_2 targets j Hlt) as [[tj pj] Htj].
    destruct (Hall j gj tj pj Hgj Htj) as [_ Hbound].
    rewrite Forall_forall in Hbound. destruct (Hbound a Ha) as [Hlo Hhi].
    split_and!; [done | done |]. apply Hframe; [| lia].
    by apply (Hdisjoint j i gj g a). }
  unfold config_inv. cbn [fst snd]. split_and!.
  - by rewrite length_insert.
  - lia.
  - intros a Ha. rewrite <- (Hold a Ha). apply Hframe; [| lia].
    intros Hin. destruct (Hg_owned a Hin). lia.
  - intros j gj tj pj Hgj Htj.
    destruct (decide (j = i)) as [-> | Hji].
    + rewrite list_lookup_insert_eq in Hgj by (by eapply lookup_lt_Some).
      injection Hgj as <-. rewrite Htarget in Htj. injection Htj as <- <-.
      split; [done |]. apply Forall_forall. intros a Ha.
      destruct (Hg'_owned a Ha) as [Hin | [-> Hlt]]; [| lia].
      destruct (Hg_owned a Hin). lia.
    + rewrite list_lookup_insert_ne in Hgj by done.
      destruct (Hall j gj tj pj Hgj Htj) as [Hgj_inv Hgj_owned].
      split.
      * apply (goroutine_inv_frame rs excludeRules (ranges tj) tj pj gj mem mem');
          [done | | done].
        intros a Ha. by destruct (Hother j gj a Hji Hgj Ha) as (_ & _ & ?).
      * apply Forall_forall. intros a Ha.
        destruct (Hother j gj a Hji Hgj Ha) as (? & ? & _). lia.
  - intros j k gj gk a Hjk Hgj Hgk Ha Ha'.
    destruct (decide (j = i)) as [-> | Hji]; destruct (decide (k = i)) as [-> | Hki].
    + done.
    + rewrite list_lookup_insert_eq in Hgj by (by eapply lookup_lt_Some).
      injection Hgj as <-. rewrite list_lookup_insert_ne in Hgk by done.
      destruct (Hother k gk a Hki Hgk Ha') as (Hlt & _ & _).
      destruct (Hg'_owned a Ha) as [Hin | [-> _]]; [| lia].
      by apply (Hdisjoint i k g gk a).
    + rewrite list_lookup_insert_eq in Hgk by (by eapply lookup_lt_Some).
      injection Hgk as <-. rewrite list_lookup_insert_ne in Hgj by done.
      destruct (Hother j gj a Hji Hgj Ha) as (Hlt & _ & _).
      destruct (Hg'_owned a Ha') as [Hin | [-> _]]; [| lia].
      by apply (Hdisjoint j i gj g a).
    + rewrite list_lookup_insert_ne in Hgj, Hgk by done.
      by apply (Hdisjoint j k gj gk a).
Qed.

Lemma interleave_inv schedule cfg :
  config_inv ranges rs excludeRules mem0 targets cfg →
  config_inv ranges rs excludeRules mem0 targets
    (interleave (createStreams_step spare ranges rs shared) targets schedule cfg).
Proof.
  revert cfg. induction schedule as [| i rest IH]; intros cfg Hinv; [done |].
  cbn. by apply IH, step_at_inv.
Qed.

(** Every time it is scheduled a goroutine has a step less to go. *)
Lemma step_at_steps_left i j cfg g :
  length cfg.2 = length targets →
  cfg.2 !! j = Some g →
  ∃ g', (step_at (createStreams_step spare ranges rs shared) targets i cfg).2 !! j = Some g'
        ∧ length (step_at (createStreams_step spare ranges rs shared) targets i cfg).2 = length targets
        ∧ steps_left rs g' ≤ steps_left rs g - (if decide (i = j) then 1 else 0).
Proof.
  intros Hlength Hg. unfold step_at, createStreams_step.
  destruct (targets !! i) as [[target targetPrimary] |] eqn:Htarget.
  2: { exists g. split_and!; [done | done | ].
       case_decide as Hij; [| lia]. subst j.
       apply lookup_lt_Some in Hg. rewrite Hlength in Hg.
       apply lookup_ge_None in Htarget. lia. }
  destruct (cfg.2 !! i) as [gi |] eqn:Hgi.
  2: { exists g. split_and!; [done | done |].
       case_decide as Hij; [| lia]. subst j. congruence. }
  pose proof (goroutine_step_steps_left spare rs shared (ranges target) target
                targetPrimary gi cfg.1) as Hless.
  destruct (goroutine_step _ _ _ _ _ _ gi cfg.1) as [gi' mem']. cbn [fst snd] in *.
  case_decide as Hij.
  - subst j. exists gi'. rewrite list_lookup_insert_eq by (by eapply lookup_lt_Some).
    rewrite length_insert. split_and!; [done | done |]. congruence.
  - exists g. rewrite list_lookup_insert_ne by done. rewrite length_insert.
    split_and!; [done | done | lia].
Qed.

Lemma interleave_steps_left schedule j cfg g :
  length cfg.2 = length targets →
  cfg.2 !! j = Some g →
  ∃ g', (interleave (createStreams_step spare ranges rs shared) targets schedule cfg).2 !! j = Some g'
        ∧ steps_left rs g' ≤ steps_left rs g - scheduled j schedule.
Proof.
  revert cfg g. induction schedule as [| i rest IH]; intros cfg g Hlength Hg.
  - exists g. split; [done | unfold scheduled; cbn; lia].
  - destruct (step_at_steps_left i j cfg g Hlength Hg) as (g1 & Hg1 & Hlength1 & Hless1).
    destruct (IH _ g1 Hlength1 Hg1) as (g' & Hg' & Hless).
    exists g'. split; [done |].
    unfold scheduled in *. cbn [foldl].
    destruct (decide (i = j)) as [-> | Hij].
    + rewrite filter_cons_True by done. cbn. lia.
    + rewrite filter_cons_False by done. lia.
Qed.

End InterleavingFacts.

Section ExcludeRulesFacts.
Context `{Collaborators}.

(** One exclude rule for every reference table of the vschema. *)
Lemma createStreams_excludeRules_tables (rangeTables : MapRange Table) (vs : Keyspace) :
  let excludeRules := createStreams_excludeRules (rangeTables (Tables vs)) [] in
  NoDup excludeRules
  ∧ ∀ rule, rule ∈ excludeRules
      ↔ ∃ tableName table,
          Tables vs !! tableName = Some table
          ∧ table_Type table = TypeReference
          ∧ rule = mkRule tableName "exclude".
Proof.
  cbn zeta. rewrite createStreams_excludeRules_spec. cbn [app].
  assert (NoDup (rangeTables (Tables vs))) as Hnodup.
  { rewrite (range_perm rangeTables). apply NoDup_map_to_list. }
  assert (∀ entry, entry ∈ rangeTables (Tables vs) ↔ Tables vs !! entry.1 = Some entry.2)
    as Hentries.
  { intros [tableName table]. rewrite (range_perm rangeTables).
    apply elem_of_map_to_list. }
  split.
  - apply NoDup_fmap_2_strong; [| by apply NoDup_filter].
    intros [n1 t1] [n2 t2] [_ H1%Hentries]%list_elem_of_filter
      [_ H2%Hentries]%list_elem_of_filter [= ->].
    cbn in *. congruence.
  - intros rule. rewrite list_elem_of_fmap. split.
    + intros ([tableName table] & -> & [Href Hin%Hentries]%list_elem_of_filter).
      by exists tableName, table.
    + intros (tableName & table & Hlook & Href & ->).
      exists (tableName, table). split; [done |].
      apply list_elem_of_filter. split; [done |]. by apply Hentries.
Qed.

End ExcludeRulesFacts.

(** C7. [excludeRules] holds exactly one rule [{match: tableName,
    filter: "exclude"}] for every reference table of the vschema. For
    every target, the sharded rows of its generator carry the filter
    [excludeRules ++ [{match: "/.*", filter: <key range of the target>}]].
    This stays so when the slices live in a shared memory: built by
    appends, [excludeRules] reads as the same rules; and however the
    steps of the targets' goroutines interleave and whatever spare
    capacity the runtime gives to the arrays it allocates, a goroutine
    that has reached its statement holds the generator it would have
    filled running alone, because it appended to its own copy. Every
    goroutine reaches its statement once it has been scheduled
    [2 * len(rs.sourceShards) + 2] times. *)
Theorem createStreams_filter_shape `{Collaborators} (spare : nat → nat → nat)
    (rangeTables : MapRange Table) (ranges : ShardInfo → MapRange refStream)
    (rs : resharder) (vs : Keyspace) (targets : list (ShardInfo * TabletInfo))
    (schedule : list nat) :
  let excludeRules := createStreams_excludeRules (rangeTables (Tables vs)) [] in
  let run := createStreams_interleaved spare rangeTables ranges rs vs targets schedule in
  (NoDup excludeRules
   ∧ ∀ rule, rule ∈ excludeRules
       ↔ ∃ tableName table,
           Tables vs !! tableName = Some table
           ∧ table_Type table = TypeReference
           ∧ rule = mkRule tableName "exclude")
  ∧ (∀ target targetPrimary,
       ∃ shardedRows,
         ig_rows (createStreams_generator (ranges target) rs excludeRules target targetPrimary)
           = shardedRows ++ (ref_row rs <$> (range_refStreams (ranges target) rs).*2)
         ∧ length shardedRows = length (filter (intersects target) (sourceShards rs))
         ∧ Forall (λ row,
             bls_Filter (row_bls row)
               = Some (mkFilter
                         (excludeRules
                            ++ [mkRule "/.*" (KeyRangeString (ShardKeyRange target))])))
             shardedRows)
  ∧ (∀ i target targetPrimary ig,
       targets !! i = Some (target, targetPrimary) →
       run.2 !! i = Some (AtExec ig) →
       ig = createStreams_generator (ranges target) rs excludeRules target targetPrimary)
  ∧ ((∀ i, i < length targets → 2 * length (sourceShards rs) + 2 ≤ scheduled i schedule) →
       ∀ i, i < length targets → ∃ ig, run.2 !! i = Some (AtExec ig)).
Proof.
  intros excludeRules run. split_and!.
  - apply createStreams_excludeRules_tables.
  - apply createStreams_excludeRules_tables.
  - intros target targetPrimary.
    exists (sharded_row rs target excludeRules <$> filter (intersects target) (sourceShards rs)).
    split_and!.
    + apply createStreams_generator_rows.
    + by rewrite length_fmap.
    + by apply Forall_fmap, Forall_forall.
  - subst run. unfold createStreams_interleaved.
    destruct (excludeRules_slice spare (rangeTables (Tables vs)) nil_slice (mkMemory ∅ 0))
      as [shared mem0] eqn:Hbuild.
    apply excludeRules_slice_spec in Hbuild as [Helems Hwf]; [| apply slice_wf_nil].
    change (elements_of nil_slice (mkMemory ∅ 0)) with (@nil Rule) in Helems.
    fold excludeRules in Helems.
    pose proof (interleave_inv spare ranges rs shared excludeRules mem0 targets Hwf Helems
                  schedule _ (config_inv_initial ranges rs excludeRules mem0 targets))
      as (_ & _ & _ & Hall & _).
    intros i target targetPrimary ig Htarget Hg.
    by destruct (Hall i (AtExec ig) target targetPrimary Hg Htarget) as [Hinv _].
  - subst run. unfold createStreams_interleaved.
    destruct (excludeRules_slice spare (rangeTables (Tables vs)) nil_slice (mkMemory ∅ 0))
      as [shared mem0].
    intros Hfair i Hi.
    destruct (interleave_steps_left spare ranges rs shared targets schedule i
                (mem0, replicate (length targets) AtCopy) AtCopy) as (g & Hg & Hleft).
    { apply length_replicate. }
    { by apply lookup_replicate. }
    specialize (Hfair i Hi). cbn [steps_left] in Hleft.
    destruct g as [| copy sources ig | copy rules source sources ig | ig];
      cbn [steps_left] in Hleft; [lia | lia | lia |].
    by exists ig.
Qed.

(** Why the copy matters. Without it the two goroutines append in place
    to the spare capacity of the one shared array: when the goroutine of
    [40-80] appends between the append and the [AddRow] of the goroutine
    of [-40], the row for [-40] carries the key range [40-80]. *)
Lemma appending_to_the_shared_slice_interferes :
  let rs := Fixture.a_resharder ["-80"; "80-"] ["-40"; "40-80"] in
  let '(excludeRules, mem) :=
    excludeRules_slice Fixture.two_spare (Fixture.in_order (Tables Fixture.the_vschema))
      nil_slice (mkMemory ∅ 0) in
  let run :=
    interleave
      (@sharing_step Fixture.cluster Fixture.two_spare (λ _, Fixture.in_order) rs excludeRules)
      Fixture.two_targets [0; 1; 0; 1; 0] (mem, [AtCopy; AtCopy]) in
  ∃ copyExcludeRules sources ig row,
    run.2 !! 0 = Some (AtLoop copyExcludeRules sources ig)
    ∧ ig_rows ig = [row]
    ∧ bls_Filter (row_bls row)
      = Some (mkFilter [mkRule "country" "exclude"; mkRule "/.*" "40-80"]).
Proof. vm_compute. by do 4 eexists. Qed.

(** ** readRefStreams *)

Section RowsFacts.
Context `{Collaborators}.
Implicit Types (rs : resharder) (rows : list (list string)) (ref : gset string)
  (streams : gmap string refStream).

(** *** Comparing keys *)

Lemma consume_Ok keys ref ref' :
  consume keys ref = Ok ref'
  ↔ NoDup keys.*2 ∧ list_to_set keys.*2 ⊆ ref ∧ ref' = ref ∖ list_to_set keys.*2.
Proof.
  revert ref. induction keys as [| [workflow key] rest IH]; intros ref; cbn.
  - rewrite NoDup_nil. split; [intros [= <-] | intros (_ & _ & ->)]; [| f_equal]; set_solver.
  - case_bool_decide as Hkey.
    + rewrite IH, NoDup_cons. split.
      * intros (Hnodup & Hsub & ->). split_and!; [| done | | ]; set_solver.
      * intros ((Hnotin & Hnodup) & Hsub & ->). split_and!; [done | | ]; set_solver.
    + split; [done |]. intros (_ & Hsub & _). set_solver.
Qed.

Lemma consume_Err keys ref err : consume keys ref = Err err → is_mismatch err = true.
Proof.
  revert ref. induction keys as [| [workflow key] rest IH]; intros ref; cbn; [done |].
  case_bool_decide; [apply IH | by intros [= <-]].
Qed.

Lemma consume_Err_workflow keys ref err :
  consume keys ref = Err err →
  ∃ workflow, workflow ∈ keys.*1 ∧ err = mismatch_for workflow.
Proof.
  revert ref. induction keys as [| [workflow key] rest IH]; intros ref; cbn; [done |].
  case_bool_decide.
  - intros (workflow' & Hin & ->)%IH. exists workflow'. split; [by right | done].
  - intros [= <-]. exists workflow. split; [by left | done].
Qed.

Lemma consume_no_panic keys ref : consume keys ref ≠ Panic.
Proof.
  revert ref. induction keys as [| [workflow key] rest IH]; intros ref; cbn; [done |].
  case_bool_decide; [apply IH | done].
Qed.

(** *** Writing entries *)

Lemma write_all_lookup streams entries key rstream :
  write_all streams entries !! key = Some rstream →
  streams !! key = Some rstream ∨ (key, rstream) ∈ entries.
Proof.
  revert streams. induction entries as [| [k v] rest IH]; intros streams; cbn; [by left |].
  intros [Hlook | Hin]%IH; [| right; by right].
  rewrite lookup_insert in Hlook. case_decide; [| by left].
  injection Hlook as <-. subst. right. by left.
Qed.

Lemma write_all_dom streams entries :
  dom (write_all streams entries) = dom streams ∪ list_to_set entries.*1.
Proof.
  revert streams. induction entries as [| [k v] rest IH]; intros streams; cbn.
  - set_solver.
  - rewrite IH, dom_insert_L. set_solver.
Qed.

(** *** The loop over the rows *)

Lemma row_ok_inv rs row :
  row_ok rs row →
  ∃ workflow rowBytes cell tabletTypes bls isReference,
    row !! 0%nat = Some workflow ∧ row !! 1%nat = Some rowBytes
    ∧ row !! 2%nat = Some cell ∧ row !! 3%nat = Some tabletTypes
    ∧ workflow ≠ ""
    ∧ prototext_Unmarshal rowBytes = inr bls
    ∧ blsIsReference rs bls = Ok isReference.
Proof.
  intros (workflow & rowBytes & cell & tabletTypes & bls & isReference
          & -> & Hname & Hparse & Hclass).
  by exists workflow, rowBytes, cell, tabletTypes, bls, isReference.
Qed.

(** In comparing mode the loop leaves [rs.refStreams] alone, and when
    it gets through the rows it has consumed the reported keys. *)
Lemma readRefStreams_rows_compare rs source rows streams ref r streams' :
  readRefStreams_rows rs source false rows streams ref = (r, streams') →
  streams' = streams
  ∧ (∀ ref', r = Ok ref' → consume (omap (ref_key rs) rows) ref = Ok ref').
Proof.
  revert ref r streams'.
  induction rows as [| row rest IH]; intros ref r streams'; cbn [readRefStreams_rows].
  - intros [= <- <-]. done.
  - unfold ref_key at 1. cbn [omap list_omap].
    fold (ref_key rs row). unfold ref_key.
    destruct (row !! 0%nat) as [workflow |]; [| by intros [= <- <-]].
    case_bool_decide; [by intros [= <- <-] |].
    destruct (row !! 1%nat) as [rowBytes |]; [| by intros [= <- <-]].
    destruct (prototext_Unmarshal rowBytes) as [err | bls]; [by intros [= <- <-] |].
    destruct (blsIsReference rs bls) as [[|] | err |];
      [| apply IH | by intros [= <- <-] ..].
    cbn [consume]. case_bool_decide; cbn [negb]; [apply IH | by intros [= <- <-]].
Qed.

Lemma readRefStreams_rows_compare_ok rs source rows streams ref :
  Forall (row_ok rs) rows →
  readRefStreams_rows rs source false rows streams ref
    = (consume (omap (ref_key rs) rows) ref, streams).
Proof.
  intros Hrows. revert ref.
  induction Hrows as [| row rest Hrow _ IH]; intros ref; [done |].
  apply row_ok_inv in Hrow
    as (workflow & rowBytes & cell & tabletTypes & bls & isReference
        & H0 & H1 & H2 & H3 & Hname & Hparse & Hclass).
  cbn [readRefStreams_rows omap list_omap]. unfold ref_key at 1.
  rewrite H0, H1, Hparse, Hclass, bool_decide_eq_false_2 by done.
  destruct isReference; [| apply IH].
  cbn [consume]. case_bool_decide; cbn [negb]; [apply IH | done].
Qed.

(** In defining mode the loop leaves [ref] alone; every entry it wrote
    stands for a row; when it gets through the rows it has written the
    entries of all of them, in order. *)
Lemma readRefStreams_rows_create rs source rows streams ref r streams' :
  readRefStreams_rows rs source true rows streams ref = (r, streams') →
  (∀ key rstream, streams' !! key = Some rstream →
     streams !! key = Some rstream
     ∨ ∃ row, row ∈ rows ∧ ref_entry rs row = Some (key, rstream))
  ∧ (∀ ref', r = Ok ref' →
       ref' = ref
       ∧ streams' = write_all streams (omap (ref_entry rs) rows)
       ∧ (omap (ref_entry rs) rows).*1 = ref_keys rs rows).
Proof.
  revert streams r streams'.
  induction rows as [| row rest IH]; intros streams r streams';
    cbn [readRefStreams_rows].
  - intros [= <- <-]. split; [by left |]. by intros ? [= <-].
  - destruct (row !! 0%nat) as [workflow |] eqn:H0;
      [| intros [= <- <-]; split; [by left | done]].
    case_bool_decide as Hname; [intros [= <- <-]; split; [by left | done] |].
    destruct (row !! 1%nat) as [rowBytes |] eqn:H1;
      [| intros [= <- <-]; split; [by left | done]].
    destruct (prototext_Unmarshal rowBytes) as [err | bls] eqn:Hparse;
      [intros [= <- <-]; split; [by left | done] |].
    destruct (blsIsReference rs bls) as [[|] | err |] eqn:Hclass;
      [| | intros [= <- <-]; split; [by left | done] ..].
    + destruct (row !! 2%nat) as [cell |] eqn:H2;
        [| intros [= <- <-]; split; [by left | done]].
      destruct (row !! 3%nat) as [tabletTypes |] eqn:H3;
        [| intros [= <- <-]; split; [by left | done]].
      assert (ref_entry rs row
              = Some (refKey workflow bls, mkRefStream workflow bls cell tabletTypes))
        as Hentry.
      { unfold ref_entry.
        by rewrite H0, H1, H2, H3, Hparse, Hclass, bool_decide_eq_false_2. }
      assert (ref_key rs row = Some (workflow, refKey workflow bls)) as Hkey.
      { unfold ref_key. by rewrite H0, H1, Hparse, Hclass, bool_decide_eq_false_2. }
      intros Hrun. apply IH in Hrun as [Hentries Hok]. split.
      * intros key rstream [Hlook | (row' & Hin & Hentry')]%Hentries.
        -- rewrite lookup_insert in Hlook. case_decide as Hk; [| by left].
           injection Hlook as <-. subst key. right. exists row. split; [by left | done].
        -- right. exists row'. split; [by right | done].
      * intros ref' Hr. destruct (Hok ref' Hr) as (-> & -> & Hkeys).
        unfold ref_keys in *. cbn [omap list_omap]. rewrite Hentry, Hkey. cbn.
        by rewrite Hkeys.
    + assert (ref_entry rs row = None) as Hentry.
      { unfold ref_entry. rewrite H0, H1, Hparse, Hclass, bool_decide_eq_false_2 by done.
        by destruct (row !! 2%nat), (row !! 3%nat). }
      assert (ref_key rs row = None) as Hkey.
      { unfold ref_key. by rewrite H0, H1, Hparse, Hclass, bool_decide_eq_false_2. }
      intros Hrun. apply IH in Hrun as [Hentries Hok]. split.
      * intros key rstream [Hlook | (row' & Hin & Hentry')]%Hentries; [by left |].
        right. exists row'. split; [by right | done].
      * intros ref' Hr. destruct (Hok ref' Hr) as (-> & -> & Hkeys).
        unfold ref_keys in *. cbn [omap list_omap]. by rewrite Hentry, Hkey.
Qed.

Lemma readRefStreams_rows_create_ok rs source rows streams ref :
  Forall (row_ok rs) rows →
  (readRefStreams_rows rs source true rows streams ref).1 = Ok ref.
Proof.
  intros Hrows. revert streams.
  induction Hrows as [| row rest Hrow _ IH]; intros streams; [done |].
  apply row_ok_inv in Hrow
    as (workflow & rowBytes & cell & tabletTypes & bls & isReference
        & H0 & H1 & H2 & H3 & Hname & Hparse & Hclass).
  cbn [readRefStreams_rows].
  rewrite H0, H1, H2, H3, Hparse, Hclass, bool_decide_eq_false_2 by done.
  destruct isReference; apply IH.
Qed.

(** *** The part under the mutex *)

Lemma set_refStreams_same rs (v : option (gmap string refStream)) :
  refStreams rs = v → set_refStreams v rs = rs.
Proof. intros <-. by destruct rs. Qed.

(** The source that finds [rs.refStreams] nil defines it. *)
Lemma readRefStreams_merge_define rs source qr :
  refStreams rs = None →
  ∃ m,
    (readRefStreams_merge rs source qr).2 = set_refStreams (Some m) rs
    ∧ (∀ key rstream, m !! key = Some rstream →
         ∃ row, row ∈ Rows qr ∧ ref_entry rs row = Some (key, rstream))
    ∧ ((readRefStreams_merge rs source qr).1 = Ok tt →
         m = write_all ∅ (omap (ref_entry rs) (Rows qr))
         ∧ dom m = reported rs (Rows qr))
    ∧ (Forall (row_ok rs) (Rows qr) → (readRefStreams_merge rs source qr).1 = Ok tt).
Proof.
  intros Hnil. unfold readRefStreams_merge. rewrite Hnil.
  destruct (readRefStreams_rows rs source true (Rows qr) ∅ ∅) as [r m] eqn:Hrun.
  pose proof (readRefStreams_rows_create_ok rs source (Rows qr) ∅ ∅) as Hwf.
  rewrite Hrun in Hwf. cbn in Hwf.
  apply readRefStreams_rows_create in Hrun as [Hentries Hok].
  exists m. split_and!.
  - by destruct r as [ref' | err |]; [case_bool_decide | ..].
  - intros key rstream [Hlook | Hrow]%Hentries; [| done].
    by rewrite lookup_empty in Hlook.
  - destruct r as [ref' | err |]; [| done | done].
    destruct (Hok ref' eq_refl) as (-> & -> & Hkeys).
    intros _. split; [done |].
    rewrite write_all_dom, Hkeys. unfold reported. set_solver.
  - intros Hrows. rewrite (Hwf Hrows). by rewrite bool_decide_eq_false_2 by (by intros []).
Qed.

(** Every later source is compared with it. *)
Lemma readRefStreams_merge_compare rs source qr m :
  refStreams rs = Some m →
  (readRefStreams_merge rs source qr).2 = rs
  ∧ ((readRefStreams_merge rs source qr).1 = Ok tt →
       NoDup (ref_keys rs (Rows qr)) ∧ reported rs (Rows qr) = dom m)
  ∧ (Forall (row_ok rs) (Rows qr) →
       (NoDup (ref_keys rs (Rows qr)) ∧ reported rs (Rows qr) = dom m →
          (readRefStreams_merge rs source qr).1 = Ok tt)
       ∧ (∀ err, (readRefStreams_merge rs source qr).1 = Err err →
            is_mismatch err = true)
       ∧ (readRefStreams_merge rs source qr).1 ≠ Panic).
Proof.
  intros Hsome. unfold readRefStreams_merge. rewrite Hsome.
  destruct (readRefStreams_rows rs source false (Rows qr) m (dom m)) as [r m'] eqn:Hrun.
  pose proof (readRefStreams_rows_compare_ok rs source (Rows qr) m (dom m)) as Hwf.
  rewrite Hrun in Hwf.
  apply readRefStreams_rows_compare in Hrun as [-> Hok].
  rewrite (set_refStreams_same rs (Some m) Hsome).
  split_and!.
  - by destruct r as [ref' | err |]; [case_bool_decide | ..].
  - destruct r as [ref' | err |]; [| done | done].
    case_bool_decide as Hleft; [done |]. intros _.
    pose proof (Hok ref' eq_refl) as Hc.
    apply consume_Ok in Hc as (Hnodup & Hsub & Href).
    split; [done |]. unfold reported, ref_keys. rewrite Hleft in Href.
    apply set_eq. intros key. split; [by apply Hsub |]. intros Hkey.
    destruct (decide (key ∈ (list_to_set (omap (ref_key rs) (Rows qr)).*2 : gset string)))
      as [| Hnot]; [done |].
    assert (key ∈ (∅ : gset string)) as Hempty; [| by apply not_elem_of_empty in Hempty].
    rewrite Href. by apply elem_of_difference.
  - intros Hrows. specialize (Hwf Hrows). injection Hwf as ->.
    split_and!.
    + intros [Hnodup Hrep].
      destruct (consume (omap (ref_key rs) (Rows qr)) (dom m)) as [ref' | err |] eqn:Hc.
      * apply consume_Ok in Hc as (_ & _ & ->).
        rewrite bool_decide_eq_false_2; [done |].
        unfold reported, ref_keys in Hrep. rewrite Hrep. intros Hne. apply Hne.
        apply set_eq. intros key. rewrite elem_of_difference.
        split; [by intros [? ?] | by intros ?%not_elem_of_empty].
      * exfalso. assert (consume (omap (ref_key rs) (Rows qr)) (dom m)
                         = Ok (dom m ∖ list_to_set (omap (ref_key rs) (Rows qr)).*2))
          as Hc'; [| congruence].
        apply consume_Ok. split_and!; [done | | done].
        unfold reported, ref_keys in Hrep. by rewrite Hrep.
      * by apply consume_no_panic in Hc.
    + intros err.
      destruct (consume (omap (ref_key rs) (Rows qr)) (dom m)) as [ref' | err' |] eqn:Hc.
      * case_bool_decide; [by intros [= <-] | done].
      * intros [= <-]. by eapply consume_Err.
      * done.
    + destruct (consume (omap (ref_key rs) (Rows qr)) (dom m)) as [ref' | err' |] eqn:Hc.
      * by case_bool_decide.
      * done.
      * by apply consume_no_panic in Hc.
Qed.

(** A later source that reports a key twice fails at the second
    occurrence at the latest, although it reports the keys of the
    map. *)
Lemma readRefStreams_merge_duplicate rs source qr m :
  refStreams rs = Some m →
  Forall (row_ok rs) (Rows qr) →
  reported rs (Rows qr) = dom m →
  ¬ NoDup (ref_keys rs (Rows qr)) →
  ∃ workflow,
    workflow ∈ (omap (ref_key rs) (Rows qr)).*1
    ∧ (readRefStreams_merge rs source qr).1 = Err (mismatch_for workflow).
Proof.
  intros Hsome Hrows Hrep Hdup. unfold readRefStreams_merge. rewrite Hsome.
  rewrite (readRefStreams_rows_compare_ok rs source (Rows qr) m (dom m) Hrows).
  destruct (consume (omap (ref_key rs) (Rows qr)) (dom m)) as [ref' | err |] eqn:Hc.
  - by apply consume_Ok in Hc as (Hnodup & _).
  - apply consume_Err_workflow in Hc as (workflow & Hin & ->). by exists workflow.
  - by apply consume_no_panic in Hc.
Qed.

End RowsFacts.

Section ReadRefStreamsFacts.
Context `{Collaborators}.
Implicit Types (rs : resharder) (rows : list (list string)).

(** *** What does not depend on [rs.refStreams] *)

Lemma identifyRuleType_agree rs rs' rule :
  agree rs rs' → identifyRuleType rs rule = identifyRuleType rs' rule.
Proof. intros Hagree%agree_vschema. unfold identifyRuleType. by rewrite Hagree. Qed.

Lemma blsIsReference_agree rs rs' bls :
  agree rs rs' → blsIsReference rs bls = blsIsReference rs' bls.
Proof.
  intros Hagree. unfold blsIsReference. destruct (bls_Filter bls) as [filter |]; [| done].
  generalize StreamTypeUnknown.
  induction (filter_Rules filter) as [| rule rest IH]; intros streamType; [done |].
  cbn. rewrite (identifyRuleType_agree rs rs' rule Hagree).
  destruct (identifyRuleType rs' rule) as [[] | err |]; try done;
    try case_bool_decide; try done; apply IH.
Qed.

Lemma ref_key_agree rs rs' row : agree rs rs' → ref_key rs row = ref_key rs' row.
Proof.
  intros Hagree. unfold ref_key.
  destruct (row !! 0%nat), (row !! 1%nat); try done.
  case_bool_decide; [done |].
  destruct (prototext_Unmarshal _) as [err | bls]; [done |].
  by rewrite (blsIsReference_agree rs rs' bls Hagree).
Qed.

Lemma omap_ref_key_agree rs rs' rows :
  agree rs rs' → omap (ref_key rs) rows = omap (ref_key rs') rows.
Proof.
  intros Hagree. induction rows as [| row rest IH]; [done |].
  cbn. by rewrite IH, (ref_key_agree rs rs' row Hagree).
Qed.

Lemma reported_agree rs rs' rows : agree rs rs' → reported rs rows = reported rs' rows.
Proof.
  intros Hagree. unfold reported, ref_keys. by rewrite (omap_ref_key_agree rs rs').
Qed.

Lemma row_ok_agree rs rs' row : agree rs rs' → row_ok rs row → row_ok rs' row.
Proof.
  intros Hagree (workflow & rowBytes & cell & tabletTypes & bls & isReference
                 & Hrow & Hname & Hparse & Hclass).
  exists workflow, rowBytes, cell, tabletTypes, bls, isReference.
  by rewrite <- (blsIsReference_agree rs rs' bls Hagree).
Qed.

Lemma agree_sources rs rs' :
  agree rs rs' →
  sourceShards rs = sourceShards rs' ∧ sourcePrimaries rs = sourcePrimaries rs'.
Proof. unfold agree, set_refStreams. by intros [=]. Qed.

Lemma agree_sym rs rs' : agree rs rs' → agree rs' rs.
Proof. unfold agree. congruence. Qed.

(** *** A goroutine of [readRefStreams] *)

Lemma readRefStreams_task_enumerated rs w answer source st :
  enumerated rs w answer →
  source ∈ sourceShards rs →
  agree rs (st_rs st) →
  st_world st = w →
  (readRefStreams_task source st).1
    = (readRefStreams_merge (st_rs st) source (answer source)).1
  ∧ st_rs (readRefStreams_task source st).2
    = (readRefStreams_merge (st_rs st) source (answer source)).2
  ∧ st_world (readRefStreams_task source st).2 = w.
Proof.
  intros Henum Hin Hagree Hw.
  destruct (Henum source Hin) as (sourcePrimary & Hprimary & Hanswer).
  destruct (agree_sources rs (st_rs st) Hagree) as [_ Hprimaries].
  unfold readRefStreams_task, bind, get, VReplicationExec, readRefStreams_locked.
  rewrite <- Hprimaries, Hprimary, Hw, Hanswer. cbn.
  by destruct (readRefStreams_merge (st_rs st) source (answer source)) as [r rs'].
Qed.

Lemma Forall_or_Exists_Panic {A} (g : A → result unit) (l : list A) :
  Forall (λ x, g x ≠ Panic) l ∨ Exists (λ x, g x = Panic) l.
Proof.
  induction l as [| x l [IH | IH]].
  - by left.
  - destruct (g x) as [[] | err |] eqn:Hg.
    + left. constructor; [by rewrite Hg | done].
    + left. constructor; [by rewrite Hg | done].
    + right. by left.
  - right. by right.
Qed.

(** *** The whole fan-out

    With [rs.refStreams] nil at the start and the answers of the
    sources fixed, the goroutine that runs first defines the map and
    the others are compared with it. *)
Lemma readRefStreams_run (sched : Scheduler) st answer first others :
  refStreams (st_rs st) = None →
  enumerated (st_rs st) (st_world st) answer →
  sched (sourceShards (st_rs st)) = first :: others →
  let rs := st_rs st in
  let definer := readRefStreams_merge rs first (answer first) in
  let outcome := λ source, (readRefStreams_merge definer.2 source (answer source)).1 in
  let run := readRefStreams sched st in
  st_rs run.2 = definer.2
  ∧ (definer.1 = Panic → run.1 = Panic)
  ∧ (Exists (λ source, outcome source = Panic) others → run.1 = Panic)
  ∧ (definer.1 ≠ Panic → Forall (λ source, outcome source ≠ Panic) others →
       run.1 = AggrError (errors_of (definer.1 :: (outcome <$> others)))).
Proof.
  intros Hnil Henum Hsched rs definer outcome run.
  assert (∀ source, source ∈ first :: others → source ∈ sourceShards rs) as Hsources.
  { intros source Hin. rewrite <- Hsched in Hin. by rewrite (sched_perm sched) in Hin. }
  destruct (readRefStreams_merge_define rs first (answer first) Hnil)
    as (m & Hdefined & _).
  fold definer in Hdefined.
  assert (agree rs definer.2) as Hagree by (rewrite Hdefined; apply agree_set_refStreams).
  destruct (readRefStreams_task_enumerated rs (st_world st) answer first st)
    as (Hr1 & Hrs1 & Hw1); [done | apply Hsources; by left | apply agree_refl | done |].
  fold rs definer in Hr1, Hrs1.
  set (I := λ st' : state, st_rs st' = definer.2 ∧ st_world st' = st_world st).
  assert (∀ source st', source ∈ others → I st' →
          (readRefStreams_task source st').1 = outcome source
          ∧ I (readRefStreams_task source st').2) as Htask.
  { intros source st' Hin [Hrs' Hw'].
    destruct (readRefStreams_task_enumerated rs (st_world st) answer source st')
      as (Hr & Hrs2 & Hw2); [done | apply Hsources; by right | by rewrite Hrs' | done |].
    rewrite Hrs' in Hr, Hrs2.
    destruct (readRefStreams_merge_compare definer.2 source (answer source) m)
      as (Hsame & _); [by rewrite Hdefined |].
    unfold I. by rewrite Hr, Hrs2, Hsame. }
  subst run. unfold readRefStreams, forAll, bind, get, lift.
  rewrite Hsched. cbn [forAll_run].
  destruct (readRefStreams_task first st) as [r1 st1]. cbn in Hr1, Hrs1, Hw1. subst r1.
  destruct definer.1 as [[] | err |] eqn:Hdefiner.
  - destruct (forAll_run_outcomes I outcome readRefStreams_task others [] st1 Htask)
      as (HI & Hok & Hpanic); [done |].
    destruct (forAll_run readRefStreams_task others [] st1) as [r st2]. cbn in *.
    split_and!; [by destruct HI as [HI _]; destruct r | done | |].
    + intros Hex. by rewrite (Hpanic Hex).
    + intros _ Hall. by rewrite (Hok Hall).
  - destruct (forAll_run_outcomes I outcome readRefStreams_task others
                (RecordError [] err) st1 Htask) as (HI & Hok & Hpanic); [done |].
    destruct (forAll_run readRefStreams_task others (RecordError [] err) st1)
      as [r st2]. cbn in *.
    split_and!; [by destruct HI as [HI _]; destruct r | done | |].
    + intros Hex. by rewrite (Hpanic Hex).
    + intros _ Hall. by rewrite (Hok Hall).
  - cbn. split_and!; done.
Qed.

End ReadRefStreamsFacts.

(** C4. Let [rs.refStreams] be nil when [readRefStreams] starts and let
    every source answer the enumerating query. The source whose goroutine
    runs first defines the map: every entry stands for one of its rows,
    and when its rows are well formed the keys of the map are the
    [refKey]s it reports. Every source processed after it is compared
    with the map: when the set of [refKey]s it reports differs from the
    keys of the map (it reports a key the map lacks, or the map holds a
    key it never reports), [readRefStreams] fails; when that source's
    rows are well formed and no goroutine panics, the failure is an
    aggregate that holds a "streams are mismatched across source shards"
    error. *)
Theorem readRefStreams_cross_source_agreement `{Collaborators}
    (sched : Scheduler) (st : state) (answer : ShardInfo → QueryResult)
    (first : ShardInfo) (others : list ShardInfo) :
  refStreams (st_rs st) = None →
  enumerated (st_rs st) (st_world st) answer →
  sched (sourceShards (st_rs st)) = first :: others →
  let rs := st_rs st in
  let run := readRefStreams sched st in
  ∃ m,
    refStreams (st_rs run.2) = Some m
    ∧ (∀ key rstream, m !! key = Some rstream →
         ∃ row, row ∈ Rows (answer first) ∧ ref_entry rs row = Some (key, rstream))
    ∧ (Forall (row_ok rs) (Rows (answer first)) →
         dom m = reported rs (Rows (answer first)))
    ∧ (∀ source, source ∈ others →
         reported rs (Rows (answer source)) ≠ dom m →
         run.1 ≠ Ok tt
         ∧ (Forall (row_ok rs) (Rows (answer source)) → run.1 ≠ Panic →
              ∃ errs err, run.1 = Err (Aggregate errs)
                          ∧ err ∈ errs ∧ is_mismatch err = true)).
Proof.
  intros Hnil Henum Hsched rs run.
  destruct (readRefStreams_run sched st answer first others Hnil Henum Hsched)
    as (Hrs & Hpanic1 & Hpanic2 & Hok).
  fold rs run in Hrs, Hpanic1, Hpanic2, Hok.
  destruct (readRefStreams_merge_define rs first (answer first) Hnil)
    as (m & Hdefined & Hentries & Hdom & Hwf).
  set (definer := readRefStreams_merge rs first (answer first)) in *.
  set (outcome := λ source, (readRefStreams_merge definer.2 source (answer source)).1) in *.
  assert (agree rs definer.2) as Hagree by (rewrite Hdefined; apply agree_set_refStreams).
  exists m. split_and!.
  - by rewrite Hrs, Hdefined.
  - done.
  - intros Hrows. by apply Hdom, Hwf.
  - intros source Hin Hdiff.
    destruct (readRefStreams_merge_compare definer.2 source (answer source) m)
      as (_ & Hsame & Hcompare); [by rewrite Hdefined |].
    rewrite <- (reported_agree rs definer.2 _ Hagree) in Hsame.
    assert (outcome source ≠ Ok tt) as Hnot_ok by (by intros [_ ?]%Hsame).
    split.
    + destruct (Forall_or_Exists_Panic outcome others) as [Hall | Hex];
        [| by rewrite (Hpanic2 Hex)].
      destruct (definer.1) as [[] | err |] eqn:Hdefiner; [| | by rewrite Hpanic1].
      * rewrite Hok by done. cbn.
        rewrite AggrError_Ok. intros Hnone.
        apply errors_of_nil_iff in Hnone; [| by apply Forall_fmap].
        rewrite Forall_fmap, Forall_forall in Hnone. by apply Hnot_ok, Hnone.
      * rewrite Hok by done. done.
    + intros Hrows Hnopanic.
      destruct (Hcompare (Forall_impl _ _ _ Hrows (λ row, row_ok_agree rs definer.2 row Hagree)))
        as (_ & Hmismatch & Hno).
      fold (outcome source) in Hmismatch, Hno.
      destruct (outcome source) as [[] | err |] eqn:Hout; [done | | done].
      destruct (Forall_or_Exists_Panic outcome others) as [Hall | Hex];
        [| by rewrite (Hpanic2 Hex) in Hnopanic].
      assert (definer.1 ≠ Panic) as Hdefiner by (intros Hp; by rewrite (Hpanic1 Hp) in Hnopanic).
      rewrite (Hok Hdefiner Hall).
      assert (err ∈ errors_of (definer.1 :: (outcome <$> others))) as Herr.
      { apply elem_of_errors_of. right. apply list_elem_of_fmap. by exists source. }
      exists (errors_of (definer.1 :: (outcome <$> others))), err.
      split_and!; [| done | by apply Hmismatch].
      destruct (errors_of _); [by inversion Herr | done].
Qed.

(** C10. Let [rs.refStreams] be nil when [readRefStreams] starts, let
    every source answer the enumerating query with well-formed rows, and
    let all sources report the same set of [refKey]s. If a source
    processed after the first reports a key in two rows, [readRefStreams]
    fails, and the aggregate holds the "streams are mismatched across
    source shards for workflow" error of one of its reference rows: the
    first occurrence took the key out of the comparison copy. Duplicates
    in the rows of the first source do no harm: when no later source
    reports a key twice, [readRefStreams] succeeds and the map holds the
    entries of the first source's rows, a later row overwriting an
    earlier one with the same key. *)
Theorem readRefStreams_duplicate_refKey `{Collaborators}
    (sched : Scheduler) (st : state) (answer : ShardInfo → QueryResult)
    (first : ShardInfo) (others : list ShardInfo) (R : gset string) :
  refStreams (st_rs st) = None →
  enumerated (st_rs st) (st_world st) answer →
  sched (sourceShards (st_rs st)) = first :: others →
  let rs := st_rs st in
  let run := readRefStreams sched st in
  (∀ source, source ∈ first :: others →
     Forall (row_ok rs) (Rows (answer source))
     ∧ reported rs (Rows (answer source)) = R) →
  (∀ source, source ∈ others → ¬ NoDup (ref_keys rs (Rows (answer source))) →
     ∃ errs workflow,
       run.1 = Err (Aggregate errs)
       ∧ workflow ∈ (omap (ref_key rs) (Rows (answer source))).*1
       ∧ mismatch_for workflow ∈ errs)
  ∧ ((∀ source, source ∈ others → NoDup (ref_keys rs (Rows (answer source)))) →
       run.1 = Ok tt
       ∧ refStreams (st_rs run.2)
         = Some (write_all ∅ (omap (ref_entry rs) (Rows (answer first))))).
Proof.
  intros Hnil Henum Hsched rs run Hsources.
  destruct (readRefStreams_run sched st answer first others Hnil Henum Hsched)
    as (Hrs & _ & _ & Hok).
  fold rs run in Hrs, Hok.
  destruct (readRefStreams_merge_define rs first (answer first) Hnil)
    as (m & Hdefined & _ & Hdom & Hwf).
  set (definer := readRefStreams_merge rs first (answer first)) in *.
  set (outcome := λ source, (readRefStreams_merge definer.2 source (answer source)).1) in *.
  assert (agree rs definer.2) as Hagree by (rewrite Hdefined; apply agree_set_refStreams).
  destruct (Hsources first ltac:(left)) as [Hfirst_ok Hfirst_R].
  specialize (Hwf Hfirst_ok). destruct (Hdom Hwf) as [Hm Hdom_m].
  assert (∀ source, source ∈ others →
            Forall (row_ok definer.2) (Rows (answer source))
            ∧ reported definer.2 (Rows (answer source)) = dom m) as Hothers.
  { intros source Hin. destruct (Hsources source ltac:(by right)) as [Hrows HR]. split.
    - eapply Forall_impl; [exact Hrows |]. intros row. by apply row_ok_agree.
    - rewrite <- (reported_agree rs definer.2 _ Hagree). congruence. }
  assert (Forall (λ source, outcome source ≠ Panic) others) as Hnopanic.
  { apply Forall_forall. intros source Hin. destruct (Hothers source Hin) as [Hrows _].
    by destruct (readRefStreams_merge_compare definer.2 source (answer source) m)
      as (_ & _ & Hcompare); [by rewrite Hdefined | apply (Hcompare Hrows)]. }
  rewrite Hok by (by rewrite ?Hwf). rewrite Hwf. cbn [errors_of omap list_omap].
  fold (errors_of (outcome <$> others)).
  split.
  - intros source Hin Hdup. destruct (Hothers source Hin) as [Hrows HR].
    destruct (readRefStreams_merge_duplicate definer.2 source (answer source) m)
      as (workflow & Hworkflow & Herr); [by rewrite Hdefined | done | done | |].
    { unfold ref_keys in *. by rewrite <- (omap_ref_key_agree rs definer.2 _ Hagree). }
    assert (mismatch_for workflow ∈ errors_of (outcome <$> others)) as Hin_errs.
    { apply elem_of_errors_of, list_elem_of_fmap. by exists source. }
    exists (errors_of (outcome <$> others)), workflow. split_and!; [| | done].
    + apply AggrError_Err. split; [| done].
      intros Hnone. rewrite Hnone in Hin_errs. by inversion Hin_errs.
    + by rewrite (omap_ref_key_agree rs definer.2 _ Hagree).
  - intros Hnodup. split.
    + apply AggrError_Ok, errors_of_nil_iff; [by apply Forall_fmap |].
      apply Forall_fmap, Forall_forall. intros source Hin.
      destruct (Hothers source Hin) as [Hrows HR].
      destruct (readRefStreams_merge_compare definer.2 source (answer source) m)
        as (_ & _ & Hcompare); [by rewrite Hdefined |].
      apply (Hcompare Hrows). split; [| done].
      unfold ref_keys. rewrite <- (omap_ref_key_agree rs definer.2 _ Hagree).
      by apply Hnodup.
    + by rewrite Hrs, Hdefined, Hm.
Qed.

(** ** Reference streams, from the sources to the targets *)

Section PreserveFacts.
Context `{Collaborators}.
Implicit Types (rs : resharder).



End PreserveFacts.


(** * The phases that follow the build *)

Section RpcFacts.
Context `{Collaborators}.
Implicit Types (rs : resharder) (st : state) (calls : list (Tablet * string)).

Lemma exec_all_length calls w : length (exec_all calls w).1 = length calls.
Proof.
  revert w. induction calls as [| call rest IH]; intros w; [done |].
  cbn. destruct (tmc_VReplicationExec _ _ _) as [answer w1].
  specialize (IH w1). destruct (exec_all rest w1) as [answers w2]. cbn in *. by f_equal.
Qed.

Lemma rpc_errors_nil calls answers :
  length answers = length calls →
  rpc_errors calls answers = [] ↔ Forall succeeded answers.
Proof.
  revert answers. induction calls as [| call rest IH]; intros [| answer answers] Hlen;
    try done.
  injection Hlen as Hlen. unfold rpc_errors in *. cbn.
  destruct answer as [err | qr]; cbn.
  - split; [done | by inversion 1].
  - rewrite (IH answers Hlen). split; [by constructor | by inversion 1].
Qed.

Lemma statements_length query rs targets :
  (∀ target, target ∈ targets → is_Some (targetPrimaries rs !! si_shardName target)) →
  length (statements query rs targets) = length targets.
Proof.
  induction targets as [| target rest IH]; intros Hall; [done |].
  unfold statements in *. cbn.
  destruct (Hall target ltac:(left)) as [targetPrimary ->]. cbn. f_equal.
  apply IH. intros target' Hin. apply Hall. by right.
Qed.

Lemma statements_Forall (P : Tablet * string → Prop) query rs targets :
  (∀ target targetPrimary, P (ti_Tablet targetPrimary, query rs target targetPrimary)) →
  Forall P (statements query rs targets).
Proof.
  intros HP. induction targets as [| target rest IH]; [by constructor |].
  unfold statements in *. cbn.
  destruct (targetPrimaries rs !! si_shardName target) as [targetPrimary |]; cbn; [| done].
  by constructor.
Qed.

(** One goroutine: the statement goes to the primary of the target, the
    resharder stays as it is. *)
Lemma rpc_task_run query target targetPrimary st :
  targetPrimaries (st_rs st) !! si_shardName target = Some targetPrimary →
  rpc_task query target st
  = let call := (ti_Tablet targetPrimary, query (st_rs st) target targetPrimary) in
    let answer := tmc_VReplicationExec call.1 call.2 (st_world st) in
    (match rpc_error call answer.1 with Some err => Err err | None => Ok tt end,
     mkState (st_rs st) answer.2 (st_log st ++ [call])).
Proof.
  intros Hprimary. unfold rpc_task, bind, get, VReplicationExec. rewrite Hprimary. cbn.
  by destruct (tmc_VReplicationExec _ _ _) as [[err | qr] w].
Qed.

Lemma forAll_run_rpc_task query targets allErrors st :
  (∀ target, target ∈ targets →
     is_Some (targetPrimaries (st_rs st) !! si_shardName target)) →
  let calls := statements query (st_rs st) targets in
  let answers := exec_all calls (st_world st) in
  forAll_run (rpc_task query) targets allErrors st
  = (Ok (allErrors ++ rpc_errors calls answers.1),
     mkState (st_rs st) answers.2 (st_log st ++ calls)).
Proof.
  revert allErrors st. induction targets as [| target rest IH]; intros allErrors st Hall.
  - cbn. rewrite !app_nil_r. by destruct st.
  - destruct (Hall target ltac:(left)) as [targetPrimary Hprimary].
    cbn [forAll_run]. rewrite (rpc_task_run query target targetPrimary st Hprimary).
    unfold statements. cbn [omap list_omap]. rewrite Hprimary. cbn [fmap option_fmap option_map].
    fold (statements query (st_rs st) rest).
    cbn [exec_all fst snd].
    destruct (tmc_VReplicationExec (ti_Tablet targetPrimary)
                (query (st_rs st) target targetPrimary) (st_world st)) as [answer w1].
    cbn [fst snd].
    assert (∀ errs,
              forAll_run (rpc_task query) rest errs
                (mkState (st_rs st) w1
                   (st_log st ++ [(ti_Tablet targetPrimary,
                                   query (st_rs st) target targetPrimary)]))
              = (Ok (errs ++ rpc_errors (statements query (st_rs st) rest)
                               (exec_all (statements query (st_rs st) rest) w1).1),
                 mkState (st_rs st) (exec_all (statements query (st_rs st) rest) w1).2
                   (st_log st ++ (ti_Tablet targetPrimary,
                                  query (st_rs st) target targetPrimary)
                               :: statements query (st_rs st) rest))) as Hrest.
    { intros errs. rewrite IH; cbn [st_rs st_world st_log].
      - by rewrite <- app_assoc.
      - intros target' Hin. apply Hall. by right. }
    destruct (exec_all (statements query (st_rs st) rest) w1) as [answers w2].
    cbn [fst snd] in *. unfold rpc_errors. cbn [zip zip_with omap list_omap fst snd].
    fold (rpc_errors (statements query (st_rs st) rest) answers).
    destruct answer as [err | qr]; cbn [rpc_error].
    + rewrite Hrest. unfold RecordError. by rewrite <- app_assoc.
    + by rewrite Hrest.
Qed.

Lemma rpc_task_rs query target st : st_rs (rpc_task query target st).2 = st_rs st.
Proof.
  unfold rpc_task, bind, get, VReplicationExec.
  destruct (targetPrimaries (st_rs st) !! si_shardName target) as [targetPrimary |];
    [| done].
  by destruct (tmc_VReplicationExec _ _ _) as [[err | qr] w].
Qed.

Lemma forAll_run_rpc_task_panic query targets allErrors st :
  Exists (λ target, targetPrimaries (st_rs st) !! si_shardName target = None) targets →
  (forAll_run (rpc_task query) targets allErrors st).1 = Panic.
Proof.
  revert allErrors st. induction targets as [| target rest IH]; intros allErrors st Hex;
    [by inversion Hex |].
  cbn [forAll_run].
  destruct (targetPrimaries (st_rs st) !! si_shardName target) as [targetPrimary |]
    eqn:Hprimary.
  - apply Exists_cons in Hex as [Hhere | Hlater]; [congruence |].
    pose proof (rpc_task_rs query target st) as Hrs.
    destruct (rpc_task query target st) as [[[] | err |] st1]; cbn in Hrs; [| | done].
    + apply IH. by rewrite Hrs.
    + apply IH. by rewrite Hrs.
  - unfold rpc_task, bind, get. by rewrite Hprimary.
Qed.

(** The fan-out of such a closure over the targets of the resharder:
    one statement for every target, sent in the order the goroutines
    run; the errors of the failed calls, aggregated. Without a primary
    for some target its goroutine panics. *)
Lemma forAll_rpc_task (sched : Scheduler) query st :
  let rs := st_rs st in
  let calls := statements query rs (sched (targetShards rs)) in
  let answers := exec_all calls (st_world st) in
  let run := forAll sched (targetShards rs) (rpc_task query) st in
  (primaries_recorded rs →
     run = (AggrError (rpc_errors calls answers.1),
            mkState rs answers.2 (st_log st ++ calls))
     ∧ length calls = length (targetShards rs)
     ∧ (run.1 = Ok tt ↔ Forall succeeded answers.1))
  ∧ (¬ primaries_recorded rs → run.1 = Panic).
Proof.
  cbn zeta. split.
  - intros Hrecorded.
    assert (∀ target, target ∈ sched (targetShards (st_rs st)) →
              is_Some (targetPrimaries (st_rs st) !! si_shardName target)) as Hall.
    { intros target Hin. apply Hrecorded. by rewrite <- (sched_perm sched). }
    unfold forAll, bind, lift. rewrite (forAll_run_rpc_task query _ [] st Hall). cbn.
    pose proof (statements_length query (st_rs st) _ Hall) as Hlen.
    split_and!; [done | | ].
    + by rewrite Hlen, (sched_perm sched).
    + rewrite AggrError_Ok. apply rpc_errors_nil. apply exec_all_length.
  - intros Hmissing. unfold forAll, bind, lift.
    assert (Exists (λ target, targetPrimaries (st_rs st) !! si_shardName target = None)
              (sched (targetShards (st_rs st)))) as Hex.
    { rewrite (sched_perm sched).
      destruct (decide (Forall (λ target,
                          is_Some (targetPrimaries (st_rs st) !! si_shardName target))
                          (targetShards (st_rs st)))) as [Hall | Hnot].
      - exfalso. apply Hmissing. intros target Hin.
        rewrite Forall_forall in Hall. by apply Hall.
      - apply not_Forall_Exists in Hnot; [| apply _].
        eapply Exists_impl; [done |]. intros target Hnone. cbn in Hnone.
        by apply eq_None_not_Some. }
    pose proof (forAll_run_rpc_task_panic query _ [] st Hex) as Hpanic.
    by destruct (forAll_run _ _ _ _) as [[errs | err |] st1]; cbn in *.
Qed.

End RpcFacts.

Section CopySchemaFacts.
Context `{Primitives}.

Lemma forAll_run_copySchema_task oneSource targets allErrors st :
  let copies := copy_all oneSource (keyspace (st_rs st)) targets (st_world st) in
  forAll_run (copySchema_task oneSource) targets allErrors st
  = (Ok (allErrors ++ copies.1), mkState (st_rs st) copies.2 (st_log st)).
Proof.
  revert allErrors st. induction targets as [| target rest IH]; intros allErrors st.
  - cbn. rewrite app_nil_r. by destruct st.
  - cbn [forAll_run copy_all]. unfold copySchema_task at 1.
    change (1 * Second)%Z with Second.
    destruct (CopySchemaShard oneSource ["/.*"] [] false (keyspace (st_rs st))
                (si_shardName target) Second false (st_world st)) as [[err |] w1].
    + rewrite IH. cbn [st_rs st_world st_log].
      destruct (copy_all oneSource (keyspace (st_rs st)) rest w1) as [errs w2]. cbn.
      unfold RecordError. by rewrite <- app_assoc.
    + rewrite IH. cbn [st_rs st_world st_log].
      by destruct (copy_all oneSource (keyspace (st_rs st)) rest w1) as [errs w2].
Qed.

End CopySchemaFacts.

(** X1. When every target shard has its primary recorded,
    [startStreams] sends exactly one statement for every target, to the
    tablet of that target's primary, in the order the goroutines run: the
    update that sets the streams of the primary's database running. None
    of the statements is a select, the resharder stays as it is, and the
    result is nil exactly when every call succeeded; otherwise it is the
    aggregate of the wrapped errors of the failed calls. When some target
    has no primary recorded, [startStreams] panics. *)
Theorem startStreams_sends_one_update_per_target `{Primitives}
    (sched : Scheduler) (st : state) :
  let rs := st_rs st in
  let calls := statements (λ _ _, startStreams_query) rs (sched (targetShards rs)) in
  let answers := exec_all calls (st_world st) in
  (primaries_recorded rs →
     startStreams sched st
     = (AggrError (rpc_errors calls answers.1), mkState rs answers.2 (st_log st ++ calls))
     ∧ length calls = length (targetShards rs)
     ∧ Forall (λ call : Tablet * string, is_select call.2 = false) calls
     ∧ ((startStreams sched st).1 = Ok tt ↔ Forall succeeded answers.1))
  ∧ (¬ primaries_recorded rs → (startStreams sched st).1 = Panic).
Proof.
  cbn zeta.
  destruct (forAll_rpc_task sched (λ _ _, startStreams_query) st) as [Hsent Hpanic].
  split.
  - intros Hrecorded. destruct (Hsent Hrecorded) as (Hrun & Hlen & Hok).
    split_and!; [exact Hrun | exact Hlen | | exact Hok].
    apply statements_Forall. intros target targetPrimary. reflexivity.
  - exact Hpanic.
Qed.

(** X2. [copySchema] takes the schema from the primary of the first
    source shard: without a source shard it panics before anything is
    copied, whatever the targets are. Otherwise it runs one
    [CopySchemaShard] for every target, in the order the goroutines run,
    each from that one tablet, for all tables ("/.*"), without views, into
    the keyspace of the resharder, waiting one second for the replicas; it
    sends no statement, leaves the resharder as it is and returns the
    aggregate of the errors of the failed copies, unwrapped, or nil when
    there is none. *)
Theorem copySchema_copies_from_the_first_source `{Primitives}
    (sched : Scheduler) (st : state) :
  let rs := st_rs st in
  (sourceShards rs = [] → copySchema sched st = (Panic, st))
  ∧ (∀ first rest, sourceShards rs = first :: rest →
       let copies := copy_all (PrimaryAlias first) (keyspace rs)
                       (sched (targetShards rs)) (st_world st) in
       copySchema sched st = (AggrError copies.1, mkState rs copies.2 (st_log st))).
Proof.
  cbn zeta. unfold copySchema, bind, get. split.
  - intros ->. reflexivity.
  - intros first rest ->. cbn [lookup list_lookup].
    unfold forAll, bind, lift. rewrite forAll_run_copySchema_task. reflexivity.
Qed.

(** X3. When the resharder holds a vschema and every target shard has
    its primary recorded, [createStreams] sends exactly one statement for
    every target, to the tablet of that target's primary, in the order the
    goroutines run: the insert rendered from the generator of that target.
    A failed call does not keep the other targets from getting theirs:
    the result is nil exactly when every call succeeded, and otherwise the
    aggregate of the wrapped errors of the failed calls. The resharder
    stays as it is. Without a vschema, or without a primary for some
    target, [createStreams] panics. *)
Theorem createStreams_sends_one_insert_per_target `{Collaborators}
    (sched : Scheduler) (rangeTables : MapRange Table)
    (rangeRefs : ShardInfo → MapRange refStream) (st : state) :
  let rs := st_rs st in
  let run := createStreams sched rangeTables rangeRefs st in
  (vschema rs = None → run = (Panic, st))
  ∧ (∀ vs, vschema rs = Some vs →
       let excludeRules := createStreams_excludeRules (rangeTables (Tables vs)) [] in
       let calls := statements (createStreams_query rangeRefs excludeRules) rs
                      (sched (targetShards rs)) in
       let answers := exec_all calls (st_world st) in
       (primaries_recorded rs →
          run = (AggrError (rpc_errors calls answers.1),
                 mkState rs answers.2 (st_log st ++ calls))
          ∧ length calls = length (targetShards rs)
          ∧ (run.1 = Ok tt ↔ Forall succeeded answers.1))
       ∧ (¬ primaries_recorded rs → run.1 = Panic)).
Proof.
  cbn zeta. unfold createStreams, bind, get. split.
  - intros ->. reflexivity.
  - intros vs ->.
    apply (forAll_rpc_task sched
             (createStreams_query rangeRefs
                (createStreams_excludeRules (rangeTables (Tables vs)) [])) st).
Qed.

(** * Streams: keys and verdicts *)

Section RefKeyFacts.

Lemma colon_free_split (a a' b b' : string) :
  colon_free a = true → colon_free a' = true →
  a +:+ ":" +:+ b = a' +:+ ":" +:+ b' → a = a' ∧ b = b'.
Proof.
  revert a'. induction a as [| c a IH]; intros [| c' a'] Ha Ha' Heq.
  - injection Heq as Heq. split; [done | exact Heq].
  - injection Heq as Hc _. subst c'. by vm_compute in Ha'.
  - injection Heq as Hc _. subst c. by vm_compute in Ha.
  - injection Heq as -> Heq.
    apply andb_true_iff in Ha as [_ Ha]. apply andb_true_iff in Ha' as [_ Ha'].
    destruct (IH a' Ha Ha' Heq) as [-> ->]. done.
Qed.

Lemma string_append_assoc (a b c : string) : (a +:+ b) +:+ c = a +:+ b +:+ c.
Proof.
  induction a as [| x a IH]; [done |].
  change (String x ((a +:+ b) +:+ c) = String x (a +:+ b +:+ c)). by rewrite IH.
Qed.

End RefKeyFacts.

(** X4. The key under which [readRefStreams] files a reference stream,
    [workflow:keyspace:shard], tells two streams apart when the names of
    their workflows and keyspaces hold no colon: equal keys then mean the
    same workflow, keyspace and shard. With a colon in a name it does
    not: the workflow [w:k] on keyspace [k'] and the workflow [w] on
    keyspace [k:k'] get the same key. *)
Theorem refKey_separates_colon_free_names :
  (∀ workflow1 workflow2 bls1 bls2,
     colon_free workflow1 = true → colon_free workflow2 = true →
     colon_free (bls_Keyspace bls1) = true → colon_free (bls_Keyspace bls2) = true →
     refKey workflow1 bls1 = refKey workflow2 bls2 →
     workflow1 = workflow2
     ∧ bls_Keyspace bls1 = bls_Keyspace bls2
     ∧ bls_Shard bls1 = bls_Shard bls2)
  ∧ (∀ workflow keyspace1 keyspace2 shard filter stopAfterCopy onDdl,
       refKey (workflow +:+ ":" +:+ keyspace1)
         (mkBinlogSource keyspace2 shard filter stopAfterCopy onDdl)
       = refKey workflow
           (mkBinlogSource (keyspace1 +:+ ":" +:+ keyspace2) shard filter
              stopAfterCopy onDdl)).
Proof.
  split.
  - intros workflow1 workflow2 bls1 bls2 Hw1 Hw2 Hk1 Hk2 Hkey. unfold refKey in Hkey.
    apply colon_free_split in Hkey as [-> Hrest]; [| done | done].
    apply colon_free_split in Hrest as [-> ->]; done.
  - intros. unfold refKey. cbn [bls_Keyspace bls_Shard].
    by rewrite !string_append_assoc.
Qed.

(** ** The verdict of the classifier *)

Section VerdictFacts.
Context `{Collaborators}.
Implicit Types (rs : resharder) (vs : Keyspace) (bls : BinlogSource).

Lemma identifyRuleType_cases rs vs rule :
  vschema rs = Some vs →
  (identifyRuleType rs rule = Ok StreamTypeReference ∧ names_reference vs rule)
  ∨ (identifyRuleType rs rule = Ok StreamTypeSharded ∧ names_sharded vs rule)
  ∨ (identifyRuleType rs rule
       = Err (Errorf "table %v not found in vschema" [AStr (rule_Match rule)])
     ∧ ¬ names_reference vs rule ∧ ¬ names_sharded vs rule).
Proof.
  intros Hvs. unfold identifyRuleType, names_reference, names_sharded. rewrite Hvs.
  destruct (Tables vs !! rule_Match rule) as [table |] eqn:Hlook; cbn.
  - case_bool_decide as Htype.
    + left. split; [done |]. by exists table.
    + right. left. done.
  - destruct (IsInternalOperationTableName (rule_Match rule)) eqn:Hinternal; cbn.
    + right. left. done.
    + right. right. split_and!; [done | by intros (table & ? & _) | congruence].
Qed.

Lemma names_reference_not_sharded vs rule :
  names_reference vs rule → ¬ names_sharded vs rule.
Proof.
  intros (table & Hlook & Htype). unfold names_sharded. rewrite Hlook.
  intros Hother. by apply Hother.
Qed.

(** Once the loop has adopted a type, it returns that type if every
    remaining rule is of it and fails otherwise. *)
Lemma blsIsReference_rules_reference rs vs bls rules b :
  vschema rs = Some vs →
  blsIsReference_rules rs bls rules StreamTypeReference = Ok b
  ↔ b = true ∧ Forall (names_reference vs) rules.
Proof.
  intros Hvs. induction rules as [| rule rest IH]; cbn.
  - split; [by intros [= <-] | by intros [-> _]].
  - destruct (identifyRuleType_cases rs vs rule Hvs)
      as [[-> Href] | [[-> Hsh] | [-> [Hnref Hnsh]]]]; cbn.
    + rewrite IH. split; [intros [-> ?]; by split; [| constructor] |].
      intros [-> Hall]. by inversion_clear Hall.
    + split; [done |]. intros [_ Hall]. inversion_clear Hall.
      by edestruct names_reference_not_sharded.
    + split; [done |]. intros [_ Hall]. by inversion_clear Hall.
Qed.

Lemma blsIsReference_rules_sharded rs vs bls rules b :
  vschema rs = Some vs →
  blsIsReference_rules rs bls rules StreamTypeSharded = Ok b
  ↔ b = false ∧ Forall (names_sharded vs) rules.
Proof.
  intros Hvs. induction rules as [| rule rest IH]; cbn.
  - split; [by intros [= <-] | by intros [-> _]].
  - destruct (identifyRuleType_cases rs vs rule Hvs)
      as [[-> Href] | [[-> Hsh] | [-> [Hnref Hnsh]]]]; cbn.
    + split; [done |]. intros [_ Hall]. inversion_clear Hall.
      by edestruct names_reference_not_sharded.
    + rewrite IH. split; [intros [-> ?]; by split; [| constructor] |].
      intros [-> Hall]. by inversion_clear Hall.
    + split; [done |]. intros [_ Hall]. by inversion_clear Hall.
Qed.

Lemma blsIsReference_rules_unknown rs vs bls rules b :
  vschema rs = Some vs →
  blsIsReference_rules rs bls rules StreamTypeUnknown = Ok b
  ↔ (b = true ∧ rules ≠ [] ∧ Forall (names_reference vs) rules)
    ∨ (b = false ∧ Forall (names_sharded vs) rules).
Proof.
  intros Hvs. destruct rules as [| rule rest]; cbn.
  - split; [intros [= <-]; by right | by intros [(_ & ? & _) | [-> _]]].
  - destruct (identifyRuleType_cases rs vs rule Hvs)
      as [[-> Href] | [[-> Hsh] | [-> [Hnref Hnsh]]]]; cbn.
    + rewrite (blsIsReference_rules_reference rs vs bls rest b Hvs). split.
      * intros [-> Hall]. left. split_and!; [done | done | by constructor].
      * intros [(-> & _ & Hall) | [_ Hall]]; inversion_clear Hall; [done |].
        by edestruct names_reference_not_sharded.
    + rewrite (blsIsReference_rules_sharded rs vs bls rest b Hvs). split.
      * intros [-> Hall]. right. split; [done | by constructor].
      * intros [(_ & _ & Hall) | [-> Hall]]; inversion_clear Hall; [| done].
        by edestruct names_reference_not_sharded.
    + split; [done |]. by intros [(_ & _ & Hall) | [_ Hall]]; inversion_clear Hall.
Qed.

Lemma blsIsReference_rules_no_panic rs vs bls rules streamType :
  vschema rs = Some vs →
  blsIsReference_rules rs bls rules streamType ≠ Panic.
Proof.
  intros Hvs. revert streamType. induction rules as [| rule rest IH]; intros streamType;
    [done |].
  cbn. destruct (identifyRuleType_cases rs vs rule Hvs)
    as [[-> _] | [[-> _] | [-> _]]]; cbn; [| | done]; by case_bool_decide.
Qed.

(** Without a vschema the first rule panics. *)
Lemma blsIsReference_rules_no_vschema rs bls rules :
  vschema rs = None →
  blsIsReference_rules rs bls rules StreamTypeUnknown
  = match rules with [] => Ok false | _ => Panic end.
Proof.
  intros Hvs. destruct rules as [| rule rest]; [done |].
  cbn. unfold identifyRuleType. by rewrite Hvs.
Qed.

Lemma blsIsReference_with_rules rs bls rules :
  blsIsReference rs (with_rules bls rules)
  = blsIsReference_rules rs (with_rules bls rules) rules StreamTypeUnknown.
Proof. done. Qed.

(** The stream under classification occurs in the error only. *)
Lemma blsIsReference_rules_Ok_bls rs bls bls' rules streamType b :
  blsIsReference_rules rs bls rules streamType = Ok b →
  blsIsReference_rules rs bls' rules streamType = Ok b.
Proof.
  revert streamType. induction rules as [| rule rest IH]; intros streamType; [done |].
  cbn. destruct (identifyRuleType rs rule) as [[] | err |]; try done;
    try case_bool_decide; try done; apply IH.
Qed.

Lemma blsIsReference_rules_Panic_bls rs bls bls' rules streamType :
  blsIsReference_rules rs bls rules streamType = Panic →
  blsIsReference_rules rs bls' rules streamType = Panic.
Proof.
  revert streamType. induction rules as [| rule rest IH]; intros streamType; [done |].
  cbn. destruct (identifyRuleType rs rule) as [[] | err |]; try done;
    try case_bool_decide; try done; apply IH.
Qed.

End VerdictFacts.

(** X5. For a resharder that holds a vschema and a stream that carries
    a filter, [blsIsReference] returns true exactly when the filter has
    at least one rule and every rule names a reference table of the
    vschema; it returns false exactly when every rule names a table of
    the vschema that is not a reference table or, outside the vschema, a
    table of an internal operation (so also when there is no rule); in
    every other case it returns an error and never panics. *)
Theorem blsIsReference_verdict `{Collaborators}
    (rs : resharder) (vs : Keyspace) (bls : BinlogSource) (filter : Filter) :
  vschema rs = Some vs →
  bls_Filter bls = Some filter →
  let rules := filter_Rules filter in
  (blsIsReference rs bls = Ok true
   ↔ rules ≠ [] ∧ Forall (names_reference vs) rules)
  ∧ (blsIsReference rs bls = Ok false ↔ Forall (names_sharded vs) rules)
  ∧ blsIsReference rs bls ≠ Panic.
Proof.
  intros Hvs Hfilter rules. unfold blsIsReference. rewrite Hfilter. fold rules.
  split_and!.
  - rewrite (blsIsReference_rules_unknown rs vs bls rules true Hvs). naive_solver.
  - rewrite (blsIsReference_rules_unknown rs vs bls rules false Hvs). naive_solver.
  - by apply (blsIsReference_rules_no_panic rs vs).
Qed.

(** X6. The verdict of [blsIsReference] does not depend on the order of
    the rules: a stream whose rules are those of another in a different
    order is a reference stream, a sharded stream or a panic exactly when
    the other is. (Which error a rejected stream gets can depend on the
    order: the loop stops at the first offending rule.) *)
Theorem blsIsReference_order_independent `{Collaborators}
    (rs : resharder) (bls : BinlogSource) (filter : Filter) (rules' : list Rule) :
  bls_Filter bls = Some filter →
  filter_Rules filter ≡ₚ rules' →
  (∀ b, blsIsReference rs bls = Ok b ↔ blsIsReference rs (with_rules bls rules') = Ok b)
  ∧ (blsIsReference rs bls = Panic ↔ blsIsReference rs (with_rules bls rules') = Panic).
Proof.
  intros Hfilter Hperm. rewrite blsIsReference_with_rules.
  unfold blsIsReference. rewrite Hfilter.
  destruct (vschema rs) as [vs |] eqn:Hvs.
  - split.
    + intros b.
      rewrite (blsIsReference_rules_unknown rs vs bls _ b Hvs),
        (blsIsReference_rules_unknown rs vs _ rules' b Hvs).
      assert (∀ P : Rule → Prop, Forall P (filter_Rules filter) ↔ Forall P rules') as Hall
        by (intros P; by rewrite Hperm).
      assert (filter_Rules filter ≠ [] ↔ rules' ≠ []) as Hne.
      { split; intros Hne Hnil; apply Hne; rewrite Hnil in Hperm.
        - by apply Permutation_nil_r in Hperm.
        - by apply Permutation_nil_l in Hperm. }
      by rewrite !Hall, Hne.
    + split; intros Hpanic; by apply (blsIsReference_rules_no_panic rs vs) in Hpanic.
  - rewrite !blsIsReference_rules_no_vschema by done.
    destruct (filter_Rules filter) as [| rule rest], rules' as [| rule' rest'];
      try done.
    + by apply Permutation_nil_l in Hperm.
    + by apply Permutation_nil_r in Hperm.
Qed.

Section CreatedStreamsFacts.
Context `{Collaborators}.
Implicit Types (rs : resharder) (vs : Keyspace) (bls : BinlogSource).

(** Rules that name reference tables take the loop to the type
    reference, or leave it there. *)
Lemma blsIsReference_rules_app_reference rs vs bls rules rest streamType :
  vschema rs = Some vs →
  Forall (names_reference vs) rules →
  streamType ≠ StreamTypeSharded →
  blsIsReference_rules rs bls (rules ++ rest) streamType
  = blsIsReference_rules rs bls rest
      (match rules with [] => streamType | _ => StreamTypeReference end).
Proof.
  intros Hvs Hrules. revert streamType.
  induction Hrules as [| rule rules Hrule _ IH]; intros streamType Htype; [done |].
  cbn [app blsIsReference_rules].
  destruct (identifyRuleType_cases rs vs rule Hvs)
    as [[-> _] | [[_ Hsh] | [_ [Hnref _]]]]; [| | done].
  - rewrite bool_decide_eq_false_2 by done. rewrite IH by done. by destruct rules.
  - by edestruct names_reference_not_sharded.
Qed.

(** The exclude rules name reference tables of the vschema they were
    collected from. *)
Lemma createStreams_excludeRules_reference (rangeTables : MapRange Table) vs :
  Forall (names_reference vs) (createStreams_excludeRules (rangeTables (Tables vs)) []).
Proof.
  rewrite createStreams_excludeRules_spec. cbn [app].
  apply Forall_fmap, Forall_forall. intros [tableName table] Hin.
  apply list_elem_of_filter in Hin as [Htype Hin].
  rewrite (range_perm rangeTables) in Hin. apply elem_of_map_to_list in Hin.
  by exists table.
Qed.

End CreatedStreamsFacts.

(** X7. The sharded streams [createStreams] writes are not streams
    [readRefStreams] can read: their last rule matches "/.*", which is no
    table. For a vschema without a table of that name (and "/.*" is not
    the name of an internal operation's table), [blsIsReference] rejects
    the stream of every sharded row with "table /.* not found in vschema",
    whatever the exclude rules before it; so a source shard whose catalog
    still holds such a row, not frozen, under a named workflow makes the
    goroutine of a later [readRefStreams] fail at that row. *)
Theorem createStreams_sharded_streams_are_rejected `{Collaborators}
    (rangeTables : MapRange Table) (rs : resharder) (vs : Keyspace)
    (target source : ShardInfo) :
  vschema rs = Some vs →
  Tables vs !! "/.*" = None →
  IsInternalOperationTableName "/.*" = false →
  let excludeRules := createStreams_excludeRules (rangeTables (Tables vs)) [] in
  let bls := row_bls (sharded_row rs target excludeRules source) in
  let not_found := Errorf "table %v not found in vschema" [AStr "/.*"] in
  blsIsReference rs bls = Err not_found
  ∧ ∀ later workflow rowBytes columns rows,
      workflow ≠ "" →
      prototext_Unmarshal rowBytes = inr bls →
      (readRefStreams_merge rs later
         (mkQueryResult ((workflow :: rowBytes :: columns) :: rows))).1
      = Err (Wrapf not_found "blsIsReference" []).
Proof.
  intros Hvs Htable Hinternal excludeRules bls not_found.
  assert (blsIsReference rs bls = Err not_found) as Hrejected.
  { unfold blsIsReference, bls, sharded_row. cbn [row_bls bls_Filter filter_Rules].
    rewrite (blsIsReference_rules_app_reference rs vs _ excludeRules);
      [| done | apply createStreams_excludeRules_reference | done].
    cbn [blsIsReference_rules]. unfold identifyRuleType, key_range_rule.
    rewrite Hvs. cbn [rule_Match]. rewrite Htable, Hinternal. done. }
  split; [exact Hrejected |].
  intros later workflow rowBytes columns rows Hname Hparse.
  unfold readRefStreams_merge.
  destruct (refStreams rs) as [streams |]; cbn;
    by rewrite bool_decide_eq_false_2, Hparse, Hrejected.
Qed.

(** * Reading the reference streams: what gets through *)

Section FanOutResults.
Context {S : Type}.

(** A fan-out that returns nil has seen every body return nil, each in
    a state the bodies before it left. *)
Lemma forAll_run_Ok_inv (I : S → Prop) (f : ShardInfo → M S unit) shards allErrors st errs :
  (∀ shard st, shard ∈ shards → I st → I (f shard st).2) →
  I st →
  (forAll_run f shards allErrors st).1 = Ok errs →
  ∃ rest, errs = allErrors ++ rest
          ∧ (rest = [] → Forall (λ shard, ∃ st0, I st0 ∧ (f shard st0).1 = Ok tt) shards).
Proof.
  revert allErrors st.
  induction shards as [| shard shards IH]; intros allErrors st Hkeep HI.
  - cbn. intros [= <-]. exists []. by rewrite app_nil_r.
  - cbn [forAll_run]. pose proof (Hkeep shard st ltac:(left) HI) as HI'.
    assert (∀ shard' st', shard' ∈ shards → I st' → I (f shard' st').2) as Hkeep'
      by (intros shard' st' Hin; apply Hkeep; by right).
    destruct (f shard st) as [[[] | err |] st1] eqn:Hf; cbn in HI'; [| | done].
    + intros (rest & -> & Hall)%IH; [| done | done]. exists rest. split; [done |].
      intros Hnil. constructor; [| by apply Hall].
      exists st. by rewrite Hf.
    + intros (rest & -> & Hall)%IH; [| done | done]. unfold RecordError.
      exists (err :: rest). rewrite <- app_assoc. split; [done |]. done.
Qed.

Lemma forAll_Ok_inv (I : S → Prop) (sched : Scheduler) (f : ShardInfo → M S unit)
    shards st :
  (∀ shard st, shard ∈ shards → I st → I (f shard st).2) →
  I st →
  (forAll sched shards f st).1 = Ok tt →
  ∀ shard, shard ∈ shards → ∃ st0, I st0 ∧ (f shard st0).1 = Ok tt.
Proof.
  intros Hkeep HI. unfold forAll, bind, lift.
  destruct (forAll_run f (sched shards) [] st) as [[errs | err |] st1] eqn:Hrun;
    [| done | done].
  cbn. intros Hnil%AggrError_Ok. subst errs.
  destruct (forAll_run_Ok_inv I f (sched shards) [] st []) as (rest & Hrest & Hall).
  { intros shard st0 Hin. apply Hkeep. by rewrite <- (sched_perm sched). }
  { done. }
  { by rewrite Hrun. }
  cbn in Hrest. subst rest. specialize (Hall eq_refl).
  intros shard Hin. rewrite <- (sched_perm sched) in Hin.
  rewrite Forall_forall in Hall. by apply Hall.
Qed.

(** A fan-out whose bodies do not panic does not panic. *)
Lemma forAll_run_no_panic (I : S → Prop) (f : ShardInfo → M S unit) shards allErrors st :
  (∀ shard st, shard ∈ shards → I st → (f shard st).1 ≠ Panic ∧ I (f shard st).2) →
  I st →
  (forAll_run f shards allErrors st).1 ≠ Panic.
Proof.
  revert allErrors st. induction shards as [| shard shards IH]; intros allErrors st Hf HI;
    [done |].
  cbn [forAll_run]. destruct (Hf shard st ltac:(left) HI) as [Hnp HI'].
  destruct (f shard st) as [[[] | err |] st1]; cbn in *; [| | done].
  - apply IH; [| done]. intros shard' st' Hin. apply Hf. by right.
  - apply IH; [| done]. intros shard' st' Hin. apply Hf. by right.
Qed.

Lemma forAll_no_panic (I : S → Prop) (sched : Scheduler) (f : ShardInfo → M S unit)
    shards st :
  (∀ shard st, shard ∈ shards → I st → (f shard st).1 ≠ Panic ∧ I (f shard st).2) →
  I st →
  (forAll sched shards f st).1 ≠ Panic.
Proof.
  intros Hf HI. unfold forAll, bind, lift.
  assert ((forAll_run f (sched shards) [] st).1 ≠ Panic) as Hrun.
  { apply (forAll_run_no_panic I); [| done]. intros shard st0 Hin. apply Hf.
    by rewrite <- (sched_perm sched). }
  destruct (forAll_run f (sched shards) [] st) as [[errs | err |] st1]; cbn in *;
    [apply AggrError_not_Panic | done | done].
Qed.

End FanOutResults.

Section AcceptedFacts.
Context `{Collaborators}.
Implicit Types (rs : resharder) (rows : list (list string)).

Lemma row_accepted_agree rs rs' row : agree rs rs' → row_accepted rs row → row_accepted rs' row.
Proof.
  intros Hagree (workflow & rowBytes & bls & isReference & H0 & Hname & H1 & Hparse & Hclass).
  exists workflow, rowBytes, bls, isReference.
  by rewrite <- (blsIsReference_agree rs rs' bls Hagree).
Qed.

(** The loop gets through accepted rows only. *)
Lemma readRefStreams_rows_Ok_accepted rs source mustCreate rows streams ref ref' :
  (readRefStreams_rows rs source mustCreate rows streams ref).1 = Ok ref' →
  Forall (row_accepted rs) rows.
Proof.
  revert streams ref. induction rows as [| row rest IH]; intros streams ref; [done |].
  cbn [readRefStreams_rows].
  destruct (row !! 0%nat) as [workflow |] eqn:H0; [| done].
  case_bool_decide as Hname; [done |].
  destruct (row !! 1%nat) as [rowBytes |] eqn:H1; [| done].
  destruct (prototext_Unmarshal rowBytes) as [err | bls] eqn:Hparse; [done |].
  destruct (blsIsReference rs bls) as [isReference | err |] eqn:Hclass; [| done | done].
  assert (row_accepted rs row) as Hrow by (by exists workflow, rowBytes, bls, isReference).
  destruct isReference.
  - destruct mustCreate.
    + destruct (row !! 2%nat); [| done]. destruct (row !! 3%nat); [| done].
      intros Hrest%IH. by constructor.
    + case_bool_decide; cbn [negb]; [| done]. intros Hrest%IH. by constructor.
  - intros Hrest%IH. by constructor.
Qed.

Lemma readRefStreams_merge_Ok_accepted rs source qr :
  (readRefStreams_merge rs source qr).1 = Ok tt →
  Forall (row_accepted rs) (Rows qr).
Proof.
  unfold readRefStreams_merge.
  destruct (refStreams rs) as [streams |].
  - pose proof (readRefStreams_rows_Ok_accepted rs source false (Rows qr) streams (dom streams))
      as Hrows.
    destruct (readRefStreams_rows rs source false (Rows qr) streams (dom streams))
      as [[ref' | err |] streams']; cbn in *; [| done | done].
    intros _. by eapply Hrows.
  - pose proof (readRefStreams_rows_Ok_accepted rs source true (Rows qr) ∅ ∅) as Hrows.
    destruct (readRefStreams_rows rs source true (Rows qr) ∅ ∅)
      as [[ref' | err |] streams']; cbn in *; [| done | done].
    intros _. by eapply Hrows.
Qed.

(** Rows of sharded streams are passed over. *)
Lemma readRefStreams_rows_sharded rs source mustCreate rows streams ref :
  readRefStreams_rows rs source mustCreate
    (filter (λ row, sharded_stream_row rs row = false) rows) streams ref
  = readRefStreams_rows rs source mustCreate rows streams ref.
Proof.
  revert streams ref. induction rows as [| row rest IH]; intros streams ref; [done |].
  destruct (sharded_stream_row rs row) eqn:Hsharded.
  - rewrite filter_cons_False by (by rewrite Hsharded). rewrite IH.
    cbn [readRefStreams_rows]. unfold sharded_stream_row in Hsharded.
    destruct (row !! 0%nat) as [workflow |]; [| done].
    destruct (row !! 1%nat) as [rowBytes |]; [| done].
    case_bool_decide; [done |]. cbn in Hsharded.
    destruct (prototext_Unmarshal rowBytes) as [err | bls]; [done |].
    by destruct (blsIsReference rs bls) as [[|] | err |].
  - rewrite filter_cons_True by done. cbn [readRefStreams_rows].
    destruct (row !! 0%nat) as [workflow |]; [| done].
    case_bool_decide; [done |].
    destruct (row !! 1%nat) as [rowBytes |]; [| done].
    destruct (prototext_Unmarshal rowBytes) as [err | bls]; [done |].
    destruct (blsIsReference rs bls) as [[|] | err |]; [| apply IH | done | done].
    destruct mustCreate.
    + destruct (row !! 2%nat); [| done]. destruct (row !! 3%nat); [| done]. apply IH.
    + case_bool_decide; cbn [negb]; [apply IH | done].
Qed.

Lemma ref_entry_reference rs row key rstream :
  ref_entry rs row = Some (key, rstream) →
  key = refKey (ref_workflow rstream) (ref_bls rstream)
  ∧ ref_workflow rstream ≠ ""
  ∧ blsIsReference rs (ref_bls rstream) = Ok true.
Proof.
  unfold ref_entry.
  destruct (row !! 0%nat) as [workflow |]; [| done].
  destruct (row !! 1%nat) as [rowBytes |]; [| done].
  destruct (row !! 2%nat) as [cell |]; [| done].
  destruct (row !! 3%nat) as [tabletTypes |]; [| done].
  case_bool_decide as Hname; [done |].
  destruct (prototext_Unmarshal rowBytes) as [err | bls]; [done |].
  destruct (blsIsReference rs bls) as [[|] | err |] eqn:Hclass; try done.
  by intros [= <- <-].
Qed.

(** The part under the mutex keeps or establishes that only reference
    streams are held. *)
Lemma readRefStreams_merge_reference rs source qr :
  reference_streams_only rs →
  reference_streams_only (readRefStreams_merge rs source qr).2.
Proof.
  intros Honly.
  destruct (refStreams rs) as [m |] eqn:Hstreams.
  - destruct (readRefStreams_merge_compare rs source qr m Hstreams) as (-> & _). done.
  - destruct (readRefStreams_merge_define rs source qr Hstreams) as (m & -> & Hentries & _).
    intros streams key rstream [= <-] Hlook.
    destruct (Hentries key rstream Hlook) as (row & _ & Hentry).
    apply ref_entry_reference in Hentry as (Hkey & Hname & Hclass).
    split_and!; [done | done |].
    by rewrite <- (blsIsReference_agree rs _ _ (agree_set_refStreams rs (Some m))).
Qed.

Lemma readRefStreams_task_reference source st :
  reference_streams_only (st_rs st) →
  reference_streams_only (st_rs (readRefStreams_task source st).2).
Proof.
  intros Honly. unfold readRefStreams_task, bind, get, VReplicationExec.
  destruct (sourcePrimaries (st_rs st) !! si_shardName source) as [sourcePrimary |];
    [| done].
  destruct (tmc_VReplicationExec _ _ _) as [[err | qr] w]; cbn; [done |].
  unfold readRefStreams_locked. cbn.
  pose proof (readRefStreams_merge_reference (st_rs st) source qr Honly) as Hmerge.
  by destruct (readRefStreams_merge (st_rs st) source qr) as [r rs'].
Qed.

Lemma readRefStreams_reference sched st :
  reference_streams_only (st_rs st) →
  reference_streams_only (st_rs (readRefStreams sched st).2).
Proof.
  intros Honly. unfold readRefStreams, bind, get.
  apply (forAll_invariant (λ st', reference_streams_only (st_rs st'))); [| done].
  intros source st1. apply readRefStreams_task_reference.
Qed.



End AcceptedFacts.

(** X8. [readRefStreams] succeeds only if every row of every source's
    answer is one its loop does not stop at: a row with an empty
    workflow, with a source column that does not parse, or with a stream
    the classifier rejects (an unknown table, a mix of reference and
    sharded tables), on any source shard, makes [readRefStreams] fail,
    whether the stream is a reference stream or not and in whatever order
    the goroutines run. *)
Theorem readRefStreams_succeeds_only_on_accepted_rows `{Collaborators}
    (sched : Scheduler) (st : state) (answer : ShardInfo → QueryResult) :
  enumerated (st_rs st) (st_world st) answer →
  (readRefStreams sched st).1 = Ok tt →
  ∀ source, source ∈ sourceShards (st_rs st) →
    Forall (row_accepted (st_rs st)) (Rows (answer source)).
Proof.
  intros Henum Hok source Hin.
  set (I := λ st' : state, agree (st_rs st) (st_rs st') ∧ st_world st' = st_world st).
  unfold readRefStreams, bind, get in Hok.
  destruct (forAll_Ok_inv I sched readRefStreams_task (sourceShards (st_rs st)) st)
    with (shard := source) as (st0 & [Hagree Hworld] & Htask); [| | done | done |].
  - intros shard st1 Hshard [Hagree Hworld].
    destruct (readRefStreams_task_enumerated (st_rs st) (st_world st) answer shard st1)
      as (_ & _ & Hw); [done | done | done | done |].
    split; [| done].
    eapply agree_trans; [done |]. apply readRefStreams_task_agree.
  - split; [apply agree_refl | done].
  - destruct (readRefStreams_task_enumerated (st_rs st) (st_world st) answer source st0)
      as (Hr & _); [done | done | done | done |].
    rewrite Hr in Htask. apply readRefStreams_merge_Ok_accepted in Htask.
    eapply Forall_impl; [exact Htask |]. intros row.
    apply row_accepted_agree. by apply agree_sym.
Qed.

(** X9. The rows of sharded streams play no part in what a goroutine
    of [readRefStreams] does under the mutex: taking them out of a
    source's answer, wherever they stand among the rows, changes neither
    what the goroutine returns nor what it leaves in [rs.refStreams]. *)
Theorem readRefStreams_passes_over_sharded_streams `{Collaborators}
    (rs : resharder) (source : ShardInfo) (rows : list (list string)) :
  readRefStreams_merge rs source
    (mkQueryResult (filter (λ row, sharded_stream_row rs row = false) rows))
  = readRefStreams_merge rs source (mkQueryResult rows).
Proof.
  unfold readRefStreams_merge. cbn [Rows].
  destruct (refStreams rs) as [streams |]; by rewrite readRefStreams_rows_sharded.
Qed.


Section BuiltFacts.
Context `{Collaborators}.
Implicit Types (rs : resharder).

Lemma buildResharder_sources_options keyspace sources rs rs' :
  buildResharder_sources keyspace sources rs = Ok rs' → options_of rs' = options_of rs.
Proof.
  revert rs. induction sources as [| shard rest IH]; intros rs; cbn.
  - by intros [= <-].
  - destruct (GetShard keyspace shard) as [err | si]; [done |].
    destruct (IsPrimaryServing si); cbn; [| done].
    destruct (ts_GetTablet (PrimaryAlias si)) as [err | primary]; [done |].
    by intros ->%IH.
Qed.

Lemma buildResharder_targets_options keyspace targets rs rs' :
  buildResharder_targets keyspace targets rs = Ok rs' → options_of rs' = options_of rs.
Proof.
  revert rs. induction targets as [| shard rest IH]; intros rs; cbn.
  - by intros [= <-].
  - destruct (GetShard keyspace shard) as [err | si]; [done |].
    destruct (IsPrimaryServing si); cbn; [done |].
    destruct (ts_GetTablet (PrimaryAlias si)) as [err | primary]; [done |].
    by intros ->%IH.
Qed.

Lemma agree_options rs rs' :
  agree rs rs' →
  options_of (set_refStreams None rs) = options_of (set_refStreams None rs').
Proof. unfold agree. by intros ->. Qed.

(** What follows the loops, when it succeeds on a resharder without
    streams: the vschema is the one of the keyspace, the streams are
    reference streams, the rest is as the loops left it. *)
Lemma buildResharder_validate_built schedTargets schedSources keyspace st rs st' :
  buildResharder_validate schedTargets schedSources keyspace st = (Ok rs, st') →
  refStreams (st_rs st) = None →
  ∃ vs, ts_GetVSchema keyspace = inr vs
        ∧ vschema rs = Some vs
        ∧ reference_streams_only rs
        ∧ options_of (set_refStreams None rs)
          = options_of (set_vschema (Some vs) (st_rs st))
        ∧ ValidateForReshard (sourceShards (st_rs st)) (targetShards (st_rs st)) = None.
Proof.
  unfold buildResharder_validate, bind, get, modify, ret, fail.
  destruct (ValidateForReshard _ _) as [err |]; [done |].
  destruct (wrap (validateTargets schedTargets) "validateTargets" st)
    as [[[] | err |] st1] eqn:Hvalidate; [| done | done].
  apply wrap_Ok in Hvalidate.
  destruct (ts_GetVSchema keyspace) as [err | vs]; [done |].
  destruct (wrap (readRefStreams schedSources) "readRefStreams" _)
    as [[[] | err |] st2] eqn:Hread; [| done | done].
  apply wrap_Ok in Hread. intros [= <- <-] Hnil.
  pose proof (validateTargets_rs schedTargets st) as Hrs1.
  rewrite Hvalidate in Hrs1. cbn in Hrs1.
  pose proof (readRefStreams_agree schedSources (set_rs (set_vschema (Some vs)) st1))
    as Hagree.
  pose proof (readRefStreams_reference schedSources (set_rs (set_vschema (Some vs)) st1))
    as Honly.
  rewrite Hread in Hagree, Honly. cbn in Hagree, Honly. rewrite Hrs1 in Hagree, Honly.
  exists vs. split_and!.
  - done.
  - by rewrite <- (agree_vschema _ _ Hagree).
  - apply Honly. intros streams key rstream Hstreams. cbn in Hstreams. congruence.
  - rewrite <- (agree_options _ _ Hagree). unfold options_of. cbn. by rewrite Hnil.
  - done.
Qed.

End BuiltFacts.

(** X11. A resharder that [buildResharder] returns carries the keyspace,
    the workflow, the cell and the tablet types it was called with, and
    its three options at their zero values: the caller sets them
    afterwards. Its vschema is the one the topology holds for the
    keyspace. Every stream it holds is filed under its own [refKey],
    names its workflow, and is a reference stream for that vschema:
    sharded streams of the sources are not carried along. *)
Theorem buildResharder_holds_reference_streams_only `{Collaborators}
    (schedTargets schedSources : Scheduler) (keyspace' workflow' : string)
    (sources targets : list string) (cell' tabletTypes' : string)
    (st st' : state) (rs : resharder) :
  buildResharder schedTargets schedSources keyspace' workflow' sources targets
    cell' tabletTypes' st = (Ok rs, st') →
  (keyspace rs, workflow rs, cell rs, tabletTypes rs)
    = (keyspace', workflow', cell', tabletTypes')
  ∧ (stopAfterCopy rs, onDDL rs, deferSecondaryKeys rs) = (false, "", false)
  ∧ (∃ vs, ts_GetVSchema keyspace' = inr vs ∧ vschema rs = Some vs)
  ∧ ∀ streams key rstream,
      refStreams rs = Some streams → streams !! key = Some rstream →
      key = refKey (ref_workflow rstream) (ref_bls rstream)
      ∧ ref_workflow rstream ≠ ""
      ∧ blsIsReference rs (ref_bls rstream) = Ok true.
Proof.
  unfold buildResharder, bind, get, modify, lift. cbn [set_rs st_rs].
  destruct (buildResharder_sources keyspace' sources _) as [rs1 | err |] eqn:Hsources;
    [| done | done].
  destruct (buildResharder_targets keyspace' targets rs1) as [rs2 | err |] eqn:Htargets;
    [| done | done].
  apply buildResharder_sources_options in Hsources.
  apply buildResharder_targets_options in Htargets.
  rewrite Hsources in Htargets. unfold options_of in Htargets. cbn in Htargets.
  injection Htargets as Hk Hw Hv Hr Hc Ht Hs Ho Hd.
  intros Hvalidate.
  apply buildResharder_validate_built in Hvalidate
    as (vs & Hget & Hvs & Honly & Hoptions & _); [| done].
  unfold options_of in Hoptions. cbn in Hoptions.
  injection Hoptions as Hk' Hw' _ Hc' Ht' Hs' Ho' Hd'.
  split_and!.
  - congruence.
  - congruence.
  - by exists vs.
  - exact Honly.
Qed.

(** * The build and the phases after it *)

Section BuildPhases.
Context `{Collaborators}.
Implicit Types (rs : resharder) (st : state).

Lemma buildResharder_Ok_recorded schedTargets schedSources keyspace' workflow'
    sources targets cell' tabletTypes' st rs st' :
  buildResharder schedTargets schedSources keyspace' workflow' sources targets
    cell' tabletTypes' st = (Ok rs, st') →
  recorded keyspace' sources targets rs
  ∧ ∃ vs, vschema rs = Some vs.
Proof.
  unfold buildResharder, bind, get, modify, lift. cbn [set_rs st_rs].
  destruct (buildResharder_sources keyspace' sources _) as [rs1 | err |] eqn:Hsources;
    [| done | done].
  destruct (buildResharder_targets keyspace' targets rs1) as [rs2 | err |] eqn:Htargets;
    [| done | done].
  pose proof (buildResharder_loops_recorded _ _ _ _ _ _ _ _ Hsources Htargets)
    as Hrecorded.
  apply buildResharder_sources_options in Hsources.
  apply buildResharder_targets_options in Htargets.
  rewrite Hsources in Htargets. unfold options_of in Htargets. cbn in Htargets.
  injection Htargets as _ _ _ Hr _ _ _ _ _.
  intros Hvalidate.
  pose proof Hvalidate as Hbuilt.
  apply buildResharder_validate_Ok in Hvalidate as [-> Hshards]. cbn in Hshards.
  apply buildResharder_validate_built in Hbuilt as (vs & _ & Hvs & _); [| done].
  split; [| by exists vs].
  unfold shards_of in Hshards. injection Hshards as Hs1 Hs2 Hs3 Hs4.
  unfold recorded. by rewrite Hs1, Hs2, Hs3, Hs4.
Qed.

Lemma recorded_primaries keyspace' sources targets rs :
  recorded keyspace' sources targets rs → primaries_recorded rs.
Proof.
  intros (_ & [_ Htargets] & _) target Hin.
  destruct (Htargets target Hin) as (primary & _ & Hprimary). by exists primary.
Qed.

Lemma recorded_no_sources keyspace' sources targets rs :
  recorded keyspace' sources targets rs → sourceShards rs = [] ↔ sources = [].
Proof.
  intros ([Hsources _] & _). apply Forall2_length in Hsources.
  split; intros Hnil; rewrite Hnil in Hsources; cbn in Hsources.
  - by destruct sources.
  - by destruct (sourceShards rs).
Qed.

Lemma validateTargets_task_no_panic target st :
  is_Some (targetPrimaries (st_rs st) !! si_shardName target) →
  (validateTargets_task target st).1 ≠ Panic.
Proof.
  intros [targetPrimary Hprimary].
  unfold validateTargets_task, bind, get, VReplicationExec. rewrite Hprimary.
  destruct (tmc_VReplicationExec _ _ _) as [[err | qr] w]; cbn; [done |].
  by case_bool_decide.
Qed.

Lemma validateTargets_no_panic sched st :
  primaries_recorded (st_rs st) → (validateTargets sched st).1 ≠ Panic.
Proof.
  intros Hrecorded. unfold validateTargets, bind, get.
  apply (forAll_no_panic (λ st', st_rs st' = st_rs st)); [| done].
  intros target st1 Hin Hrs. split.
  - apply validateTargets_task_no_panic. rewrite Hrs. by apply Hrecorded.
  - by rewrite validateTargets_task_rs.
Qed.

End BuildPhases.

(** X12. [buildResharder] contacts no tablet before the topology is
    checked: if it has sent any statement, or the world behind the
    tablets has changed, then every source and target shard had been
    looked up with its primary, the sources serving and the targets not,
    and [ValidateForReshard] had accepted them. A failed lookup, a shard
    in the wrong serving state or a rejected layout ends the build with
    nothing sent. *)
Theorem buildResharder_checks_the_topology_first `{Collaborators}
    (schedTargets schedSources : Scheduler) (keyspace' workflow' : string)
    (sources targets : list string) (cell' tabletTypes' : string) (st : state) :
  let run := buildResharder schedTargets schedSources keyspace' workflow'
               sources targets cell' tabletTypes' st in
  st_log run.2 ≠ st_log st ∨ st_world run.2 ≠ st_world st →
  ∃ rs, recorded keyspace' sources targets rs
        ∧ ValidateForReshard (sourceShards rs) (targetShards rs) = None.
Proof.
  cbn zeta. unfold buildResharder, bind, get, modify, lift. cbn [set_rs st_rs].
  destruct (buildResharder_sources keyspace' sources _) as [rs1 | err |] eqn:Hsources;
    [| by intros [? | ?] ..].
  destruct (buildResharder_targets keyspace' targets rs1) as [rs2 | err |] eqn:Htargets;
    [| by intros [? | ?] ..].
  pose proof (buildResharder_loops_recorded _ _ _ _ _ _ _ _ Hsources Htargets)
    as Hrecorded.
  unfold buildResharder_validate, bind, get, fail. cbn [st_rs set_rs].
  destruct (ValidateForReshard (sourceShards rs2) (targetShards rs2)) as [err |] eqn:Hvalid;
    [cbn; by intros [? | ?] |].
  intros _. by exists rs2.
Qed.

(** X13. A resharder that [buildResharder] returns has what the phases
    after the build dereference: run on it, in whatever world and
    schedule, neither [validateTargets] nor [createStreams] nor
    [startStreams] panics, and [copySchema] panics exactly when the list
    of source shards the build was given is empty. *)
Theorem built_resharder_runs_without_panic `{Primitives}
    (schedTargets schedSources : Scheduler) (keyspace' workflow' : string)
    (sources targets : list string) (cell' tabletTypes' : string)
    (st st' : state) (rs : resharder) :
  buildResharder schedTargets schedSources keyspace' workflow' sources targets
    cell' tabletTypes' st = (Ok rs, st') →
  ∀ st1, st_rs st1 = rs →
    (∀ sched, (validateTargets sched st1).1 ≠ Panic)
    ∧ (∀ sched rangeTables rangeRefs,
         (createStreams sched rangeTables rangeRefs st1).1 ≠ Panic)
    ∧ (∀ sched, (startStreams sched st1).1 ≠ Panic)
    ∧ (∀ sched, (copySchema sched st1).1 = Panic ↔ sources = []).
Proof.
  intros Hbuilt st1 Hrs.
  apply buildResharder_Ok_recorded in Hbuilt as [Hrecorded [vs Hvs]].
  pose proof (recorded_primaries _ _ _ _ Hrecorded) as Hprimaries.
  rewrite <- Hrs in Hprimaries, Hvs.
  split_and!.
  - intros sched. by apply validateTargets_no_panic.
  - intros sched rangeTables rangeRefs. unfold createStreams, bind, get. rewrite Hvs.
    destruct (forAll_rpc_task sched
                (createStreams_query rangeRefs
                   (createStreams_excludeRules (rangeTables (Tables vs)) [])) st1)
      as [Hsent _].
    destruct (Hsent Hprimaries) as (Hrun & _).
    change (createStreams_task rangeRefs
              (createStreams_excludeRules (rangeTables (Tables vs)) []))
      with (rpc_task (createStreams_query rangeRefs
                        (createStreams_excludeRules (rangeTables (Tables vs)) []))).
    rewrite Hrun. apply AggrError_not_Panic.
  - intros sched. unfold startStreams, bind, get.
    destruct (forAll_rpc_task sched (λ _ _, startStreams_query) st1) as [Hsent _].
    destruct (Hsent Hprimaries) as (Hrun & _).
    change startStreams_task with (rpc_task (λ _ _, startStreams_query)).
    rewrite Hrun. apply AggrError_not_Panic.
  - intros sched. rewrite <- (recorded_no_sources _ _ _ _ Hrecorded), <- Hrs.
    unfold copySchema, bind, get.
    destruct (sourceShards (st_rs st1)) as [| first rest]; cbn [lookup list_lookup].
    + done.
    + unfold forAll, bind, lift. rewrite forAll_run_copySchema_task. cbn.
      split; [| done]. intros Hpanic. by apply AggrError_not_Panic in Hpanic.
Qed.

(** * The action repository *)

Section ActionRepositoryFacts.
Context `{Platform}.
Import vtctld.

Lemma run_action_result ar actionTimeout ctx name parameters action w :
  run_action ar actionTimeout ctx (mkActionResult name parameters "" false) action w
  = (result_of name parameters
       (action (context_WithTimeout ctx actionTimeout) (wrangler_of ar) w).1,
     (action (context_WithTimeout ctx actionTimeout) (wrangler_of ar) w).2).
Proof.
  unfold run_action, wrangler_of.
  by destruct (action _ _ w) as [[output | err |] w'].
Qed.

Lemma last_registered_snoc {A : Type} name (registrations : list (string * A)) name' method :
  last_registered name (registrations ++ [(name', method)])
  = if decide (name' = name) then Some method else last_registered name registrations.
Proof.
  unfold last_registered. rewrite filter_app, filter_cons, filter_nil. cbn.
  destruct (decide (name' = name)) as [-> | Hne].
  - by rewrite last_snoc.
  - by rewrite app_nil_r.
Qed.

(** Registering keyspace actions touches the keyspace actions only, and
    a later registration under a name replaces an earlier one. *)
Lemma with_keyspace_actions_spec ar registrations :
  let ar' := with_keyspace_actions ar registrations in
  (∀ name, keyspaceActions ar' !! name
           = match last_registered name registrations with
             | Some method => Some method
             | None => keyspaceActions ar !! name
             end)
  ∧ shardActions ar' = shardActions ar
  ∧ tabletActions ar' = tabletActions ar
  ∧ ts ar' = ts ar ∧ collationEnv ar' = collationEnv ar ∧ parser ar' = parser ar.
Proof.
  induction registrations as [| [name' method] registrations IH] using rev_ind.
  - done.
  - cbn zeta in *. unfold with_keyspace_actions in *. rewrite foldl_app. cbn.
    destruct IH as (Hk & Hs & Ht & Hts & Hce & Hp).
    split_and!; try done.
    intros name. rewrite last_registered_snoc, lookup_insert.
    destruct (decide (name' = name)) as [-> | Hne].
    + done.
    + apply Hk.
Qed.

End ActionRepositoryFacts.

(** X14. In a repository made by [NewActionRepository] in which
    keyspace actions have been registered, [ApplyKeyspaceAction] runs the
    method registered last under the name of the action: a registration
    replaces an earlier one under the same name. The method gets a context
    with the action timeout, a wrangler made for the call from the
    repository's topology server, collation environment and parser, and
    the keyspace; its message is the output of the result, or its error
    is, with the error flag set. Under a name that was never registered
    nothing runs and the result is the error "Unknown keyspace action".
    Keyspace actions are not shard or tablet actions: under any name,
    [ApplyShardAction] and [ApplyTabletAction] report an unknown action
    and run nothing. *)
Theorem ApplyKeyspaceAction_runs_the_last_registered `{Platform}
    (topoServer : TopoServer) (collationEnv : CollationEnv) (parser : Parser)
    (registrations : list (string * vtctld.actionKeyspaceMethod))
    (actionTimeout : Z) (ctx : Ctx) (name keyspace : string) (w : Cluster) :
  let ar := vtctld.with_keyspace_actions
              (vtctld.NewActionRepository topoServer collationEnv parser)
              registrations in
  vtctld.ApplyKeyspaceAction ar actionTimeout ctx name keyspace w
  = match vtctld.last_registered name registrations with
    | None =>
        (Ok (vtctld.mkActionResult name keyspace "Unknown keyspace action" true), w)
    | Some method =>
        let run :=
          method (context_WithTimeout ctx actionTimeout)
            (wrangler.New NewConsoleLogger topoServer NewTabletManagerClient
               collationEnv parser)
            keyspace w in
        (vtctld.result_of name keyspace run.1, run.2)
    end
  ∧ (∀ shard, ∃ parameters,
       vtctld.ApplyShardAction ar actionTimeout ctx name keyspace shard w
       = (Ok (vtctld.mkActionResult name parameters "Unknown shard action" true), w))
  ∧ (∀ tabletAlias r,
       vtctld.ApplyTabletAction ar actionTimeout ctx name tabletAlias r w
       = (Ok (vtctld.mkActionResult name (TabletAliasString tabletAlias)
                "Unknown tablet action" true), w)).
Proof.
  intros ar.
  destruct (with_keyspace_actions_spec
              (vtctld.NewActionRepository topoServer collationEnv parser) registrations)
    as (Hk & Hs & Ht & Hts & Hce & Hp).
  fold ar in Hk, Hs, Ht, Hts, Hce, Hp. cbn in Hk, Hs, Ht, Hts, Hce, Hp.
  split_and!.
  - unfold vtctld.ApplyKeyspaceAction. rewrite Hk.
    destruct (vtctld.last_registered name registrations) as [method |].
    + rewrite run_action_result. unfold vtctld.wrangler_of. by rewrite Hts, Hce, Hp.
    + by rewrite lookup_empty.
  - intros shard. unfold vtctld.ApplyShardAction. rewrite Hs, lookup_empty.
    by eexists.
  - intros tabletAlias r. unfold vtctld.ApplyTabletAction. by rewrite Ht, lookup_empty.
Qed.

(** X15. [ApplyTabletAction] checks the role of a registered tablet
    action before it runs it, and only then: when the action has a role
    and [acl.CheckAccessHTTP] refuses the request for it, the method does
    not run, the cluster is untouched and the result is the error
    "Access denied"; when the action was registered with the empty role,
    the access check is skipped and the method runs whoever asks; when
    the check passes, the method runs. *)
Theorem ApplyTabletAction_checks_the_role `{Platform}
    (ar : vtctld.ActionRepository) (actionTimeout : Z) (ctx : Ctx) (name : string)
    (tabletAlias : option TabletAlias) (r : Request) (action : vtctld.actionTabletRecord)
    (w : Cluster) :
  vtctld.tabletActions ar !! name = Some action →
  let run := vtctld.ApplyTabletAction ar actionTimeout ctx name tabletAlias r w in
  let parameters := TabletAliasString tabletAlias in
  let outcome :=
    vtctld.method action (context_WithTimeout ctx actionTimeout)
      (vtctld.wrangler_of ar) tabletAlias w in
  (vtctld.role action ≠ "" →
     (∃ err, CheckAccessHTTP r (vtctld.role action) = Some err) →
     run = (Ok (vtctld.mkActionResult name parameters "Access denied" true), w))
  ∧ (vtctld.role action = "" ∨ CheckAccessHTTP r (vtctld.role action) = None →
     run = (vtctld.result_of name parameters outcome.1, outcome.2)).
Proof.
  intros Haction run parameters outcome. subst run.
  unfold vtctld.ApplyTabletAction. rewrite Haction. split.
  - intros Hrole [err Hdenied]. rewrite bool_decide_eq_true_2 by done.
    by rewrite Hdenied.
  - intros [Hrole | Hgranted].
    + rewrite bool_decide_eq_false_2 by (by intros Hne). by rewrite run_action_result.
    + case_bool_decide; [rewrite Hgranted |]; by rewrite run_action_result.
Qed.

(** * The colour of a row of the query statistics *)

Section QueryzFacts.
Import queryz.
Open Scope Z_scope.

Lemma timepq_of_nonnegative (count tm : Z) :
  0 < count → 0 ≤ tm < 2 ^ 63 →
  int64 (uint64 tm / count) = tm / count.
Proof.
  intros Hcount Htm. unfold int64, uint64.
  rewrite (Z.mod_small tm) by lia.
  assert (0 ≤ tm / count ≤ tm) as Hdiv.
  { split; [apply Z.div_pos; lia |]. apply Z.div_le_upper_bound; nia. }
  rewrite Z.mod_small by lia. lia.
Qed.

Lemma div_lt_iff (a b q : Z) : 0 < b → a / b < q ↔ a < q * b.
Proof.
  intros Hb. split.
  - intros Hlt. destruct (Z.lt_ge_cases a (q * b)) as [| Hge]; [done |].
    apply (Z.div_le_lower_bound a b q) in Hb; lia.
  - intros Hlt. apply Z.div_lt_upper_bound; lia.
Qed.

End QueryzFacts.

(** X16. The colour [queryzHandler] gives the row of a plan depends on
    the mean time per query, compared without rounding: a plan that was
    never executed is "low"; a plan executed [count] times in a total of
    [tm] nanoseconds is "low" exactly when [tm] is below [count] times 10
    milliseconds, "medium" exactly when it is at least that and below
    [count] times 100 milliseconds, and "high" from there on. The other
    columns of the row are the statistics of the plan. *)
Theorem queryz_colour_thresholds (query : string) (stats : queryz.Stats) :
  let row := queryz.row_of_plan query stats in
  let count := queryz.stats_Count stats in
  let tm := queryz.stats_tm stats in
  (count = 0%Z → queryz.Color row = "low")
  ∧ ((0 < count < 2 ^ 64)%Z → (0 ≤ tm < 2 ^ 63)%Z →
       (queryz.Color row = "low" ↔ (tm < count * (10 * queryz.Millisecond))%Z)
       ∧ (queryz.Color row = "medium"
          ↔ (count * (10 * queryz.Millisecond) ≤ tm
             < count * (100 * queryz.Millisecond))%Z)
       ∧ (queryz.Color row = "high" ↔ (count * (100 * queryz.Millisecond) ≤ tm)%Z))
  ∧ (queryz.Count row, queryz.tm row) = (count, tm).
Proof.
  destruct stats as [count tm shardQueries rowsAffected rowsReturned errors].
  cbn zeta. unfold queryz.row_of_plan.
  cbn [queryz.Color queryz.Count queryz.tm queryz.stats_Count queryz.stats_tm].
  split_and!.
  - intros ->. rewrite (bool_decide_eq_false_2 (0 ≠ 0)%Z) by (intros Hne; by apply Hne).
    by rewrite bool_decide_eq_true_2 by (unfold queryz.Millisecond; lia).
  - intros Hcount Htm. rewrite (bool_decide_eq_true_2 (count ≠ 0%Z)) by lia.
    rewrite timepq_of_nonnegative by lia.
    pose proof (div_lt_iff tm count (10 * queryz.Millisecond) ltac:(lia)) as Hlow.
    pose proof (div_lt_iff tm count (100 * queryz.Millisecond) ltac:(lia)) as Hmedium.
    unfold queryz.Millisecond in *.
    repeat case_bool_decide; split_and!; split; try done; try lia.
  - done.
Qed.

(** * The theorems at work on the concrete cluster *)

Section OnTheCluster.
Import Fixture.

Lemma enumerated_on_the_cluster (w : gmap string (list (list string))) :
enumerated (st_rs (before_reading w)) (st_world (before_reading w)) (answer_of w).
Proof.
intros source Hin. apply list_elem_of_In in Hin. cbn in Hin.
destruct Hin as [<- | [<- | []]].
- exists (the_primary "-80"). split; reflexivity.
- exists (the_primary "80-"). split; reflexivity.
Defined.

Lemma blsIsReference_without_filter_panics_witness :
  bls_Filter bare_bls = None
  ∧ blsIsReference (a_resharder ["-80"; "80-"] ["-40"; "40-80"]) bare_bls = Panic.
Proof.
  split; [reflexivity |].
  apply (blsIsReference_without_filter_panics
           (a_resharder ["-80"; "80-"] ["-40"; "40-80"]) bare_bls).
  reflexivity.
Defined.

(** The scenarios of the specification, run: a reshard of [-80] and
    [80-], which both hold the reference stream, gives every target one
    sharded row and the reference row; run again, it stops at the
    targets' catalogs; a stream over a reference and a sharded table
    stops the build. *)
Example reshard_with_reference_stream :
  let built :=
    buildResharder fifo lifo "ks" "reshard1" ["-80"; "80-"] ["-40"; "40-80"; "80-c0"; "c0-"]
      "zone1" "primary" (before_reading catalogs) in
  let created := createStreams lifo in_order (λ _, in_order) built.2 in
  is_nil built.1 = true
  ∧ created.1 = Ok tt
  ∧ (row_workflow <$>
       ig_rows (createStreams_generator in_order (st_rs built.2)
                  [mkRule "country" "exclude"] (the_shard "40-80") (the_primary "40-80")))
    = ["reshard1"; "country_ref"]
  ∧ (validateTargets fifo created.2).1
    = Err (Aggregate [streams_exist; streams_exist; streams_exist; streams_exist]).
Proof. vm_compute. done. Qed.

Example reshard_with_mixed_stream :
  ∃ err,
    (buildResharder fifo fifo "ks" "reshard1" ["-80"] ["-40"; "40-80"] "zone1" "primary"
       (before_reading (<["-80" := [ ["wf"; "mixed"; "zone1"; "replica"] ] ]> ∅))).1
    = Err (Wrapf (Aggregate [Wrapf err "blsIsReference" []]) "readRefStreams" [])
    ∧ Err err = classified mixed_bls InvalidMix.
Proof. eexists. vm_compute. done. Qed.

Lemma forAll_aggregates_every_error_witness :
(∀ shard calls, (check_serving shard calls).1 ≠ Panic)
∧ ∃ calls st',
    forAll lifo
      [the_shard "-80"; the_shard "-40"; the_shard "c0-"]
      check_serving 0
    = (AggrError (errors_of calls.*2), st')
    ∧ calls.*1 ≡ₚ [the_shard "-80"; the_shard "-40"; the_shard "c0-"].
Proof.
assert (∀ shard calls, (check_serving shard calls).1 ≠ Panic) as Hnopanic.
{ intros shard calls. unfold check_serving. simpl.
  destruct (IsPrimaryServing shard); discriminate. }
split; [exact Hnopanic |].
destruct (forAll_aggregates_every_error lifo
            [the_shard "-80"; the_shard "-40"; the_shard "c0-"]
            check_serving 0 Hnopanic)
  as (calls & st' & _ & Hrun & Hperm & _).
exists calls, st'. split; [exact Hrun | exact Hperm].
Defined.



Lemma buildResharder_writes_nothing_witness :
(∀ tablet query w,
   is_select query = true → (exec tablet query w).2 = w)
∧ st_world (buildResharder fifo lifo "ks" "reshard1" ["-80"; "80-"]
              ["-40"; "40-80"] "zone1" "primary"
              (before_reading catalogs)).2
  = catalogs.
Proof.
assert (∀ tablet query w,
          is_select query = true → (exec tablet query w).2 = w) as Hreads.
{ intros tablet query w Hselect. unfold exec, is_select in *.
  destruct (String.eqb (tablet_Shard tablet) "down"); [reflexivity |].
  destruct (String.prefix "select 1 " query); [reflexivity |].
  rewrite Hselect. reflexivity. }
split; [exact Hreads |].
destruct (buildResharder_writes_nothing (λ w, w)
            fifo lifo "ks" "reshard1" ["-80"; "80-"]
            ["-40"; "40-80"] "zone1" "primary"
            (before_reading catalogs) Hreads)
  as (issued & _ & _ & Hworld).
exact Hworld.
Defined.

Lemma createStreams_filter_shape_witness :
∃ ig,
  (createStreams_interleaved two_spare in_order (λ _, in_order)
     (a_resharder ["-80"; "80-"] ["-40"; "40-80"]) the_vschema
     two_targets [0; 1; 1; 0; 0; 1; 0; 1; 1; 0; 0; 1]).2 !! 1
  = Some (AtExec ig).
Proof.
destruct (createStreams_filter_shape two_spare in_order
            (λ _, in_order)
            (a_resharder ["-80"; "80-"] ["-40"; "40-80"]) the_vschema
            two_targets [0; 1; 1; 0; 0; 1; 0; 1; 1; 0; 0; 1]) as (_ & _ & _ & Hreaches).
apply Hreaches.
- intros i Hi. simpl in Hi.
  destruct i as [| [| i]]; [vm_compute; lia | vm_compute; lia | lia].
- simpl. lia.
Defined.

Lemma readRefStreams_cross_source_agreement_witness :
(readRefStreams fifo (before_reading catalogs_missing)).1 ≠ Ok tt.
Proof.
destruct (readRefStreams_cross_source_agreement fifo (before_reading catalogs_missing)
            (answer_of catalogs_missing) (the_shard "-80") [the_shard "80-"]
            eq_refl (enumerated_on_the_cluster catalogs_missing) eq_refl)
  as (m & Hm & _ & _ & Hcompare).
vm_compute in Hm. injection Hm as <-.
destruct (Hcompare (the_shard "80-")) as [Hfails _].
- apply list_elem_of_In. simpl. left. reflexivity.
- vm_compute. discriminate.
- exact Hfails.
Defined.

Lemma readRefStreams_duplicate_refKey_witness :
∃ errs workflow,
  (readRefStreams fifo (before_reading catalogs_duplicate)).1 = Err (Aggregate errs)
  ∧ mismatch_for workflow ∈ errs.
Proof.
destruct (readRefStreams_duplicate_refKey fifo (before_reading catalogs_duplicate)
            (answer_of catalogs_duplicate) (the_shard "-80") [the_shard "80-"]
            {["country_ref:ks:-"]}
            eq_refl (enumerated_on_the_cluster catalogs_duplicate) eq_refl)
  as [Hduplicate _].
- intros source Hin. apply list_elem_of_In in Hin. simpl in Hin.
  destruct Hin as [<- | [<- | []]].
  + split; [| vm_compute; reflexivity].
    apply Forall_forall. intros row Hrow. apply list_elem_of_In in Hrow.
    vm_compute in Hrow. destruct Hrow as [<- | []].
    exists "country_ref", "country", "zone1", "replica", country_bls, true.
    split; [reflexivity | split; [discriminate | split; reflexivity]].
  + split; [| vm_compute; reflexivity].
    apply Forall_forall. intros row Hrow. apply list_elem_of_In in Hrow.
    vm_compute in Hrow. destruct Hrow as [<- | [<- | []]].
    * exists "country_ref", "country", "zone1", "replica", country_bls, true.
      split; [reflexivity | split; [discriminate | split; reflexivity]].
    * exists "country_ref", "country", "zone2", "rdonly", country_bls, true.
      split; [reflexivity | split; [discriminate | split; reflexivity]].
- destruct (Hduplicate (the_shard "80-")) as (errs & workflow & Hrun & _ & Herr).
  + apply list_elem_of_In. simpl. left. reflexivity.
  + intros Hnodup. vm_compute in Hnodup.
    inversion Hnodup as [| key keys Hnotin _]. apply Hnotin. left.
  + exists errs, workflow. split; [exact Hrun | exact Herr].
Defined.


End OnTheCluster.

(** * The further theorems at work on the concrete cluster *)

Section OnTheClusterAgain.
Import Fixture Fixture2.

Lemma primaries_recorded_on_the_cluster (w : gmap string (list (list string))) :
primaries_recorded (st_rs (before_reading w)).
Proof.
intros target Hin. apply list_elem_of_In in Hin. cbn in Hin.
destruct Hin as [<- | [<- | []]]; eexists; reflexivity.
Defined.

Lemma startStreams_sends_one_update_per_target_witness :
primaries_recorded (st_rs (before_reading catalogs))
∧ length (st_log (startStreams lifo (before_reading catalogs)).2) = 2.
Proof.
split; [apply primaries_recorded_on_the_cluster |].
destruct (startStreams_sends_one_update_per_target lifo (before_reading catalogs))
  as [Hsent _].
destruct (Hsent (primaries_recorded_on_the_cluster catalogs)) as (Hrun & Hlength & _).
rewrite Hrun. cbn [snd st_log]. rewrite length_app, Hlength. reflexivity.
Defined.

Lemma copySchema_copies_from_the_first_source_witness :
sourceShards (st_rs unreachable_target) = [the_shard "-80"; the_shard "80-"]
∧ (copySchema fifo unreachable_target).1
  = Err (Aggregate [Errorf "rpc: unavailable" []]).
Proof.
split; [reflexivity |].
destruct (copySchema_copies_from_the_first_source fifo unreachable_target)
  as [_ Hcopies].
rewrite (Hcopies (the_shard "-80") [the_shard "80-"] eq_refl). reflexivity.
Defined.

Lemma createStreams_sends_one_insert_per_target_witness :
vschema (st_rs (before_reading catalogs)) = Some the_vschema
∧ primaries_recorded (st_rs (before_reading catalogs))
∧ length (st_log (createStreams fifo in_order (λ _, in_order)
                    (before_reading catalogs)).2) = 2.
Proof.
split; [reflexivity |]. split; [apply primaries_recorded_on_the_cluster |].
destruct (createStreams_sends_one_insert_per_target fifo in_order (λ _, in_order)
            (before_reading catalogs)) as [_ Hsome].
destruct (Hsome the_vschema eq_refl) as [Hsent _].
destruct (Hsent (primaries_recorded_on_the_cluster catalogs)) as (Hrun & Hlength & _).
rewrite Hrun. cbn [snd st_log]. rewrite length_app, Hlength. reflexivity.
Defined.

Lemma refKey_separates_colon_free_names_witness :
colon_free "country_ref" = true ∧ colon_free "ks" = true
∧ bls_Shard country_bls = bls_Shard mixed_bls.
Proof.
split; [reflexivity |]. split; [reflexivity |].
destruct refKey_separates_colon_free_names as [Hseparates _].
destruct (Hseparates "country_ref" "country_ref" country_bls mixed_bls
            eq_refl eq_refl eq_refl eq_refl eq_refl) as (_ & _ & Hshard).
exact Hshard.
Defined.

Lemma blsIsReference_verdict_witness :
vschema (a_resharder ["-80"; "80-"] ["-40"; "40-80"]) = Some the_vschema
∧ bls_Filter country_bls = Some (mkFilter [mkRule "country" ""])
∧ blsIsReference (a_resharder ["-80"; "80-"] ["-40"; "40-80"]) country_bls ≠ Panic.
Proof.
split; [reflexivity |]. split; [reflexivity |].
destruct (blsIsReference_verdict (a_resharder ["-80"; "80-"] ["-40"; "40-80"])
            the_vschema country_bls (mkFilter [mkRule "country" ""]) eq_refl eq_refl)
  as (_ & _ & Hnopanic).
exact Hnopanic.
Defined.

Lemma blsIsReference_order_independent_witness :
[mkRule "country" ""; mkRule "user" ""] ≡ₚ [mkRule "user" ""; mkRule "country" ""]
∧ (blsIsReference (a_resharder ["-80"; "80-"] ["-40"; "40-80"]) mixed_bls = Panic
   ↔ blsIsReference (a_resharder ["-80"; "80-"] ["-40"; "40-80"])
       (with_rules mixed_bls [mkRule "user" ""; mkRule "country" ""]) = Panic).
Proof.
split; [apply perm_swap |].
destruct (blsIsReference_order_independent
            (a_resharder ["-80"; "80-"] ["-40"; "40-80"]) mixed_bls
            (mkFilter [mkRule "country" ""; mkRule "user" ""])
            [mkRule "user" ""; mkRule "country" ""] eq_refl (perm_swap _ _ _))
  as [_ Hpanic].
exact Hpanic.
Defined.

Lemma createStreams_sharded_streams_are_rejected_witness :
Tables the_vschema !! "/.*" = None
∧ blsIsReference (a_resharder ["-80"; "80-"] ["-40"; "40-80"])
    (row_bls (sharded_row (a_resharder ["-80"; "80-"] ["-40"; "40-80"])
                (the_shard "-40")
                (createStreams_excludeRules (in_order (Tables the_vschema)) [])
                (the_shard "-80")))
  = Err (Errorf "table %v not found in vschema" [AStr "/.*"]).
Proof.
split; [reflexivity |].
destruct (createStreams_sharded_streams_are_rejected (H := cluster) in_order
            (a_resharder ["-80"; "80-"] ["-40"; "40-80"]) the_vschema
            (the_shard "-40") (the_shard "-80") eq_refl eq_refl eq_refl)
  as [Hrejected _].
exact Hrejected.
Defined.

Lemma readRefStreams_succeeds_only_on_accepted_rows_witness :
(readRefStreams fifo (before_reading catalogs)).1 = Ok tt
∧ Forall (row_accepted (st_rs (before_reading catalogs)))
    (Rows (answer_of catalogs (the_shard "80-"))).
Proof.
assert ((readRefStreams fifo (before_reading catalogs)).1 = Ok tt) as Hok
  by (vm_compute; reflexivity).
split; [exact Hok |].
apply (readRefStreams_succeeds_only_on_accepted_rows fifo (before_reading catalogs)
         (answer_of catalogs) (enumerated_on_the_cluster catalogs) Hok).
apply list_elem_of_In. simpl. right. left. reflexivity.
Defined.


Lemma a_build_succeeds :
∃ rs st',
  buildResharder fifo lifo "ks" "reshard1" ["-80"; "80-"] ["-40"; "40-80"]
    "zone1" "primary" (before_reading catalogs) = (Ok rs, st').
Proof.
assert (is_nil (buildResharder fifo lifo "ks" "reshard1" ["-80"; "80-"]
                  ["-40"; "40-80"] "zone1" "primary" (before_reading catalogs)).1
        = true) as Hbuilt by (vm_compute; reflexivity).
destruct (buildResharder fifo lifo "ks" "reshard1" ["-80"; "80-"] ["-40"; "40-80"]
            "zone1" "primary" (before_reading catalogs)) as [[rs | err |] st'];
  [exists rs, st'; reflexivity | discriminate | discriminate].
Defined.

Lemma buildResharder_holds_reference_streams_only_witness :
∃ rs st',
  buildResharder fifo lifo "ks" "reshard1" ["-80"; "80-"] ["-40"; "40-80"]
    "zone1" "primary" (before_reading catalogs) = (Ok rs, st')
  ∧ (stopAfterCopy rs, onDDL rs, deferSecondaryKeys rs) = (false, "", false).
Proof.
destruct a_build_succeeds as (rs & st' & Hbuilt).
exists rs, st'. split; [exact Hbuilt |].
destruct (buildResharder_holds_reference_streams_only fifo lifo "ks" "reshard1"
            ["-80"; "80-"] ["-40"; "40-80"] "zone1" "primary"
            (before_reading catalogs) st' rs Hbuilt) as (_ & Hoptions & _).
exact Hoptions.
Defined.

Lemma buildResharder_checks_the_topology_first_witness :
st_log (buildResharder fifo lifo "ks" "reshard1" ["-80"; "80-"] ["-40"; "40-80"]
          "zone1" "primary" (before_reading catalogs)).2
  ≠ st_log (before_reading catalogs)
∧ ∃ rs, recorded "ks" ["-80"; "80-"] ["-40"; "40-80"] rs
        ∧ ValidateForReshard (sourceShards rs) (targetShards rs) = None.
Proof.
assert (st_log (buildResharder fifo lifo "ks" "reshard1" ["-80"; "80-"]
                  ["-40"; "40-80"] "zone1" "primary" (before_reading catalogs)).2
        ≠ st_log (before_reading catalogs)) as Hsent
  by (vm_compute; discriminate).
split; [exact Hsent |].
apply (buildResharder_checks_the_topology_first fifo lifo "ks" "reshard1"
         ["-80"; "80-"] ["-40"; "40-80"] "zone1" "primary" (before_reading catalogs)).
left. exact Hsent.
Defined.

Lemma built_resharder_runs_without_panic_witness :
∃ rs st',
  buildResharder fifo lifo "ks" "reshard1" ["-80"; "80-"] ["-40"; "40-80"]
    "zone1" "primary" (before_reading catalogs) = (Ok rs, st')
  ∧ (startStreams fifo (a_state rs catalogs)).1 ≠ Panic.
Proof.
destruct a_build_succeeds as (rs & st' & Hbuilt).
exists rs, st'. split; [exact Hbuilt |].
destruct (built_resharder_runs_without_panic fifo lifo "ks" "reshard1"
            ["-80"; "80-"] ["-40"; "40-80"] "zone1" "primary"
            (before_reading catalogs) st' rs Hbuilt (a_state rs catalogs) eq_refl)
  as (_ & _ & Hstart & _).
apply Hstart.
Defined.

Lemma ApplyTabletAction_checks_the_role_witness :
vtctld.tabletActions a_repository !! "RefreshState"
  = Some (vtctld.mkActionTabletRecord "admin" refresh)
∧ vtctld.ApplyTabletAction a_repository 30%Z 0%Z "RefreshState"
    (Some (mkTabletAlias "zone1" 100)) "guest" []
  = (Ok (vtctld.mkActionResult "RefreshState" "zone1" "Access denied" true), []).
Proof.
split; [reflexivity |].
destruct (ApplyTabletAction_checks_the_role a_repository 30%Z 0%Z "RefreshState"
            (Some (mkTabletAlias "zone1" 100)) "guest"
            (vtctld.mkActionTabletRecord "admin" refresh) [] eq_refl) as [Hdenied _].
apply Hdenied.
- discriminate.
- eexists. reflexivity.
Defined.

Lemma queryz_colour_thresholds_witness :
(0 < 3 < 2 ^ 64)%Z ∧ (0 ≤ 45000000 < 2 ^ 63)%Z
∧ (queryz.Color (queryz.row_of_plan "select 1" (queryz.mkStats 3 45000000 3 0 3 0))
     = "medium"
   ↔ (3 * (10 * queryz.Millisecond) ≤ 45000000 < 3 * (100 * queryz.Millisecond))%Z).
Proof.
split; [lia |]. split; [lia |].
destruct (queryz_colour_thresholds "select 1" (queryz.mkStats 3 45000000 3 0 3 0))
  as (_ & Hthresholds & _).
destruct (Hthresholds ltac:(simpl; lia) ltac:(simpl; lia)) as (_ & Hmedium & _).
exact Hmedium.
Defined.

End OnTheClusterAgain.
